(** * Distributed code generator: a shallow embedding of [generator]

    The lowering pass walks a layout-annotated program and emits target
    values.  This development embeds the parts of the generator that the
    specification makes checkable statements about: the narrow-float
    conversions, the width selection of loads, the masked-load fallback,
    the swizzled shared-memory offsets, the reduction neutral elements,
    the index materializer and the finalization of shared buffers.

    Machine integers are [Z] with their wrap-around written out; values
    built at lowering time are terms of [Value]; a C++ [throw] is the
    [Throw] outcome of [result]. *)

From Stdlib Require Import ZArith List Lia Bool Permutation.
From stdpp Require Import base option list sorting gmap strings.

Local Open Scope Z_scope.

(** ** Outcomes of a lowering step *)

Inductive result (A : Type) : Type :=
| Ok (a : A)
| Throw (msg : string)      (* throw std::runtime_error(msg) *)
| Undefined.                (* behaviour the C++ standard leaves undefined *)
Arguments Ok {A} a.
Arguments Throw {A} msg.
Arguments Undefined {A}.

#[global] Instance result_ret : MRet result := fun A a => Ok a.

#[global] Instance result_bind : MBind result := fun A B k r =>
  match r with
  | Ok a => k a
  | Throw m => Throw m
  | Undefined => Undefined
  end.


(** ** Machine integers *)

Definition wrap (w z : Z) : Z := z mod 2 ^ w.

(* value of a w-bit pattern read as a two's complement number *)
Definition signed (w z : Z) : Z :=
  let u := wrap w z in if u <? 2 ^ (w - 1) then u else u - 2 ^ w.

Definition INT32_MIN : Z := - 2 ^ 31.
Definition INT32_MAX : Z := 2 ^ 31 - 1.

(* conversion of a C [int] to [uint64_t] *)
Definition to_uint64 (z : Z) : Z := wrap 64 z.

(** ** Target values *)

Module LLVM.

Inductive Ty : Type :=
| IntegerTy (w : Z)
| HalfTy
| FloatTy
| DoubleTy
| VectorTy (elt : Ty) (n : nat)
| StructTy2 (a b : Ty).

Definition i8_ty := IntegerTy 8.
Definition i32_ty := IntegerTy 32.
Definition f16_ty := HalfTy.
Definition f32_ty := FloatTy.
Definition vec_ty (t : Ty) (n : nat) := VectorTy t n.

Fixpoint getPrimitiveSizeInBits (t : Ty) : Z :=
  match t with
  | IntegerTy w => w
  | HalfTy => 16
  | FloatTy => 32
  | DoubleTy => 64
  | VectorTy e n => Z.of_nat n * getPrimitiveSizeInBits e
  | StructTy2 _ _ => 0
  end.

Inductive BinaryOps := Add | Mul | UDiv | URem | Xor.

(* One statement of an inline PTX fragment.  [Placeholder n] is the
   ordinal operand [$n]. *)
Inductive ptx_operand :=
| Reg (name : string)
| Imm (v : Z)
| Placeholder (n : nat).

Inductive ptx_instr :=
| prmt_b32 (d a b c : ptx_operand)
| lop3_b32 (d a b c : ptx_operand) (immLut : Z)
| shr_b32 (d a b : ptx_operand).

Inductive Value : Type :=
| ConstantInt (w : Z) (v : Z)          (* value kept modulo 2^w *)
| ConstantFP (ty : Ty) (bits : Z)      (* a float constant, by its bit pattern *)
| UndefValue (ty : Ty)
| Argument (name : string)             (* a value known only at run time *)
| BinaryOperator (op : BinaryOps) (lhs rhs : Value)
| InsertElement (vec elt : Value) (idx : nat)
| ExtractElement (vec : Value) (idx : nat)
| ExtractValue (agg : Value) (idx : nat)
| BitCast (v : Value) (ty : Ty)
| FPExt (v : Value) (ty : Ty)
| CallInlineAsm (ret_ty : Ty) (body : list ptx_instr)
                (constraints : string) (arg : Value).

(* ConstantInt::get(Type*, uint64_t): the APInt keeps the low w bits *)
Definition ConstantInt_get (w : Z) (V : Z) : Value := ConstantInt w (wrap w V).
Definition getInt8 (v : Z) : Value := ConstantInt_get 8 v.
Definition getInt32 (v : Z) : Value := ConstantInt_get 32 v.
Definition i32 := getInt32.

(* APFloat::convertToFloat() == 0 on a binary32 pattern: both zeros *)
Definition convertToFloat_is_zero (bits : Z) : bool :=
  Z.land bits 0x7fffffff =? 0.

(** *** Run-time meaning of emitted values *)

#[warning="-register-all"]
Inductive rval : Type :=
| RBits (w : Z) (bits : Z)
| RUndef
| RVec (elts : list rval)
| RStruct2 (a b : rval).

Definition undef_of (t : Ty) : rval :=
  match t with
  | VectorTy e n => RVec (repeat RUndef n)
  | _ => RUndef
  end.

(* little-endian concatenation of the elements of a vector *)
Fixpoint pack (elts : list rval) : option (Z * Z) :=
  match elts with
  | [] => Some (0, 0)
  | RBits w b :: rest =>
      match pack rest with
      | Some (wr, br) => Some (w + wr, Z.lor (wrap w b) (Z.shiftl br w))
      | None => None
      end
  | _ => None
  end.

Fixpoint split (w : Z) (n : nat) (bits : Z) : list rval :=
  match n with
  | O => []
  | S n' => RBits w (wrap w bits) :: split w n' (Z.shiftr bits w)
  end.

Definition of_bits (t : Ty) (w bits : Z) : option rval :=
  match t with
  | VectorTy e n =>
      if Z.of_nat n * getPrimitiveSizeInBits e =? w
      then Some (RVec (split (getPrimitiveSizeInBits e) n bits))
      else None
  | StructTy2 _ _ => None
  | _ => if getPrimitiveSizeInBits t =? w then Some (RBits w bits) else None
  end.

(* widening of a binary16 pattern to binary32 *)
Definition fpext_f16_f32 (h : Z) : Z :=
  let s := Z.shiftl (Z.land (Z.shiftr h 15) 1) 31 in
  let e := Z.land (Z.shiftr h 10) 0x1f in
  let m := Z.land h 0x3ff in
  if e =? 0 then
    if m =? 0 then s
    else
      let k := Z.log2 m in
      Z.lor s (Z.lor (Z.shiftl (k + 103) 23) (Z.shiftl (m - 2 ^ k) (23 - k)))
  else if e =? 31 then Z.lor s (Z.lor 0x7f800000 (Z.shiftl m 13))
  else Z.lor s (Z.lor (Z.shiftl (e + 112) 23) (Z.shiftl m 13)).

(** *** PTX statements used by the fragments *)

Definition b2z (b : bool) : Z := if b then 1 else 0.

Definition prmt (a b c : Z) : Z :=
  let tmp64 := Z.lor (Z.shiftl b 32) a in
  let pick (i : Z) :=
    let sel := Z.land (Z.shiftr c (4 * i)) 0xf in
    let byte := Z.land (Z.shiftr tmp64 (8 * Z.land sel 7)) 0xff in
    if Z.testbit sel 3 then (if Z.testbit byte 7 then 0xff else 0) else byte in
  Z.lor (Z.lor (pick 0) (Z.shiftl (pick 1) 8))
        (Z.lor (Z.shiftl (pick 2) 16) (Z.shiftl (pick 3) 24)).

Definition lop3 (a b c immLut : Z) : Z :=
  fold_right
    (fun i acc =>
       let idx := 4 * b2z (Z.testbit a i) + 2 * b2z (Z.testbit b i)
                  + b2z (Z.testbit c i) in
       if Z.testbit immLut idx then Z.setbit acc i else acc)
    0 (map Z.of_nat (seq 0 32)).

Definition shr (a n : Z) : Z := if n <? 32 then Z.shiftr a n else 0.

Record ptx_state := { regs : gmap string Z; operands : gmap nat Z }.

Definition ptx_read (st : ptx_state) (o : ptx_operand) : option Z :=
  match o with
  | Reg r => regs st !! r
  | Imm v => Some (wrap 32 v)
  | Placeholder n => operands st !! n
  end.

Definition ptx_write (st : ptx_state) (o : ptx_operand) (v : Z) : option ptx_state :=
  match o with
  | Reg r => Some {| regs := <[r := v]> (regs st); operands := operands st |}
  | Placeholder n => Some {| regs := regs st; operands := <[n := v]> (operands st) |}
  | Imm _ => None
  end.

Definition ptx_step (st : ptx_state) (i : ptx_instr) : option ptx_state :=
  match i with
  | prmt_b32 d a b c =>
      x ← ptx_read st a; y ← ptx_read st b; z ← ptx_read st c;
      ptx_write st d (prmt x y z)
  | lop3_b32 d a b c lut =>
      x ← ptx_read st a; y ← ptx_read st b; z ← ptx_read st c;
      ptx_write st d (lop3 x y z lut)
  | shr_b32 d a b =>
      x ← ptx_read st a; y ← ptx_read st b;
      ptx_write st d (shr x y)
  end.

Fixpoint ptx_run (st : ptx_state) (body : list ptx_instr) : option ptx_state :=
  match body with
  | [] => Some st
  | i :: rest => st' ← ptx_step st i; ptx_run st' rest
  end.

Definition eval_binop (op : BinaryOps) (w x y : Z) : option Z :=
  match op with
  | Add => Some (wrap w (x + y))
  | Mul => Some (wrap w (x * y))
  | UDiv => if y =? 0 then None else Some (x / y)
  | URem => if y =? 0 then None else Some (x mod y)
  | Xor => Some (Z.lxor x y)
  end.

Fixpoint eval (env : string -> option rval) (v : Value) : option rval :=
  match v with
  | ConstantInt w z => Some (RBits w z)
  | ConstantFP ty bits => Some (RBits (getPrimitiveSizeInBits ty) bits)
  | UndefValue ty => Some (undef_of ty)
  | Argument x => env x
  | BinaryOperator op l r =>
      match eval env l, eval env r with
      | Some (RBits w x), Some (RBits w' y) =>
          if w =? w' then z ← eval_binop op w x y; Some (RBits w z) else None
      | _, _ => None
      end
  | InsertElement vec elt idx =>
      match eval env vec, eval env elt with
      | Some (RVec l), Some e =>
          if decide (idx < length l)%nat then Some (RVec (<[idx := e]> l)) else None
      | _, _ => None
      end
  | ExtractElement vec idx =>
      match eval env vec with
      | Some (RVec l) => l !! idx
      | _ => None
      end
  | ExtractValue agg idx =>
      match eval env agg, idx with
      | Some (RStruct2 a _), O => Some a
      | Some (RStruct2 _ b), S O => Some b
      | _, _ => None
      end
  | BitCast x ty =>
      match eval env x with
      | Some (RBits w b) => of_bits ty w b
      | Some (RVec l) => '(w, b) ← pack l; of_bits ty w b
      | _ => None
      end
  | FPExt x ty =>
      match eval env x, ty with
      | Some (RBits 16 h), FloatTy => Some (RBits 32 (fpext_f16_f32 h))
      | _, _ => None
      end
  | CallInlineAsm ret_ty body _ arg =>
      (* two 32-bit outputs $0 and $1, one 32-bit input $2 *)
      match eval env arg, ret_ty with
      | Some (RBits 32 a), StructTy2 t0 t1 =>
          st ← ptx_run {| regs := ∅; operands := {[ 2%nat := a ]} |} body;
          o0 ← operands st !! 0%nat; o1 ← operands st !! 1%nat;
          r0 ← of_bits t0 32 o0; r1 ← of_bits t1 32 o1;
          Some (RStruct2 r0 r1)
      | _, _ => None
      end
  end.

End LLVM.
Import LLVM.

(** ** Source-level scalar types ([ir::type]) *)

Module ir.

Inductive type :=
| VoidTy
| FP8Ty
| FP16Ty
| BF16Ty
| FP32Ty
| FP64Ty
| IntegerTy (bitwidth : Z)
| PointerTy.

Definition is_fp8_ty (t : type) := match t with FP8Ty => true | _ => false end.
Definition is_fp16_ty (t : type) := match t with FP16Ty => true | _ => false end.
Definition is_bf16_ty (t : type) := match t with BF16Ty => true | _ => false end.
Definition is_fp32_ty (t : type) := match t with FP32Ty => true | _ => false end.

End ir.

(** ** Narrow-format conversions and [visit_cast_inst] *)

Module Cast.

Definition tuple4 : Type := Value * Value * Value * Value.

(* the lambda [cvt] of fp32x4_to_fp8x4 *)
Definition cvt_zero (v : Value) : result Value :=
  match v with
  | ConstantFP _ bits =>
      if convertToFloat_is_zero bits then Ok (getInt8 0)
      else Throw "unsupported cast"
  | _ => Throw "unsupported cast"
  end.

Definition fp32x4_to_fp8x4 (in0 in1 in2 in3 : Value) : result tuple4 :=
  r0 ← cvt_zero in0; r1 ← cvt_zero in1; r2 ← cvt_zero in2; r3 ← cvt_zero in3;
  Ok (r0, r1, r2, r3).

(* the PTX block of fp8x4_to_fp16x4, statement by statement *)
Definition fp8x4_to_fp16x4_ptx : list ptx_instr :=
  [ prmt_b32 (Reg "a0") (Imm 0) (Placeholder 2) (Imm 0x5140);
    prmt_b32 (Reg "a1") (Imm 0) (Placeholder 2) (Imm 0x7362);
    lop3_b32 (Reg "b0") (Reg "a0") (Imm 0x7fff7fff) (Imm 0) 0xc0;
    lop3_b32 (Reg "b1") (Reg "a1") (Imm 0x7fff7fff) (Imm 0) 0xc0;
    shr_b32 (Reg "b0") (Reg "b0") (Imm 1);
    shr_b32 (Reg "b1") (Reg "b1") (Imm 1);
    lop3_b32 (Placeholder 0) (Reg "b0") (Imm 0x80008000) (Reg "a0") 0xf8;
    lop3_b32 (Placeholder 1) (Reg "b1") (Imm 0x80008000) (Reg "a1") 0xf8 ].

Definition fp8x4_to_fp16x4 (in0 in1 in2 in3 : Value) : tuple4 :=
  let ret_ty := StructTy2 (vec_ty f16_ty 2) (vec_ty f16_ty 2) in
  let packed_in := UndefValue (vec_ty i8_ty 4) in
  let packed_in := InsertElement packed_in in0 0 in
  let packed_in := InsertElement packed_in in1 1 in
  let packed_in := InsertElement packed_in in2 2 in
  let packed_in := InsertElement packed_in in3 3 in
  let in_ := BitCast packed_in i32_ty in
  let ret := CallInlineAsm ret_ty fp8x4_to_fp16x4_ptx "=r,=r,r" in_ in
  let packed_ret0 := ExtractValue ret 0 in
  let packed_ret1 := ExtractValue ret 1 in
  let ret0 := ExtractElement packed_ret0 0 in
  let ret1 := ExtractElement packed_ret0 1 in
  let ret2 := ExtractElement packed_ret1 0 in
  let ret3 := ExtractElement packed_ret1 1 in
  (ret0, ret1, ret2, ret3).

Definition fp8x4_to_fp32x4 (in0 in1 in2 in3 : Value) : tuple4 :=
  let '(ret0, ret1, ret2, ret3) := fp8x4_to_fp16x4 in0 in1 in2 in3 in
  let ret0 := FPExt ret0 f32_ty in
  let ret1 := FPExt ret1 f32_ty in
  let ret2 := FPExt ret2 f32_ty in
  let ret3 := FPExt ret3 f32_ty in
  (ret0, ret1, ret2, ret3).

(* the lambda [cvt] of visit_cast_inst *)
Definition cvt (op_sca_ty ret_sca_ty : ir.type) (a b c d : Value) : result tuple4 :=
  if ir.is_fp32_ty op_sca_ty && ir.is_fp8_ty ret_sca_ty
  then fp32x4_to_fp8x4 a b c d
  else if ir.is_fp8_ty op_sca_ty && ir.is_fp16_ty ret_sca_ty
  then Ok (fp8x4_to_fp16x4 a b c d)
  else Throw "unsupported conversion".

(* [for(size_t i = 0; i < x_idxs.size(); i+=4)]: [op_vals] lists
   vals_[op][op_idxs[j]] by j, the outcome lists vals_[x][x_idxs[j]] by j.
   Subscripts past the end of a vector are undefined behaviour. *)
Fixpoint cast_loop (op_sca_ty ret_sca_ty : ir.type) (iters : nat) (i x_size : nat)
         (op_vals : list Value) : result (list Value) :=
  match iters with
  | O => Ok []
  | S iters' =>
      if decide (i + 3 < x_size)%nat then
        match op_vals !! i, op_vals !! (i + 1)%nat,
              op_vals !! (i + 2)%nat, op_vals !! (i + 3)%nat with
        | Some a, Some b, Some c, Some d =>
            '(r0, r1, r2, r3) ← cvt op_sca_ty ret_sca_ty a b c d;
            rest ← cast_loop op_sca_ty ret_sca_ty iters' (i + 4) x_size op_vals;
            Ok (r0 :: r1 :: r2 :: r3 :: rest)
        | _, _, _, _ => Undefined
        end
      else Undefined
  end.

(* The [<> FP8] branch of visit_cast_inst, entered when the source or the
   destination scalar type is the 8-bit format.  [contiguous] is
   layouts_->get(x)->to_scanline()->nts(ld). *)
Definition visit_cast_inst_fp8 (op_sca_ty ret_sca_ty : ir.type) (contiguous : Z)
           (x_size : nat) (op_vals : list Value) : result (list Value) :=
  if negb (Z.rem contiguous 4 =? 0)
  then Throw "unsupported fp32 -> fp8 conversion"
  else cast_loop op_sca_ty ret_sca_ty ((x_size + 3) / 4)%nat 0 x_size op_vals.



Definition is_constant_zero_fp (v : Value) : bool :=
  match v with
  | ConstantFP _ bits => convertToFloat_is_zero bits
  | _ => false
  end.

End Cast.

(** ** Layouts as the generator queries them *)

Module analysis.

(* [nts k]: elements of dimension k that one lane holds contiguously *)
Inductive data_layout :=
| scanline_layout (nts : nat -> Z)
| mma_layout
| shared_layout.


(* the run length that visit_layout_scanline and visit_layout_mma record
   in axes_ for dimension k: nts(k) for a scanline layout, 1 for a
   matrix-unit layout *)
Definition contiguous (l : data_layout) (k : nat) : option Z :=
  match l with
  | scanline_layout nts => Some (nts k)
  | mma_layout => Some 1
  | shared_layout => None
  end.

End analysis.

(** ** [visit_load_inst] *)

Module Load.

(* implicit conversions of the C++ source *)
Definition to_int (z : Z) : Z := signed 32 z.
Definition size_t_mul (a b : Z) : Z := wrap 64 (a * b).


Record words := { width : Z; n_words : Z }.

(* "pack sub-words (< 32/64bits) into words": [prim_bits] is
   get_primitive_size_in_bits() of the loaded scalar type.  A zero width
   makes the division undefined. *)
Definition word_split (prim_bits vec : Z) : result words :=
  let dtsize := prim_bits / 8 in
  let nbits := size_t_mul dtsize 8 in
  let max_word_width := Z.max 32 (to_int nbits) in
  let tot_width := to_int (size_t_mul nbits vec) in
  let width := Z.min tot_width max_word_width in
  if width =? 0 then Undefined
  else Ok {| width := width; n_words := Z.max 1 (Z.quot tot_width width) |}.

(** *** The emitted fragment *)

Inductive asm_src :=
| SrcImm (v : Z)              (* "0x" followed by the value *)
| SrcOperand (n : Z).         (* "$n" *)

Inductive asm_stmt :=
(* "@$p ld.global[.vN].bW {$0,...,$(N-1)}, [ $a + off];" *)
| ld_global (p : Z) (N W : Z) (a : Z) (off : Z)
(* "@!$p mov.uW $d, src;" *)
| mov_not_pred (p : Z) (W : Z) (d : Z) (src : asm_src).

Record inline_asm_call := {
  stmts : list asm_stmt;
  args : list Value            (* operands $N, $(N+1), ... in this order *)
}.

(* IRBuilder with its constant folder: a vector assembled from null
   constants is the null vector, and a cast of a null constant folds to the
   null constant of the destination type; a cast of any other vector to an
   integer stays an expression. *)
Definition isNullValue (v : Value) : bool :=
  match v with
  | ConstantInt _ 0 => true
  | ConstantFP _ 0 => true
  | _ => false
  end.

Fixpoint inserted (v : Value) : option (list (option Value)) :=
  match v with
  | UndefValue (VectorTy _ n) => Some (repeat None n)
  | InsertElement vec elt idx => l ← inserted vec; Some (<[idx := Some elt]> l)
  | _ => None
  end.

Definition is_null_vector (v : Value) : bool :=
  match inserted v with
  | Some l => forallb (fun o => match o with Some e => isNullValue e | None => false end) l
  | None => false
  end.

Definition insert_elt (vec elt : Value) (idx : nat) : Value := InsertElement vec elt idx.

Definition bit_cast (v : Value) (ty : Ty) : Value :=
  match v with
  | UndefValue _ => UndefValue ty
  | _ => if is_null_vector v
         then ConstantInt_get (getPrimitiveSizeInBits ty) 0
         else BitCast v ty
  end.

Definition is_ConstantInt (v : Value) : option Z :=
  match v with ConstantInt w z => Some (signed w z) | _ => None end.

(* [for(size_t s = 0; s < size; s++) v = insert_elt(v, vals_[false_val][idxs[i + ii*size + s]], s)];
   [false_vals] lists vals_[false_val][idxs[i + k]] by k *)
Fixpoint gather (false_vals : list Value) (base : nat) (size s : nat) (v : Value)
  : result Value :=
  match size with
  | O => Ok v
  | S size' =>
      match false_vals !! (base + s)%nat with
      | Some e => gather false_vals base size' (S s) (insert_elt v e s)
      | None => Undefined
      end
  end.

(* the fallback of word ii, packed into an integer of the word's width *)
Definition packed_word (ty : Ty) (w : words) (nbits : Z) (false_vals : list Value)
           (ii : nat) : result Value :=
  let size := Z.to_nat (width w / nbits) in
  v ← gather false_vals (ii * size) size 0 (UndefValue (vec_ty ty size));
  Ok (bit_cast v (IntegerTy (width w))).

(* one turn of [for(size_t ii = 0; ii < n_words; ii++)] under [has_other] *)
Definition other_word (ty : Ty) (w : words) (nbits : Z) (false_vals : list Value)
           (ii : nat) (acc : list asm_stmt * list Value)
  : result (list asm_stmt * list Value) :=
  v ← packed_word ty w nbits false_vals ii;
  match is_ConstantInt v with
  | Some cst =>
      Ok (acc.1 ++ [mov_not_pred (n_words w) (width w) (Z.of_nat ii) (SrcImm cst)], acc.2)
  | None =>
      Ok (acc.1 ++ [mov_not_pred (n_words w) (width w) (Z.of_nat ii)
                      (SrcOperand (n_words w + 2 + Z.of_nat ii))],
          acc.2 ++ [v])
  end.

Fixpoint other_words (ty : Ty) (w : words) (nbits : Z) (false_vals : list Value)
         (iis : list nat) (acc : list asm_stmt * list Value)
  : result (list asm_stmt * list Value) :=
  match iis with
  | [] => Ok acc
  | ii :: rest =>
      acc' ← other_word ty w nbits false_vals ii acc;
      other_words ty w nbits false_vals rest acc'
  end.

(* The inline fragment and its operand list for one vector access. *)
Definition emit_load (ty : Ty) (w : words) (nbits in_off : Z)
           (pred ptr : Value) (has_other : bool) (false_vals : list Value)
  : result inline_asm_call :=
  let ld := ld_global (n_words w) (n_words w) (width w) (n_words w + 1) in_off in
  '(ss, others) ←
    (if has_other
     then other_words ty w nbits false_vals (seq 0 (Z.to_nat (n_words w))) ([ld], [])
     else Ok ([ld], []));
  Ok {| stmts := ss; args := [pred; ptr] ++ others |}.

(** *** What the fragment does at run time *)

(* [outs] are the registers $0..$(N-1); operand $k with N <= k is the
   (k-N)-th argument of the call.  A reference to an operand that was not
   passed makes the fragment ill-formed. *)
Definition read_src (N : Z) (arg_vals : list rval) (src : asm_src) : option Z :=
  match src with
  | SrcImm v => Some v
  | SrcOperand k =>
      if k <? N then None
      else match arg_vals !! Z.to_nat (k - N) with
           | Some (RBits _ b) => Some b
           | _ => None
           end
  end.

Definition exec_stmt (N : Z) (pred : bool) (mem : list Z) (arg_vals : list rval)
           (outs : list (option Z)) (st : asm_stmt) : option (list (option Z)) :=
  match st with
  | ld_global _ n _ _ _ =>
      if pred then Some (map Some (take (Z.to_nat n) mem)) else Some outs
  | mov_not_pred _ _ d src =>
      v ← read_src N arg_vals src;
      if pred then Some outs else Some (<[Z.to_nat d := Some v]> outs)
  end.

Fixpoint exec (N : Z) (pred : bool) (mem : list Z) (arg_vals : list rval)
         (outs : list (option Z)) (ss : list asm_stmt) : option (list (option Z)) :=
  match ss with
  | [] => Some outs
  | st :: rest =>
      outs' ← exec_stmt N pred mem arg_vals outs st;
      exec N pred mem arg_vals outs' rest
  end.

(* run the call: evaluate the operands, then the statements *)
Definition run_call (env : string -> option rval) (N : Z) (pred : bool) (mem : list Z)
           (c : inline_asm_call) : option (list (option Z)) :=
  arg_vals ← mapM (eval env) (args c);
  exec N pred mem arg_vals (repeat None (Z.to_nat N)) (stmts c).

End Load.

(** ** Swizzled shared-memory offsets *)

Module Swizzle.

Definition list_eqb (a b : list nat) : bool := bool_decide (a = b).

Record tile := {
  in_vec : Z; out_vec : Z; min_vec : Z; s : Z; per_phase : Z; max_phase : Z
}.

(* the "tiles" prologue of visit_copy_to_shared_inst; the swizzle analysis
   supplies [swz_vec], [swz_per_phase] and [swz_max_phase] for the output
   layout, and [nts0] is in_layout->nts(in_order[0]).  [out_vec / in_vec]
   with a zero divisor is undefined. *)
Definition copy_to_shared_tile (out_order in_order : list nat) (nts0 : Z)
           (swz_vec swz_per_phase swz_max_phase : Z) : result tile :=
  let in_vec := if list_eqb out_order in_order then nts0 else 1 in
  let out_vec := swz_vec in
  let min_vec := Z.min out_vec in_vec in
  if in_vec =? 0 then Undefined else
  let s := Z.max (Z.quot out_vec in_vec) 1 in
  Ok {| in_vec := in_vec; out_vec := out_vec; min_vec := min_vec; s := s;
        per_phase := swz_per_phase; max_phase := swz_max_phase |}.

(* the same prologue in visit_masked_load_async_inst *)
Definition masked_load_async_tile (out_order in_order : list nat) (nts0 : Z)
           (swz_vec swz_per_phase swz_max_phase : Z) : result tile :=
  let in_vec := if list_eqb out_order in_order then nts0 else 1 in
  let out_vec := swz_vec in
  let min_vec := Z.min out_vec in_vec in
  if in_vec =? 0 then Undefined else
  let s := Z.max (Z.quot out_vec in_vec) 1 in
  Ok {| in_vec := in_vec; out_vec := out_vec; min_vec := min_vec; s := s;
        per_phase := swz_per_phase; max_phase := swz_max_phase |}.

Section Builder.

(* The generator's [add] and [mul] functors and the builder macros
   [udiv], [urem] and [xor_]. *)
Variables add mul udiv urem xor_ : Value -> Value -> Value.

(* visit_copy_to_shared_inst, the block under [if(ptrs.find(key) == ptrs.end())]:
   [idx] is idxs_.at(arg).at(key.first*in_ld), [key_second] is key.second *)
Definition copy_to_shared_off (t : tile) (idx : list Value) (in_order : list nat)
           (shapes : list Z) (key_second : Z) : result Value :=
  match in_order !! 0%nat, in_order !! 1%nat with
  | Some o0, Some o1 =>
      match idx !! o1, idx !! o0, shapes !! o0 with
      | Some row, Some col, Some shape0 =>
          let phase := udiv row (i32 (per_phase t)) in
          let phase := urem phase (i32 (max_phase t)) in
          let off_1 := mul row (i32 shape0) in
          let off_0 := add col (i32 (key_second * out_vec t)) in
          let off_0 := udiv off_0 (i32 (min_vec t)) in
          let off_0 := add (mul (xor_ (udiv off_0 (i32 (s t))) phase) (i32 (s t)))
                           (urem off_0 (i32 (s t))) in
          let off_0 := mul off_0 (i32 (min_vec t)) in
          let off := add off_0 off_1 in
          Ok off
      | _, _, _ => Undefined
      end
  | _, _ => Undefined
  end.

(* visit_masked_load_async_inst, the block under [if(tmp.find(key) == tmp.end())] *)
Definition masked_load_async_off (t : tile) (idx : list Value) (in_order : list nat)
           (shapes : list Z) (key_second : Z) : result Value :=
  match in_order !! 0%nat, in_order !! 1%nat with
  | Some o0, Some o1 =>
      match idx !! o1, idx !! o0, shapes !! o0 with
      | Some row, Some col, Some shape0 =>
          let phase := udiv row (i32 (per_phase t)) in
          let phase := urem phase (i32 (max_phase t)) in
          let off_1 := mul row (i32 shape0) in
          let off_0 := add col (i32 (key_second * out_vec t)) in
          let off_0 := udiv off_0 (i32 (min_vec t)) in
          let off_0 := add (mul (xor_ (udiv off_0 (i32 (s t))) phase) (i32 (s t)))
                           (urem off_0 (i32 (s t))) in
          let off_0 := mul off_0 (i32 (min_vec t)) in
          let off := add off_0 off_1 in
          Ok off
      | _, _, _ => Undefined
      end
  | _, _ => Undefined
  end.

End Builder.

(** The offset as the specification words it: the phase of a row, and the
    vector group of a column permuted by the phase. *)
Definition spec_phase (row per_phase max_phase : Z) : Z :=
  (row / per_phase) mod max_phase.

Definition spec_permute (group s phase : Z) : Z :=
  Z.lxor (group / s) phase * s + group mod s.

Definition spec_offset (row col shape0 key_second : Z) (t : tile) : Z :=
  let phase := spec_phase row (per_phase t) (max_phase t) in
  let group := (col + key_second * out_vec t) / min_vec t in
  spec_permute group (s t) phase * min_vec t + row * shape0.

(* an environment for trying the offsets on numbers *)
Definition example_env (x : string) : option rval :=
  if decide (x = "row") then Some (RBits 32 5)
  else if decide (x = "col") then Some (RBits 32 12) else None.

End Swizzle.

(** ** Reductions *)

Module Reduce.

(* ir::reduce_inst::op_t, the operators the switches of visit_reduce_inst
   name *)
Inductive op_t := ADD | SUB | MAX | MIN | FADD | FSUB | FMAX | FMIN.

(* the [double] arguments passed to ConstantFP::get *)
Inductive double_literal := zero | minus_INFINITY | INFINITY.

(* ConstantInt::get(Type*, uint64_t) is defined on integer types *)
Definition ConstantInt_get_ty (ty : Ty) (V : Z) : result Value :=
  match ty with
  | LLVM.IntegerTy w => Ok (ConstantInt_get w V)
  | _ => Undefined
  end.

(* ConstantFP::get(Type*, double) is defined on floating-point types *)
Definition ConstantFP_get (ty : Ty) (V : double_literal) : result Value :=
  match ty, V with
  | HalfTy, zero => Ok (ConstantFP HalfTy 0)
  | HalfTy, minus_INFINITY => Ok (ConstantFP HalfTy 0xfc00)
  | HalfTy, INFINITY => Ok (ConstantFP HalfTy 0x7c00)
  | FloatTy, zero => Ok (ConstantFP FloatTy 0)
  | FloatTy, minus_INFINITY => Ok (ConstantFP FloatTy 0xff800000)
  | FloatTy, INFINITY => Ok (ConstantFP FloatTy 0x7f800000)
  | DoubleTy, zero => Ok (ConstantFP DoubleTy 0)
  | DoubleTy, minus_INFINITY => Ok (ConstantFP DoubleTy 0xfff0000000000000)
  | DoubleTy, INFINITY => Ok (ConstantFP DoubleTy 0x7ff0000000000000)
  | _, _ => Undefined
  end.

(* "neutral element" of visit_reduce_inst; [ty] is the target type of the
   reduced scalar *)
Definition neutral (op : op_t) (ty : Ty) : result Value :=
  match op with
  | ADD => ConstantInt_get_ty ty (to_uint64 0)
  | SUB => ConstantInt_get_ty ty (to_uint64 0)
  | MAX => ConstantInt_get_ty ty (to_uint64 INT32_MIN)
  | MIN => ConstantInt_get_ty ty (to_uint64 INT32_MAX)
  | FADD => ConstantFP_get ty zero
  | FSUB => ConstantFP_get ty zero
  | FMAX => ConstantFP_get ty minus_INFINITY
  | FMIN => ConstantFP_get ty INFINITY
  end.

(* "reduce within thread" of visit_reduce1d_inst: [vals] lists
   vals_[arg][idx] for idx in idxs_.at(arg); the accumulator starts null *)
Definition reduce_within_thread (do_acc : Value -> Value -> Value) (vals : list Value)
  : option Value :=
  fold_left
    (fun (acc : option Value) val =>
       match acc with
       | None => Some val
       | Some a => Some (do_acc a val)
       end)
    vals None.

(* least and greatest value of a w-bit two's complement integer *)
Definition int_min (w : Z) : Z := - 2 ^ (w - 1).
Definition int_max (w : Z) : Z := 2 ^ (w - 1) - 1.

End Reduce.

(** ** The index materializer *)

Module Index.

(* a vector of [Value*]; [None] is the null pointer *)
Definition indices_t := list (option Value).

Record distributed_axis := {
  contiguous : Z;
  values : list Value;
  thread_id : option Value
}.

(* std::sort on a short range: the insertion sort of the standard library *)
Section Sort.
Variable comp : nat -> nat -> bool.

(* the sorted prefix is given last element first *)
Fixpoint unguarded_linear_insert (val : nat) (rev_prefix : list nat) : list nat :=
  match rev_prefix with
  | [] => [val]
  | next :: r =>
      if comp val next then next :: unguarded_linear_insert val r
      else val :: next :: r
  end.

Definition insertion_step (sorted : list nat) (val : nat) : list nat :=
  match sorted with
  | [] => [val]
  | first :: _ =>
      if comp val first then val :: sorted
      else rev (unguarded_linear_insert val (rev sorted))
  end.

Definition std_sort (l : list nat) : list nat := fold_left insertion_step l [].
End Sort.

(* what init_idx asks of the owning layout *)
Record data_layout := { find_axis : nat -> nat; get_order : nat -> Z }.

(* the lambda [cmp]; [a_axes_get d] is a_axes_->get(v, d) *)
Definition cmp (rank : nat) (a_axes_get : nat -> nat) (layout : data_layout)
           (x y : nat) : bool :=
  let axx := a_axes_get x in
  let axy := a_axes_get y in
  let posx := find_axis layout axx in
  let posy := find_axis layout axy in
  if (posx <? rank)%nat && (posy <? rank)%nat
  then get_order layout posx <? get_order layout posy
  else false.

(* "compute axes"; std::map::at throws when the key is absent *)
Fixpoint compute_axes (shapes : list Z) (d : nat) (a_axes_get : nat -> nat)
         (axes_ : gmap nat distributed_axis) : result (list distributed_axis) :=
  match shapes with
  | [] => Ok []
  | sh :: rest =>
      a ← (if 1 <? sh then
             match axes_ !! a_axes_get d with
             | Some a => Ok a
             | None => Throw "map::at"
             end
           else Ok {| contiguous := 1; values := [i32 0]; thread_id := None |});
      r ← compute_axes rest (S d) a_axes_get axes_;
      Ok (a :: r)
  end.

(* ord[k] and axes[ord[k]].values *)
Definition axis_at (axes : list distributed_axis) (ord : list nat) (k : nat)
  : result (nat * list Value) :=
  match ord !! k with
  | Some d =>
      match axes !! d with
      | Some a => Ok (d, values a)
      | None => Undefined
      end
  | None => Undefined
  end.

(* The outcome is idxs_[v] and, when it is assigned, ords_[v]. *)
Definition init_idx (is_block_ty to_shared : bool) (shapes : list Z)
           (a_axes_get : nat -> nat) (axes_ : gmap nat distributed_axis)
           (layout : data_layout) : result (list indices_t * option (list nat)) :=
  if negb is_block_ty then Ok ([[]], None)
  else if to_shared then Ok ([], None)
  else
    let rank := length shapes in
    axes ← compute_axes shapes 0 a_axes_get axes_;
    let ord := std_sort (cmp rank a_axes_get layout) (seq 0 rank) in
    idxs ←
      match rank with
      | 1%nat =>
          '(o0, v0) ← axis_at axes ord 0;
          Ok (map (fun x0 => [Some x0]) v0)
      | 2%nat =>
          '(o0, v0) ← axis_at axes ord 0;
          '(o1, v1) ← axis_at axes ord 1;
          Ok (flat_map (fun x1 =>
                map (fun x0 =>
                       <[o1 := Some x1]> (<[o0 := Some x0]> (repeat None 2))) v0) v1)
      | 3%nat =>
          '(o0, v0) ← axis_at axes ord 0;
          '(o1, v1) ← axis_at axes ord 1;
          '(o2, v2) ← axis_at axes ord 2;
          Ok (flat_map (fun x2 =>
                flat_map (fun x1 =>
                  map (fun x0 =>
                         <[o2 := Some x2]>
                           (<[o1 := Some x1]> (<[o0 := Some x0]> (repeat None 3))))
                      v0) v1) v2)
      | _ => Ok []
      end;
    Ok (idxs, Some ord).





(* a two-coordinate axis and a layout whose order is the identity *)
Definition example_axis : distributed_axis :=
  {| contiguous := 2; values := [Argument "a"; Argument "b"]; thread_id := None |}.

Definition example_layout : data_layout :=
  {| find_axis := fun ax => ax; get_order := Z.of_nat |}.

End Index.

(** ** Finalization of shared buffers *)

Module Finalize.

(* a loop-carried integer phi: its value on the loop-entry edge and the
   value on the latch edge as a function of the current value *)
Record loop_phi := { init : Z; latch : Z -> Z }.

(* value of the phi at the start of the k-th iteration after entry *)
Definition phi_value (p : loop_phi) (k : nat) : Z := Nat.iter k (latch p) (init p).

(* finalize_smem_idx: [_ret] is 0 on the "then" edge and idx + 1 on the
   "else" edge of the test idx == num_stages - 1; values are 32-bit *)
Definition finalize_smem_idx (num_stages init_stage : Z) : loop_phi :=
  {| init := wrap 32 init_stage;
     latch := fun idx =>
                if idx =? wrap 32 (num_stages - 1) then wrap 32 0
                else wrap 32 (idx + 1) |}.

Definition read_smem_idx (num_stages : Z) : loop_phi :=
  finalize_smem_idx num_stages 2.

Definition write_smem_idx (num_stages : Z) : loop_phi :=
  finalize_smem_idx num_stages (num_stages - 1).

(* the double-buffer branch: incoming values of the offset phi, one per
   incoming edge of the source phi *)
Inductive incoming := from_latch | from_other.

Inductive offset_incoming :=
| neg_offset                 (* neg(offset) *)
| constant (v : Z).          (* i32(...) *)

(* [size] is shared->get_size(), [prim_bits] the primitive size in bits of
   the buffer's element type; division by zero is undefined *)
Definition offset_incomings (size prim_bits : Z) (incs : list incoming)
  : result (list offset_incoming) :=
  mapM (M := result)
       (fun inc =>
          match inc with
          | from_latch => Ok neg_offset
          | from_other =>
              let num_bytes := prim_bits / 8 in
              if wrap 32 (2 * num_bytes) =? 0 then Undefined
              else Ok (constant (wrap 32 (size / wrap 32 (2 * num_bytes))))
          end) incs.

(* taking an incoming edge when the phi currently holds [cur] *)
Definition take (e : offset_incoming) (cur : Z) : Z :=
  match e with
  | neg_offset => wrap 32 (- cur)
  | constant v => v
  end.

(* enter the loop through [entry], then go round the latch k times *)
Definition offset_after (entry : offset_incoming) (k : nat) : Z :=
  Nat.iter k (take neg_offset) (take entry 0).

End Finalize.

(** ** Loop-carried shared-buffer pointers *)

Module Lifecycle.
Import Finalize.

(* A pointer into a shared buffer is counted in elements from
   shared_pre_ptr_; gep adds the sign-extended 32-bit index. *)
Definition gep (base idx : Z) : Z := base + signed 32 idx.

(* the generator's [mul] on 32-bit values *)
Definition mul32 (x y : Z) : Z := wrap 32 (x * y).

(* The phis an N-stage buffer owns at the loop header (visit_layout_shared):
   read_smem_idx_, write_smem_idx_, shared_ptr_ and shared_next_ptr_. *)
Record n_buffer_phis := {
  read_idx : Z;
  write_idx : Z;
  shared_ptr : Z;
  shared_next_ptr : Z
}.

(* incoming values on the loop-entry edge (finalize_shared_layout) *)
Definition n_buffer_entry (num_stages per_stage_elements : Z) : n_buffer_phis :=
  {| read_idx := init (read_smem_idx num_stages);
     write_idx := init (write_smem_idx num_stages);
     shared_ptr := 0;
     shared_next_ptr := gep 0 (wrap 32 per_stage_elements) |}.

(* incoming values on the latch edge, from the values of this iteration *)
Definition n_buffer_latch (num_stages per_stage_elements : Z) (p : n_buffer_phis)
  : n_buffer_phis :=
  {| read_idx := latch (read_smem_idx num_stages) (read_idx p);
     write_idx := latch (write_smem_idx num_stages) (write_idx p);
     shared_ptr := shared_next_ptr p;
     shared_next_ptr := gep 0 (mul32 (read_idx p) (wrap 32 per_stage_elements)) |}.

Definition n_buffer_at (num_stages per_stage_elements : Z) (k : nat) : n_buffer_phis :=
  Nat.iter k (n_buffer_latch num_stages per_stage_elements)
           (n_buffer_entry num_stages per_stage_elements).

(* visit_value for the latch value of the buffer: the pointer it is given *)
Definition n_buffer_latch_ptr (per_stage_elements : Z) (p : n_buffer_phis) : Z :=
  gep 0 (mul32 (write_idx p) (wrap 32 per_stage_elements)).

(* The phis of a double buffer: shared_ptr_ and shared_off_; shared_next_ptr_
   is gep(shared_ptr_, shared_off_).  The value [first] is given
   shared_pre_ptr_, the value [latch] is given shared_next_ptr_. *)
Record double_buffer_phis := { db_ptr : Z; db_off : Z }.

Definition db_next_ptr (p : double_buffer_phis) : Z := gep (db_ptr p) (db_off p).

Definition double_buffer_entry (e : offset_incoming) : double_buffer_phis :=
  {| db_ptr := 0; db_off := take e 0 |}.

Definition double_buffer_latch (p : double_buffer_phis) : double_buffer_phis :=
  {| db_ptr := db_next_ptr p; db_off := take neg_offset (db_off p) |}.

Definition double_buffer_at (e : offset_incoming) (k : nat) : double_buffer_phis :=
  Nat.iter k double_buffer_latch (double_buffer_entry e).

End Lifecycle.

(** ** [visit_layout_scanline] *)

Module Scanline.

(* the builder calls of this function, as the instructions they create *)
Definition add := BinaryOperator Add.
Definition mul := BinaryOperator Mul.
Definition udiv := BinaryOperator UDiv.
Definition urem := BinaryOperator URem.

(* [full_thread_id] from the lane's local id *)
Definition full_thread_id (u_thread_id_0 : Value) : Value :=
  let warp_size := i32 32 in
  let u_thread_id := urem u_thread_id_0 warp_size in
  let u_warp_id := udiv u_thread_id_0 warp_size in
  add (mul u_warp_id (i32 32)) u_thread_id.

(* "Delinearize": [mts_in_order] lists layout->mts(order[k]) by k; the
   outcome lists thread_id[order[k]] by k.  With no dimension the bound
   dim - 1 of the loop wraps around. *)
Fixpoint delinearize (full : Value) (mts_in_order : list Z) : result (list Value) :=
  match mts_in_order with
  | [] => Undefined
  | [_] => Ok [full]
  | m :: rest =>
      let dim_k := i32 m in
      let rem := urem full dim_k in
      ids ← delinearize (udiv full dim_k) rest;
      Ok (rem :: ids)
  end.

(* the recombination of per-dimension ids, first dimension fastest *)
Fixpoint linearize (mts_in_order ids : list Z) : Z :=
  match mts_in_order, ids with
  | m :: rest, t :: ts => t + m * linearize rest ts
  | _, _ => 0
  end.

(* [unsigned offset = n / nts * per_cta + n % nts] *)
Definition idx_offset (nts per_cta n : Z) : Z :=
  wrap 32 (wrap 32 (n / nts * per_cta) + n mod nts).

(* [unsigned per_thread = nts * shape[k] / per_cta] *)
Definition per_thread (nts per_cta shape : Z) : Z := wrap 32 (nts * shape) / per_cta.

(* "Create axes", one dimension: the coordinate list of the axis; a zero
   [nts] or [per_cta] makes a division undefined *)
Definition idx_list (thread_id_k : Value) (nts per_cta shape : Z) : result (list Value) :=
  if (nts =? 0) || (per_cta =? 0) then Undefined
  else
    let contiguous_k := i32 nts in
    let scaled_thread_id := mul thread_id_k contiguous_k in
    Ok (map (fun n => add scaled_thread_id (i32 (idx_offset nts per_cta (Z.of_nat n))))
            (seq 0 (Z.to_nat (per_thread nts per_cta shape)))).

End Scanline.

(** ** The truncated 16-bit format *)

Module BFloat.

Definition getInt16 (v : Z) : Value := ConstantInt_get 16 v.

Definition bf16_to_fp32 (in0 : Value) : Value :=
  let ret := UndefValue (vec_ty (LLVM.IntegerTy 16) 2) in
  let ret := InsertElement ret in0 1 in
  let ret := InsertElement ret (getInt16 0) 0 in
  BitCast ret FloatTy.

(* [sm] is the target's compute capability; [cvt_rn_bf16_f32] stands for the
   call of the inline fragment "cvt.rn.bf16.f32 $0, $1;" *)
Definition fp32_to_bf16 (sm : Z) (cvt_rn_bf16_f32 : Value -> Value) (in0 : Value) : Value :=
  if 80 <=? sm then cvt_rn_bf16_f32 in0
  else ExtractElement (BitCast in0 (vec_ty (LLVM.IntegerTy 16) 2)) 1.

End BFloat.

(** ** Shuffle trees of the 1-D reduction *)

Module Warp.

Section Lanes.
Context {V : Type}.

(* the accumulate function that visit_reduce1d_inst receives *)
Variable do_acc : V -> V -> V.

(* A warp is the list of the 32 lanes' values.  shfl.sync.bfly with clamp
   0x1f and a full member mask: lane l reads lane (l xor i), or its own value
   when that lane does not exist. *)
Definition shfl_sync (acc : list V) (i : nat) : list V :=
  imap (fun lane v => default v (acc !! Nat.lxor lane i)) acc.

(* [acc = do_acc(acc, shfl_sync(acc, i))] in every lane *)
Definition butterfly_step (acc : list V) (i : nat) : list V :=
  zip_with do_acc acc (shfl_sync acc i).

(* [for(int i = start; i > 0; i >>= 1)] *)
Fixpoint butterfly (fuel i : nat) (acc : list V) : list V :=
  match fuel with
  | O => acc
  | S fuel' =>
      if (0 <? i)%nat then butterfly fuel' (Nat.shiftr i 1) (butterfly_step acc i)
      else acc
  end.

(* "reduce within wrap": distances 16, 8, 4, 2, 1 *)
Definition reduce_within_warp (acc : list V) : list V := butterfly 6 16 acc.

(* "reduce across warps", in the first warp: [ret] starts as the shared slot
   of each lane; distances (num_warps+1)/2, ..., 1 *)
Definition reduce_across_warps (num_warps : nat) (ret : list V) : list V :=
  butterfly 6 ((num_warps + 1) / 2) ret.

(* What the shared buffer holds after [store(neutral, gep(base, lane))] by
   every thread, a barrier, and [store(acc, gep(base, warp))] by every thread:
   all the lanes of warp w write the slot w, and the store of lane [winner w]
   lands last. *)
Definition shared_after_stores (winner : nat -> nat) (neutral : V)
           (accs : list (list V)) : list V :=
  fold_left (fun mem warp =>
               match accs !! warp ≫= (.!! winner warp) with
               | Some acc => <[warp := acc]> mem
               | None => mem
               end)
            (seq 0 (length accs)) (replicate 32 neutral).

(* visit_reduce1d_inst after the fold within each thread: [accs] is the
   accumulator of every thread, one list of 32 lanes for each warp.  The
   result is the value that [load(base)] gives to all threads: slot 0, which
   lane 0 of the first warp has written. *)
Definition visit_reduce1d_inst (winner : nat -> nat) (neutral : V) (num_warps : nat)
           (accs : list (list V)) : option V :=
  let warps := reduce_within_warp <$> accs in
  let ret := shared_after_stores winner neutral warps in
  reduce_across_warps num_warps ret !! 0%nat.

(* combination of a non-empty list, first element outermost *)
Fixpoint big (d : V) (l : list V) : V :=
  match l with
  | [] => d
  | x :: l' => match l' with [] => x | _ => do_acc x (big d l') end
  end.

End Lanes.

(* the shape of a lane's value: which lanes' inputs were combined, and how *)
Inductive tree := Leaf (lane : nat) | Node (a b : tree).

Fixpoint leaves (t : tree) : list nat :=
  match t with Leaf l => [l] | Node a b => leaves a ++ leaves b end.

Fixpoint interp {V} (do_acc : V -> V -> V) (d : V) (vals : list V) (t : tree) : V :=
  match t with
  | Leaf l => default d (vals !! l)
  | Node a b => do_acc (interp do_acc d vals a) (interp do_acc d vals b)
  end.

(* the loop run on shapes, from distance [start] *)
Definition symbolic_lanes (start : nat) : list tree :=
  butterfly Node 6 start (Leaf <$> seq 0 32).

End Warp.

(** ** Offsets into a shared buffer ([shared_off]) *)

Module SharedOff.

(* [builder_->CreateMul] and [builder_->CreateAdd]: two integer constants of
   one width fold to a constant *)
Definition CreateMul (l r : Value) : Value :=
  match l, r with
  | ConstantInt w a, ConstantInt w' b =>
      if w =? w' then ConstantInt_get w (a * b) else BinaryOperator Mul l r
  | _, _ => BinaryOperator Mul l r
  end.

Definition CreateAdd (l r : Value) : Value :=
  match l, r with
  | ConstantInt w a, ConstantInt w' b =>
      if w =? w' then ConstantInt_get w (a + b) else BinaryOperator Add l r
  | _, _ => BinaryOperator Add l r
  end.

(* [v[i]] on a std::vector: out of range is undefined *)
Definition vector_at {A} (v : list A) (i : nat) : result A :=
  match v !! i with
  | Some a => Ok a
  | None => Undefined
  end.

(* [v[i] = a] *)
Definition vector_set {A} (v : list A) (i : nat) (a : A) : result (list A) :=
  if decide (i < length v)%nat then Ok (<[i := a]> v) else Undefined.

(* [for(size_t i = 1; i < idx.size(); i++)
      strides[order[i]] = CreateMul(strides[order[i-1]], getInt32(shapes[order[i-1]]))],
   [count] turns from [i] on *)
Fixpoint strides_loop (shapes : list Z) (order : list nat) (count i : nat)
         (strides : list Value) : result (list Value) :=
  match count with
  | O => Ok strides
  | S count' =>
      o ← vector_at order i;
      o_prev ← vector_at order (i - 1);
      stride_prev ← vector_at strides o_prev;
      shape_prev ← vector_at shapes o_prev;
      strides' ← vector_set strides o (CreateMul stride_prev (getInt32 shape_prev));
      strides_loop shapes order count' (S i) strides'
  end.

(* [for(size_t i = 0; i < idx.size(); i++)
      result = CreateAdd(result, CreateMul(idx[i], strides[i]))] *)
Fixpoint result_loop (idx strides : list Value) (count i : nat) (res : Value)
  : result Value :=
  match count with
  | O => Ok res
  | S count' =>
      x ← vector_at idx i;
      stride ← vector_at strides i;
      result_loop idx strides count' (S i) (CreateAdd res (CreateMul x stride))
  end.

Definition shared_off (shapes : list Z) (order : list nat) (idx : list Value)
  : result Value :=
  let strides := replicate (length shapes) (getInt32 0) in
  o ← vector_at order 0;
  strides ← vector_set strides o (getInt32 1);
  strides ← strides_loop shapes order (length idx - 1) 1 strides;
  result_loop idx strides (length idx) 0 (getInt32 0).

(* a list read in the order of the dimensions, fastest first *)
Definition in_order (order : list nat) (l : list Z) : list Z :=
  (fun o => default 0 (l !! o)) <$> order.

Definition Zsum (l : list Z) : Z := foldr Z.add 0 l.
Definition Zprod (l : list Z) : Z := foldr Z.mul 1 l.

(* after the turns up to i, the stride of the k-th fastest dimension, k < i,
   is the product of the extents of the faster ones *)
Definition strides_upto (shapes : list Z) (order : list nat) (i : nat)
           (strides : list Value) : Prop :=
  length strides = length shapes
  /\ forall k o, (k < i)%nat -> order !! k = Some o ->
       strides !! o = Some (ConstantInt 32 (Zprod (firstn k (in_order order shapes)))).

End SharedOff.

(** ** Loaded words back to elements *)

Module Extract.
Import Load.

(* visit_load_inst, "extract and store return values": [rets] has one vector
   for each word, [int tmp = width / (dtsize * 8)], and the value of index
   i+ii is [extract_elt(rets[ii/tmp], ii % tmp)].  The result is the word and
   the element of it; a division by zero and a word that [rets] does not
   have are undefined. *)
Definition extract_elt_of_rets (w : words) (prim_bits : Z) (ii : Z) : result (Z * Z) :=
  let dtsize := prim_bits / 8 in
  let divisor := size_t_mul dtsize 8 in
  if divisor =? 0 then Undefined else
  let tmp := to_int (to_uint64 (width w) / divisor) in
  let tmp_size_t := to_uint64 tmp in
  if tmp_size_t =? 0 then Undefined else
  let rets_size := wrap 32 (n_words w) in
  if ii / tmp_size_t <? rets_size
  then Ok (ii / tmp_size_t, ii mod tmp_size_t)
  else Undefined.

End Extract.

(** ** Flattened expression trees ([isaac::expression_tree]) *)

Module isaac.
Local Open Scope nat_scope.

(* what the headers declare and this file only uses *)
Class header := {
  numeric_type : Type;
  INVALID_NUMERIC_TYPE : numeric_type;
  INT_TYPE : numeric_type;
  for_idx_t : Type;
  array_base : Type;
  array_dtype : array_base -> numeric_type;         (* a.dtype() *)
  values_holder : Type;
  value_scalar : Type;
  scalar_dtype : value_scalar -> numeric_type;      (* v.dtype() *)
  scalar_values : value_scalar -> values_holder;    (* v.values() *)
  operation_type_family : Type;
  UNARY_TYPE_FAMILY : operation_type_family;
  BINARY_TYPE_FAMILY : operation_type_family;
  operation_type : Type;
  SUB_TYPE : operation_type;
  NEGATE_TYPE : operation_type;
  ASSIGN_TYPE : operation_type;
  driver_Context : Type;
  shape_t : Type;
  shape_1 : shape_t                                 (* shape_t(1) *)
}.

Section Expression.
Context `{header}.

(* [tree_node]: the subtype tag with the member of the union that it
   selects; [dtype] is INVALID_NUMERIC_TYPE for the first three *)
Inductive tree_node :=
| INVALID_SUBTYPE
| COMPOSITE_OPERATOR_TYPE (node_index : nat)
| FOR_LOOP_INDEX_TYPE (for_idx : for_idx_t)
| DENSE_ARRAY_TYPE (dtype : numeric_type) (array : array_base)
| VALUE_SCALAR_TYPE (dtype : numeric_type) (vscalar : values_holder).

Definition dtype (x : tree_node) : numeric_type :=
  match x with
  | DENSE_ARRAY_TYPE d _ | VALUE_SCALAR_TYPE d _ => d
  | _ => INVALID_NUMERIC_TYPE
  end.

(* the arguments that the constructor templates are instantiated with *)
Inductive operand :=
| invalid_node
| a_for_idx (index : for_idx_t)
| an_array (a : array_base)
| a_value_scalar (v : value_scalar).

(* the overloads of [fill] *)
Definition fill (x : operand) : tree_node :=
  match x with
  | invalid_node => INVALID_SUBTYPE
  | a_for_idx index => FOR_LOOP_INDEX_TYPE index
  | an_array a => DENSE_ARRAY_TYPE (array_dtype a) a
  | a_value_scalar v => VALUE_SCALAR_TYPE (scalar_dtype v) (scalar_values v)
  end.

Definition fill_node_index (node_index : nat) : tree_node :=
  COMPOSITE_OPERATOR_TYPE node_index.

Record op_element := { type_family : operation_type_family; type : operation_type }.

Record node := { lhs : tree_node; op : op_element; rhs : tree_node }.

Record expression_tree := {
  tree_ : list node;
  root_ : nat;
  context_ : option driver_Context;      (* a pointer, NULL as None *)
  dtype_ : numeric_type;
  shape_ : shape_t
}.

(* expression_tree(for_idx_t, for_idx_t, op) and the two constructors of a
   loop index with a scalar: one node, no context, shape_(1) *)
Definition expression_tree_for_idx (lhs rhs : operand) (op : op_element)
           (dtype : numeric_type) : expression_tree :=
  {| tree_ := [ {| lhs := fill lhs; op := op; rhs := fill rhs |} ];
     root_ := 0; context_ := None; dtype_ := dtype; shape_ := shape_1 |}.

(* template<class LT, class RT> expression_tree(LT, RT, ...) *)
Definition expression_tree_leaves (lhs rhs : operand) (op : op_element)
           (context : driver_Context) (dtype : numeric_type) (shape : shape_t)
  : expression_tree :=
  {| tree_ := [ {| lhs := fill lhs; op := op; rhs := fill rhs |} ];
     root_ := 0; context_ := Some context; dtype_ := dtype; shape_ := shape |}.

(* template<class RT> expression_tree(expression_tree const & lhs, RT, ...):
   the nodes of [lhs] are copied to the front, the new node is the last *)
Definition expression_tree_lhs (lhs : expression_tree) (rhs : operand) (op : op_element)
           (context : driver_Context) (dtype : numeric_type) (shape : shape_t)
  : expression_tree :=
  let size := length (tree_ lhs) + 1 in
  {| tree_ := tree_ lhs
              ++ [ {| lhs := fill_node_index (root_ lhs); op := op; rhs := fill rhs |} ];
     root_ := size - 1; context_ := Some context; dtype_ := dtype; shape_ := shape |}.

(* template<class LT> expression_tree(LT, expression_tree const & rhs, ...) *)
Definition expression_tree_rhs (lhs : operand) (rhs : expression_tree) (op : op_element)
           (context : driver_Context) (dtype : numeric_type) (shape : shape_t)
  : expression_tree :=
  let size := length (tree_ rhs) + 1 in
  {| tree_ := tree_ rhs
              ++ [ {| lhs := fill lhs; op := op; rhs := fill_node_index (root_ rhs) |} ];
     root_ := size - 1; context_ := Some context; dtype_ := dtype; shape_ := shape |}.

(* [if(x.subtype==COMPOSITE_OPERATOR_TYPE) x.node_index+=lsize] *)
Definition shift_index (lsize : nat) (x : tree_node) : tree_node :=
  match x with
  | COMPOSITE_OPERATOR_TYPE node_index => COMPOSITE_OPERATOR_TYPE (node_index + lsize)
  | _ => x
  end.

Definition shift_node (lsize : nat) (n : node) : node :=
  {| lhs := shift_index lsize (lhs n); op := op n; rhs := shift_index lsize (rhs n) |}.

(* expression_tree(expression_tree const & lhs, expression_tree const & rhs, ...):
   both copies, the new root, then the loop over [begin + lsize, end - 1) *)
Definition expression_tree_both (lhs rhs : expression_tree) (op : op_element)
           (context : driver_Context) (dtype : numeric_type) (shape : shape_t)
  : expression_tree :=
  let lsize := length (tree_ lhs) in
  let size := length (tree_ lhs) + length (tree_ rhs) + 1 in
  let copied :=
    tree_ lhs ++ tree_ rhs
    ++ [ {| lhs := fill_node_index (root_ lhs); op := op;
            rhs := fill_node_index (lsize + root_ rhs) |} ] in
  let shifted :=
    imap (fun i n => if decide (lsize <= i < size - 1) then shift_node lsize n else n)
         copied in
  {| tree_ := shifted; root_ := size - 1; context_ := Some context;
     dtype_ := dtype; shape_ := shape |}.

(* operator-() and operator!(): [*context_] of a tree without context is
   undefined *)
Definition operator_minus (t : expression_tree) : result expression_tree :=
  match context_ t with
  | Some context =>
      Ok (expression_tree_lhs t invalid_node
            {| type_family := UNARY_TYPE_FAMILY; type := SUB_TYPE |}
            context (dtype_ t) (shape_ t))
  | None => Undefined
  end.

Definition operator_not (t : expression_tree) : result expression_tree :=
  match context_ t with
  | Some context =>
      Ok (expression_tree_lhs t invalid_node
            {| type_family := UNARY_TYPE_FAMILY; type := NEGATE_TYPE |}
            context INT_TYPE (shape_ t))
  | None => Undefined
  end.

(* for_idx_t::operator=(expression_tree const & r) *)
Definition for_idx_assign (index : for_idx_t) (r : expression_tree)
  : result expression_tree :=
  match context_ r with
  | Some context =>
      Ok (expression_tree_rhs (a_for_idx index) r
            {| type_family := BINARY_TYPE_FAMILY; type := ASSIGN_TYPE |}
            context (dtype_ r) (shape_ r))
  | None => Undefined
  end.

(* lhs_most(array, init): the while loop runs at most [fuel] times; None
   when it has not stopped by then.  [array[i]] out of range is undefined. *)
Fixpoint lhs_most (fuel : nat) (array : list node) (current : node)
  : option (result node) :=
  match lhs current with
  | COMPOSITE_OPERATOR_TYPE node_index =>
      match fuel with
      | O => None
      | S fuel' =>
          match array !! node_index with
          | Some next => lhs_most fuel' array next
          | None => Some Undefined
          end
      end
  | _ => Some (Ok current)
  end.

(* lhs_most(array, root) *)
Definition lhs_most_root (fuel : nat) (array : list node) (root : nat)
  : option (result node) :=
  match array !! root with
  | Some init => lhs_most fuel array init
  | None => Some Undefined
  end.

(** *** The expression that a flattened tree stands for *)

Inductive expr :=
| E_leaf (x : tree_node)
| E_op (l : expr) (o : op_element) (r : expr).

Fixpoint expression_at (fuel : nat) (array : list node) (i : nat) : option expr :=
  match fuel with
  | O => None
  | S fuel' =>
      n ← array !! i;
      l ← match lhs n with
          | COMPOSITE_OPERATOR_TYPE j => expression_at fuel' array j
          | x => Some (E_leaf x)
          end;
      r ← match rhs n with
          | COMPOSITE_OPERATOR_TYPE j => expression_at fuel' array j
          | x => Some (E_leaf x)
          end;
      Some (E_op l (op n) r)
  end.

Definition expression (t : expression_tree) : option expr :=
  expression_at (length (tree_ t)) (tree_ t) (root_ t).

Fixpoint leftmost (e : expr) : expr :=
  match e with
  | E_op (E_op _ _ _ as l) _ _ => leftmost l
  | _ => e
  end.

Definition is_composite (x : tree_node) : bool :=
  match x with COMPOSITE_OPERATOR_TYPE _ => true | _ => false end.

(* every operator node refers to nodes stored before it, and the root is the
   last node *)
Definition below (i : nat) (x : tree_node) : bool :=
  match x with
  | COMPOSITE_OPERATOR_TYPE j => j <? i
  | _ => true
  end.

Definition ordered (array : list node) : bool :=
  forallb id (imap (fun i n => below i (lhs n) && below i (rhs n)) array).

Definition well_formed (t : expression_tree) : bool :=
  negb (length (tree_ t) =? 0) && (root_ t =? length (tree_ t) - 1)
  && ordered (tree_ t).

(* [ordered], index by index *)
Definition ordered_at (array : list node) : Prop :=
  forall i n, array !! i = Some n -> below i (lhs n) = true /\ below i (rhs n) = true.

(* the expression of a child of a node *)
Definition child_expression (fuel : nat) (array : list node) (x : tree_node)
  : option expr :=
  match x with
  | COMPOSITE_OPERATOR_TYPE j => expression_at fuel array j
  | x => Some (E_leaf x)
  end.

End Expression.

(* stand-ins for the header's types, for worked examples *)
#[export] Instance example_header : header :=
  {| numeric_type := nat; INVALID_NUMERIC_TYPE := 0; INT_TYPE := 1;
     for_idx_t := nat; array_base := string; array_dtype := fun _ => 2;
     values_holder := Z; value_scalar := Z; scalar_dtype := fun _ => 1;
     scalar_values := fun v => v;
     operation_type_family := bool; UNARY_TYPE_FAMILY := false;
     BINARY_TYPE_FAMILY := true;
     operation_type := string; SUB_TYPE := "sub"; NEGATE_TYPE := "negate";
     ASSIGN_TYPE := "assign";
     driver_Context := unit; shape_t := list nat; shape_1 := [1] |}.

Definition example_op (name : string) : op_element (H := example_header) :=
  {| type_family := true; type := name |}.

Definition example_scalar : operand (H := example_header) := a_value_scalar 2%Z.

(* x + y, z * 3 and (x + y) - (z * 3) over arrays of shape [4] *)
Definition example_sum : expression_tree (H := example_header) :=
  expression_tree_leaves (an_array "x") (an_array "y") (example_op "add") tt 2 [4].

Definition example_product : expression_tree (H := example_header) :=
  expression_tree_leaves (an_array "z") (a_value_scalar 3%Z) (example_op "mult") tt 2 [4].

Definition example_difference : expression_tree (H := example_header) :=
  expression_tree_both example_sum example_product (example_op "sub") tt 2 [4].

End isaac.

(** ** Environments for worked examples *)

Module Examples.

Definition two_columns_env (x : string) : option rval :=
  if decide (x = "row") then Some (RBits 32 5)
  else if decide (x = "col1") then Some (RBits 32 12)
  else if decide (x = "col2") then Some (RBits 32 4) else None.

(* two index values, i = 3 and j = 5 *)
Definition index_env (x : string) : option rval :=
  if decide (x = "i") then Some (RBits 32 3)
  else if decide (x = "j") then Some (RBits 32 5) else None.

End Examples.

(** * Properties *)

Module WrapFacts.

Lemma wrap_small w z : 0 <= z < 2 ^ w -> wrap w z = z.
Proof. intros H. unfold wrap. apply Z.mod_small; exact H. Qed.

Lemma signed_small w z : 0 < w -> 0 <= z < 2 ^ (w - 1) -> signed w z = z.
Proof.
  intros Hw H. unfold signed.
  assert (2 ^ w = 2 * 2 ^ (w - 1)) as E.
  { rewrite <- Z.pow_succ_r by lia. f_equal. lia. }
  rewrite wrap_small by lia.
  destruct (Z.ltb_spec z (2 ^ (w - 1))); lia.
Qed.

Lemma wrap_range w z : 0 <= w -> 0 <= wrap w z < 2 ^ w.
Proof. intros Hw. unfold wrap. apply Z.mod_pos_bound. apply Z.pow_pos_nonneg; lia. Qed.

End WrapFacts.

Module CastFacts.
Import Cast.

Lemma cvt_zero_spec v :
  cvt_zero v = if is_constant_zero_fp v then Ok (getInt8 0) else Throw "unsupported cast".
Proof. destruct v; simpl; try reflexivity. Qed.

Lemma fp32x4_to_fp8x4_spec in0 in1 in2 in3 :
  fp32x4_to_fp8x4 in0 in1 in2 in3 =
  if is_constant_zero_fp in0 && is_constant_zero_fp in1
     && is_constant_zero_fp in2 && is_constant_zero_fp in3
  then Ok (getInt8 0, getInt8 0, getInt8 0, getInt8 0)
  else Throw "unsupported cast".
Proof.
  unfold fp32x4_to_fp8x4. rewrite !cvt_zero_spec.
  destruct (is_constant_zero_fp in0), (is_constant_zero_fp in1),
    (is_constant_zero_fp in2), (is_constant_zero_fp in3); reflexivity.
Qed.








Lemma cast_loop_fp32_operands iters : forall i x_size op_vals res,
  cast_loop ir.FP32Ty ir.FP8Ty iters i x_size op_vals = Ok res ->
  forall j, (i <= j < i + 4 * iters)%nat ->
  exists v, op_vals !! j = Some v /\ is_constant_zero_fp v = true.
Proof.
  induction iters as [|n IH]; intros i x_size op_vals res; simpl; [lia|].
  destruct (decide _); [|discriminate].
  destruct (op_vals !! i) as [a|] eqn:Ea; [|discriminate].
  destruct (op_vals !! (i + 1)%nat) as [b|] eqn:Eb; [|discriminate].
  destruct (op_vals !! (i + 2)%nat) as [c|] eqn:Ec; [|discriminate].
  destruct (op_vals !! (i + 3)%nat) as [d|] eqn:Ed; [|discriminate].
  unfold cvt. cbn [ir.is_fp32_ty ir.is_fp8_ty andb].
  rewrite fp32x4_to_fp8x4_spec.
  destruct (is_constant_zero_fp a) eqn:Za; [|discriminate].
  destruct (is_constant_zero_fp b) eqn:Zb; [|discriminate].
  destruct (is_constant_zero_fp c) eqn:Zc; [|discriminate].
  destruct (is_constant_zero_fp d) eqn:Zd; [|discriminate].
  cbn [andb mbind result_bind].
  destruct (cast_loop ir.FP32Ty ir.FP8Ty n (i + 4) x_size op_vals) eqn:E;
    try discriminate.
  intros _ j Hj.
  destruct (decide (j = i)) as [->|]; [eauto|].
  destruct (decide (j = i + 1)%nat) as [->|]; [eauto|].
  destruct (decide (j = i + 2)%nat) as [->|]; [eauto|].
  destruct (decide (j = i + 3)%nat) as [->|]; [eauto|].
  eapply IH; [exact E|lia].
Qed.

End CastFacts.

Import Cast CastFacts.

(** C10: the packed 32-bit-float to 8-bit conversion accepts a group of 4
    operands only when each one is a floating-point constant equal to zero,
    and then yields four 8-bit zeros; with any other operand it throws
    "unsupported cast".  Hence a cast from the 32-bit to the 8-bit format that
    is lowered without error had only constant-zero operands. *)
Theorem fp32x4_to_fp8x4_only_constant_zero (in0 in1 in2 in3 : Value) :
  let all_zero := is_constant_zero_fp in0 && is_constant_zero_fp in1
                  && is_constant_zero_fp in2 && is_constant_zero_fp in3 in
  (all_zero = false -> fp32x4_to_fp8x4 in0 in1 in2 in3 = Throw "unsupported cast")
  /\ (all_zero = true ->
      fp32x4_to_fp8x4 in0 in1 in2 in3 = Ok (getInt8 0, getInt8 0, getInt8 0, getInt8 0))
  /\ (forall contiguous x_size op_vals res,
        visit_cast_inst_fp8 ir.FP32Ty ir.FP8Ty contiguous x_size op_vals = Ok res ->
        forall j, (j < x_size)%nat ->
        exists v, op_vals !! j = Some v /\ is_constant_zero_fp v = true).
Proof.
  cbv zeta. rewrite fp32x4_to_fp8x4_spec. repeat split.
  - intros ->. reflexivity.
  - intros ->. reflexivity.
  - intros contiguous x_size op_vals res. unfold visit_cast_inst_fp8.
    destruct (negb _); [discriminate|].
    intros H j Hj. eapply cast_loop_fp32_operands; [exact H|].
    pose proof (Nat.div_mod_eq (x_size + 3) 4) as E.
    pose proof (Nat.mod_upper_bound (x_size + 3) 4). lia.
Qed.

Lemma fp32x4_to_fp8x4_only_constant_zero_witness :
  fp32x4_to_fp8x4 (ConstantFP FloatTy 0) (Argument "x") (ConstantFP FloatTy 0)
    (ConstantFP FloatTy 0) = Throw "unsupported cast"
  /\ fp32x4_to_fp8x4 (ConstantFP FloatTy 0) (ConstantFP FloatTy 0x80000000)
       (ConstantFP FloatTy 0) (ConstantFP FloatTy 0)
     = Ok (getInt8 0, getInt8 0, getInt8 0, getInt8 0).
Proof.
  split.
  - apply (fp32x4_to_fp8x4_only_constant_zero
             (ConstantFP FloatTy 0) (Argument "x") (ConstantFP FloatTy 0)
             (ConstantFP FloatTy 0)). reflexivity.
  - apply (fp32x4_to_fp8x4_only_constant_zero
             (ConstantFP FloatTy 0) (ConstantFP FloatTy 0x80000000)
             (ConstantFP FloatTy 0) (ConstantFP FloatTy 0)). reflexivity.
Defined.

(** C5: a group of 4 operands that are each the 32-bit float constant zero is
    converted by fp32x4_to_fp8x4 to four 8-bit values on which the code
    emitted by fp8x4_to_fp16x4 evaluates to the 16-bit pattern 0 and the code
    emitted by fp8x4_to_fp32x4 to the 32-bit pattern 0, at each of the 4
    positions. *)
Theorem fp8_zero_round_trip (b0 b1 b2 b3 : Z) (env : string -> option rval) :
  convertToFloat_is_zero b0 = true -> convertToFloat_is_zero b1 = true ->
  convertToFloat_is_zero b2 = true -> convertToFloat_is_zero b3 = true ->
  exists c0 c1 c2 c3,
    fp32x4_to_fp8x4 (ConstantFP FloatTy b0) (ConstantFP FloatTy b1)
                    (ConstantFP FloatTy b2) (ConstantFP FloatTy b3)
    = Ok (c0, c1, c2, c3)
    /\ (let '(h0, h1, h2, h3) := fp8x4_to_fp16x4 c0 c1 c2 c3 in
        map (eval env) [h0; h1; h2; h3] = repeat (Some (RBits 16 0)) 4)
    /\ (let '(f0, f1, f2, f3) := fp8x4_to_fp32x4 c0 c1 c2 c3 in
        map (eval env) [f0; f1; f2; f3] = repeat (Some (RBits 32 0)) 4).
Proof.
  intros H0 H1 H2 H3.
  exists (getInt8 0), (getInt8 0), (getInt8 0), (getInt8 0).
  split.
  - rewrite fp32x4_to_fp8x4_spec. simpl. rewrite H0, H1, H2, H3. reflexivity.
  - split; vm_compute; reflexivity.
Qed.

Lemma fp8_zero_round_trip_witness :
  exists c0 c1 c2 c3,
    fp32x4_to_fp8x4 (ConstantFP FloatTy 0) (ConstantFP FloatTy 0x80000000)
                    (ConstantFP FloatTy 0) (ConstantFP FloatTy 0)
    = Ok (c0, c1, c2, c3)
    /\ (let '(h0, h1, h2, h3) := fp8x4_to_fp16x4 c0 c1 c2 c3 in
        map (eval (fun _ => None)) [h0; h1; h2; h3] = repeat (Some (RBits 16 0)) 4)
    /\ (let '(f0, f1, f2, f3) := fp8x4_to_fp32x4 c0 c1 c2 c3 in
        map (eval (fun _ => None)) [f0; f1; f2; f3] = repeat (Some (RBits 32 0)) 4).
Proof.
  apply (fp8_zero_round_trip 0 0x80000000 0 0 (fun _ => None)); reflexivity.
Defined.




Module LoadFacts.
Import Load WrapFacts.

Lemma to_int_small z : 0 <= z < 2 ^ 31 -> to_int z = z.
Proof. intros H. unfold to_int. apply signed_small; [lia|exact H]. Qed.

Lemma size_t_mul_small a b : 0 <= a * b < 2 ^ 31 -> size_t_mul a b = a * b.
Proof. intros H. unfold size_t_mul. apply wrap_small. lia. Qed.

Lemma word_split_bytes prim_bits vec :
  0 < prim_bits -> prim_bits mod 8 = 0 -> 0 < vec -> prim_bits * vec < 2 ^ 31 ->
  word_split prim_bits vec
  = Ok {| width := Z.min (Z.max 32 prim_bits) (prim_bits * vec);
          n_words := Z.max 1 (prim_bits * vec
                              / Z.min (Z.max 32 prim_bits) (prim_bits * vec)) |}.
Proof.
  intros Hb H8 Hv Hlt. unfold word_split.
  assert (prim_bits / 8 * 8 = prim_bits) as E.
  { pose proof (Z.div_mod prim_bits 8). lia. }
  assert (prim_bits <= prim_bits * vec) by nia.
  rewrite (size_t_mul_small (prim_bits / 8) 8) by lia. rewrite E.
  rewrite (size_t_mul_small prim_bits vec) by lia.
  rewrite !to_int_small by lia.
  rewrite (Z.min_comm (prim_bits * vec)).
  destruct (Z.eqb_spec (Z.min (Z.max 32 prim_bits) (prim_bits * vec)) 0) as [E0|E0];
    [lia|].
  rewrite Z.quot_div_nonneg by lia. reflexivity.
Qed.

(* when no word of the fallback folds to a constant, every word is passed
   as an extra operand, in order, and its move names that operand *)
Lemma other_words_no_fold ty w nbits fv iis : forall vs ss os,
  Forall2 (fun ii v => packed_word ty w nbits fv ii = Ok v /\ is_ConstantInt v = None)
          iis vs ->
  other_words ty w nbits fv iis (ss, os)
  = Ok (ss ++ map (fun ii => mov_not_pred (n_words w) (width w) (Z.of_nat ii)
                               (SrcOperand (n_words w + 2 + Z.of_nat ii))) iis,
        os ++ vs).
Proof.
  induction iis as [|ii iis IH]; intros vs ss os HF.
  - inversion HF; subst. simpl. rewrite !app_nil_r. reflexivity.
  - inversion HF as [|? v ? vs' [Hp Hc] HF']; subst.
    cbn [other_words]. unfold other_word at 1. rewrite Hp. cbn [mbind result_bind].
    rewrite Hc. cbn [mbind result_bind fst snd].
    rewrite (IH vs' _ _ HF'). rewrite <- !app_assoc. reflexivity.
Qed.

(* when every word of the fallback folds to a constant, every move carries
   an immediate and no extra operand is passed *)
Lemma other_words_all_fold ty w nbits fv iis : forall cs ss os,
  Forall2 (fun ii c => exists v, packed_word ty w nbits fv ii = Ok v
                                 /\ is_ConstantInt v = Some c) iis cs ->
  other_words ty w nbits fv iis (ss, os)
  = Ok (ss ++ map (fun '(ii, c) => mov_not_pred (n_words w) (width w) (Z.of_nat ii)
                                     (SrcImm c)) (zip iis cs),
        os).
Proof.
  induction iis as [|ii iis IH]; intros cs ss os HF.
  - inversion HF; subst. simpl. rewrite app_nil_r. reflexivity.
  - inversion HF as [|? c ? cs' (v & Hp & Hc) HF']; subst.
    cbn [other_words]. unfold other_word at 1. rewrite Hp. cbn [mbind result_bind].
    rewrite Hc. cbn [mbind result_bind fst snd].
    rewrite (IH cs' _ _ HF'). cbn [zip zip_with map]. rewrite <- !app_assoc. reflexivity.
Qed.

(* the operand a move names, when no word folds: the fallback of its word *)
Lemma read_src_no_fold N pred ptr (vals : list rval) (ii : nat) b width_ :
  0 <= N -> vals !! ii = Some (RBits width_ b) ->
  read_src N (pred :: ptr :: vals) (SrcOperand (N + 2 + Z.of_nat ii)) = Some b.
Proof.
  intros HN Hv. unfold read_src.
  destruct (Z.ltb_spec (N + 2 + Z.of_nat ii) N); [lia|].
  replace (Z.to_nat (N + 2 + Z.of_nat ii - N)) with (S (S ii)) by lia.
  change ((pred :: ptr :: vals) !! S (S ii)) with (vals !! ii).
  rewrite Hv. reflexivity.
Qed.

End LoadFacts.

Import Load LoadFacts.




(* With a fallback that is the constant zero at every index, both predicated
   moves carry the immediate 0 and no extra operand is passed; with a false
   predicate both words are 0. *)
Example emit_load_zero_fallback :
  exists call,
    emit_load FloatTy {| width := 32; n_words := 2 |} 32 0
      (Argument "pred") (Argument "ptr") true
      [ConstantFP FloatTy 0; ConstantFP FloatTy 0] = Ok call
    /\ stmts call = [ ld_global 2 2 32 3 0;
                      mov_not_pred 2 32 0 (SrcImm 0);
                      mov_not_pred 2 32 1 (SrcImm 0) ]
    /\ args call = [Argument "pred"; Argument "ptr"]
    /\ run_call (fun _ => Some (RBits 32 7)) 2 false [100; 200] call
       = Some [Some 0; Some 0].
Proof. eexists. repeat split. Qed.

(* With a fallback known only at run time at every index, each word's value
   is passed as an extra operand, numbered as its predicated move names it;
   with a false predicate the words are the fallback, with a true predicate
   the loaded words. *)
Example emit_load_runtime_fallback :
  exists call,
    emit_load FloatTy {| width := 32; n_words := 2 |} 32 0
      (Argument "pred") (Argument "ptr") true
      [Argument "y0"; Argument "y1"] = Ok call
    /\ stmts call = [ ld_global 2 2 32 3 0;
                      mov_not_pred 2 32 0 (SrcOperand 4);
                      mov_not_pred 2 32 1 (SrcOperand 5) ]
    /\ length (args call) = 4%nat
    /\ run_call (fun x => if decide (x = "y0") then Some (RBits 32 7)
                          else Some (RBits 32 9)) 2 false [100; 200] call
       = Some [Some 7; Some 9]
    /\ run_call (fun x => if decide (x = "y0") then Some (RBits 32 7)
                          else Some (RBits 32 9)) 2 true [100; 200] call
       = Some [Some 100; Some 200].
Proof. eexists. repeat split. Qed.

(** C7: a masked load of two 32-bit words whose fallback is the constant zero
    for the first word and a run-time value for the second.  The first word's
    fallback is folded into the immediate of its predicated move; the second
    word's fallback is passed as the only extra operand, which is [$4], but its
    predicated move reads [$5]: the fragment names an operand that was not
    passed, so with a false predicate no fallback is substituted. *)
Theorem emit_load_mixed_fallback :
  let w := {| width := 32; n_words := 2 |} in
  let y := BitCast (InsertElement (UndefValue (VectorTy FloatTy 1)) (Argument "y") 0)
                   (IntegerTy 32) in
  let call := {| stmts := [ ld_global 2 2 32 3 0;
                            mov_not_pred 2 32 0 (SrcImm 0);
                            mov_not_pred 2 32 1 (SrcOperand 5) ];
                 args := [Argument "pred"; Argument "ptr"; y] |} in
  emit_load FloatTy w 32 0 (Argument "pred") (Argument "ptr") true
            [ConstantFP FloatTy 0; Argument "y"] = Ok call
  /\ forall env mem, run_call env 2 false mem call = None.
Proof.
  cbv zeta. split; [reflexivity|].
  intros env mem. unfold run_call. cbn [args stmts].
  destruct (mapM (eval env) _) as [arg_vals|] eqn:E; [|reflexivity].
  apply length_mapM in E. cbn [length] in E.
  destruct arg_vals as [|a0 [|a1 [|a2 [|a3 rest]]]]; try discriminate E.
  reflexivity.
Qed.

Module SwizzleFacts.
Import Swizzle WrapFacts.

Lemma eval_i32 env v : eval env (i32 v) = Some (RBits 32 (wrap 32 v)).
Proof. reflexivity. Qed.

Lemma eval_binary env op l r x y z :
  eval env l = Some (RBits 32 x) -> eval env r = Some (RBits 32 y) ->
  eval_binop op 32 x y = Some z ->
  eval env (BinaryOperator op l r) = Some (RBits 32 z).
Proof. intros Hl Hr Hz. cbn [eval]. rewrite Hl, Hr. simpl. rewrite Hz. reflexivity. Qed.

Lemma wrap_add_l w a b : wrap w (wrap w a + b) = wrap w (a + b).
Proof. unfold wrap. apply Zplus_mod_idemp_l. Qed.

Lemma wrap_add_r w a b : wrap w (a + wrap w b) = wrap w (a + b).
Proof. unfold wrap. apply Zplus_mod_idemp_r. Qed.

Lemma wrap_mul_l w a b : wrap w (wrap w a * b) = wrap w (a * b).
Proof. unfold wrap. apply Zmult_mod_idemp_l. Qed.

Lemma wrap_mul_r w a b : wrap w (a * wrap w b) = wrap w (a * b).
Proof. unfold wrap. apply Zmult_mod_idemp_r. Qed.

Section Builder.
Variables add mul udiv urem xor_ : Value -> Value -> Value.
Variable env : string -> option rval.
Hypothesis add_sem : forall x y, eval env (add x y) = eval env (BinaryOperator Add x y).
Hypothesis mul_sem : forall x y, eval env (mul x y) = eval env (BinaryOperator Mul x y).
Hypothesis udiv_sem : forall x y, eval env (udiv x y) = eval env (BinaryOperator UDiv x y).
Hypothesis urem_sem : forall x y, eval env (urem x y) = eval env (BinaryOperator URem x y).
Hypothesis xor_sem : forall x y, eval env (xor_ x y) = eval env (BinaryOperator Xor x y).

Lemma copy_to_shared_off_eval t idx o0 o1 order_rest shapes key_second
      row col shape0 r c :
  idx !! o1 = Some row -> idx !! o0 = Some col -> shapes !! o0 = Some shape0 ->
  eval env row = Some (RBits 32 r) -> eval env col = Some (RBits 32 c) ->
  0 <= r < 2 ^ 32 -> 0 <= c ->
  0 <= key_second * out_vec t -> c + key_second * out_vec t < 2 ^ 32 ->
  0 < per_phase t < 2 ^ 32 -> 0 < max_phase t < 2 ^ 32 ->
  0 < min_vec t < 2 ^ 32 -> 0 < s t < 2 ^ 32 ->
  exists off,
    copy_to_shared_off add mul udiv urem xor_ t idx (o0 :: o1 :: order_rest)
                       shapes key_second = Ok off
    /\ eval env off
       = Some (RBits 32 (wrap 32 (spec_offset r c shape0 key_second t))).
Proof.
  intros Hrow Hcol Hsh Er Ec Hr Hc Hk Hck Hpp Hmp Hmv Hs.
  unfold copy_to_shared_off. cbn [lookup list_lookup].
  rewrite Hrow, Hcol, Hsh. eexists; split; [reflexivity|].
  rewrite add_sem.
  set (phase := spec_phase r (per_phase t) (max_phase t)).
  set (group := (c + key_second * out_vec t) / min_vec t).
  assert (eval env (urem (udiv row (i32 (per_phase t))) (i32 (max_phase t)))
          = Some (RBits 32 phase)) as Ephase.
  { rewrite urem_sem. eapply eval_binary; [|apply eval_i32|].
    - rewrite udiv_sem. eapply eval_binary; [exact Er|apply eval_i32|].
      simpl. rewrite wrap_small by lia.
      destruct (Z.eqb_spec (per_phase t) 0); [lia|reflexivity].
    - simpl. rewrite wrap_small by lia.
      destruct (Z.eqb_spec (max_phase t) 0); [lia|reflexivity]. }
  assert (eval env (udiv (add col (i32 (key_second * out_vec t))) (i32 (min_vec t)))
          = Some (RBits 32 group)) as Egroup.
  { rewrite udiv_sem. eapply eval_binary; [|apply eval_i32|].
    - rewrite add_sem. eapply eval_binary; [exact Ec|apply eval_i32|reflexivity].
    - simpl. rewrite (wrap_small 32 (min_vec t)) by lia.
      destruct (Z.eqb_spec (min_vec t) 0); [lia|].
      rewrite wrap_add_r, (wrap_small 32 (c + _)) by lia. reflexivity. }
  eapply eval_binary.
  - rewrite mul_sem. eapply eval_binary; [|apply eval_i32|reflexivity].
    rewrite add_sem. eapply eval_binary.
    + rewrite mul_sem. eapply eval_binary; [|apply eval_i32|reflexivity].
      rewrite xor_sem. eapply eval_binary; [|exact Ephase|reflexivity].
      rewrite udiv_sem. eapply eval_binary; [exact Egroup|apply eval_i32|].
      simpl. rewrite wrap_small by lia.
      destruct (Z.eqb_spec (s t) 0); [lia|reflexivity].
    + rewrite urem_sem. eapply eval_binary; [exact Egroup|apply eval_i32|].
      simpl. rewrite wrap_small by lia.
      destruct (Z.eqb_spec (s t) 0); [lia|reflexivity].
    + reflexivity.
  - rewrite mul_sem. eapply eval_binary; [exact Er|apply eval_i32|reflexivity].
  - simpl. f_equal. unfold spec_offset, spec_permute.
    fold phase. fold group.
    rewrite (wrap_small 32 (s t)), (wrap_small 32 (min_vec t)) by lia.
    rewrite (wrap_add_l 32 (Z.lxor (group / s t) phase * s t)).
    rewrite wrap_add_l, wrap_add_r.
    rewrite <- wrap_add_l, wrap_mul_l, wrap_add_l.
    rewrite <- wrap_add_r, wrap_mul_r, wrap_add_r. reflexivity.
Qed.

End Builder.

End SwizzleFacts.

Import Swizzle SwizzleFacts.

(** C8: the write path (visit_copy_to_shared_inst) and the asynchronous load
    path (visit_masked_load_async_inst) derive the same tile parameters from
    the same layouts and build the same swizzled offset from the same inputs,
    whatever the builder functions are.  With builder functions that mean
    32-bit add, multiply, unsigned divide, unsigned remainder and xor, that
    offset evaluates to the specification's formula: phase = (row / per_phase)
    mod max_phase, group = (col + key * out_vec) / min_vec, permuted group =
    ((group / s) xor phase) * s + group mod s, offset = permuted group *
    min_vec + row * shape, modulo 2^32. *)
Theorem swizzle_offset_write_read_agree
        (add mul udiv urem xor_ : Value -> Value -> Value)
        (env : string -> option rval)
        (out_order in_order : list nat) (nts0 swz_vec swz_per_phase swz_max_phase : Z)
        (t : tile) (idx : list Value) (shapes : list Z) (key_second : Z) :
  copy_to_shared_tile out_order in_order nts0 swz_vec swz_per_phase swz_max_phase
  = masked_load_async_tile out_order in_order nts0 swz_vec swz_per_phase swz_max_phase
  /\ copy_to_shared_off add mul udiv urem xor_ t idx in_order shapes key_second
     = masked_load_async_off add mul udiv urem xor_ t idx in_order shapes key_second
  /\ ((forall x y, eval env (add x y) = eval env (BinaryOperator Add x y)) ->
      (forall x y, eval env (mul x y) = eval env (BinaryOperator Mul x y)) ->
      (forall x y, eval env (udiv x y) = eval env (BinaryOperator UDiv x y)) ->
      (forall x y, eval env (urem x y) = eval env (BinaryOperator URem x y)) ->
      (forall x y, eval env (xor_ x y) = eval env (BinaryOperator Xor x y)) ->
      forall o0 o1 order_rest row col shape0 r c,
        in_order = o0 :: o1 :: order_rest ->
        idx !! o1 = Some row -> idx !! o0 = Some col -> shapes !! o0 = Some shape0 ->
        eval env row = Some (RBits 32 r) -> eval env col = Some (RBits 32 c) ->
        0 <= r < 2 ^ 32 -> 0 <= c ->
        0 <= key_second * out_vec t -> c + key_second * out_vec t < 2 ^ 32 ->
        0 < per_phase t < 2 ^ 32 -> 0 < max_phase t < 2 ^ 32 ->
        0 < min_vec t < 2 ^ 32 -> 0 < s t < 2 ^ 32 ->
        exists off,
          copy_to_shared_off add mul udiv urem xor_ t idx in_order shapes key_second
          = Ok off
          /\ masked_load_async_off add mul udiv urem xor_ t idx in_order shapes key_second
             = Ok off
          /\ eval env off
             = Some (RBits 32 (wrap 32 (spec_offset r c shape0 key_second t)))).
Proof.
  split; [reflexivity|]. split; [reflexivity|].
  intros Ha Hm Hd Hr Hx o0 o1 order_rest row col shape0 r c -> Hrow Hcol Hsh
         Er Ec Hr0 Hc0 Hk Hck Hpp Hmp Hmv Hs.
  destruct (copy_to_shared_off_eval add mul udiv urem xor_ env Ha Hm Hd Hr Hx
              t idx o0 o1 order_rest shapes key_second row col shape0 r c)
    as (off & Eoff & Eval); auto.
  exists off. split; [exact Eoff|]. split; [exact Eoff|exact Eval].
Qed.

Lemma swizzle_offset_write_read_agree_witness :
  let t := {| in_vec := 4; out_vec := 8; min_vec := 4; s := 2;
              per_phase := 1; max_phase := 4 |} in
  let idx := [Argument "row"; Argument "col"] in
  exists off,
    copy_to_shared_off (BinaryOperator Add) (BinaryOperator Mul) (BinaryOperator UDiv)
      (BinaryOperator URem) (BinaryOperator Xor) t idx [1%nat; 0%nat] [64; 32] 0 = Ok off
    /\ masked_load_async_off (BinaryOperator Add) (BinaryOperator Mul)
         (BinaryOperator UDiv) (BinaryOperator URem) (BinaryOperator Xor)
         t idx [1%nat; 0%nat] [64; 32] 0 = Ok off
    /\ eval example_env off = Some (RBits 32 164).
Proof.
  cbv zeta.
  refine (proj2 (proj2 (swizzle_offset_write_read_agree
            (BinaryOperator Add) (BinaryOperator Mul) (BinaryOperator UDiv)
            (BinaryOperator URem) (BinaryOperator Xor) example_env
            [1%nat; 0%nat] [1%nat; 0%nat] 4 8 1 4
            {| in_vec := 4; out_vec := 8; min_vec := 4; s := 2;
               per_phase := 1; max_phase := 4 |}
            [Argument "row"; Argument "col"] [64; 32] 0))
          (fun _ _ => eq_refl) (fun _ _ => eq_refl) (fun _ _ => eq_refl)
          (fun _ _ => eq_refl) (fun _ _ => eq_refl)
          1%nat 0%nat [] (Argument "row") (Argument "col") 32 5 12
          eq_refl eq_refl eq_refl eq_refl eq_refl eq_refl _ _ _ _ _ _ _ _);
    cbn; lia.
Defined.

Module ReduceFacts.
Import Reduce.

Lemma reduce_within_thread_from acc do_acc vals :
  fold_left
    (fun (acc : option Value) val =>
       match acc with None => Some val | Some a => Some (do_acc a val) end)
    vals (Some acc)
  = Some (fold_left do_acc vals acc).
Proof.
  revert acc. induction vals as [|v vs IH]; intros acc; [reflexivity|].
  simpl. apply IH.
Qed.

(* the private fold seeds the accumulator with the first element and
   combines the others in materialization order *)
Lemma reduce_within_thread_fold do_acc v vals :
  reduce_within_thread do_acc (v :: vals) = Some (fold_left do_acc vals v).
Proof. unfold reduce_within_thread. simpl. apply reduce_within_thread_from. Qed.

Lemma neutral_add_sub ty :
  neutral ADD ty = ConstantInt_get_ty ty 0 /\ neutral SUB ty = ConstantInt_get_ty ty 0
  /\ neutral FADD ty = ConstantFP_get ty zero /\ neutral FSUB ty = ConstantFP_get ty zero
  /\ neutral FMAX ty = ConstantFP_get ty minus_INFINITY
  /\ neutral FMIN ty = ConstantFP_get ty INFINITY.
Proof. repeat split. Qed.

(* on 32-bit integers the neutral elements of MAX and MIN are the extremes *)
Lemma neutral_max_min_int32 :
  exists lo hi,
    neutral MAX (LLVM.IntegerTy 32) = Ok (ConstantInt 32 lo) /\ signed 32 lo = int_min 32
    /\ neutral MIN (LLVM.IntegerTy 32) = Ok (ConstantInt 32 hi) /\ signed 32 hi = int_max 32.
Proof. exists (2 ^ 31), (2 ^ 31 - 1). repeat split. Qed.

End ReduceFacts.

Import Reduce ReduceFacts.

(** C9: a reduction with operator MAX or MIN over 64-bit integers.  The
    neutral element is built from the 32-bit constants INT32_MIN and
    INT32_MAX whatever the type: for the 64-bit type it is -2^31 for MAX and
    2^31-1 for MIN, not the least and the greatest 64-bit integer. *)
Theorem neutral_max_min_int64 :
  exists lo hi,
    neutral MAX (LLVM.IntegerTy 64) = Ok (ConstantInt 64 lo)
    /\ signed 64 lo = INT32_MIN /\ signed 64 lo <> int_min 64
    /\ neutral MIN (LLVM.IntegerTy 64) = Ok (ConstantInt 64 hi)
    /\ signed 64 hi = INT32_MAX /\ signed 64 hi <> int_max 64.
Proof.
  exists (2 ^ 64 - 2 ^ 31), (2 ^ 31 - 1).
  repeat split; try reflexivity; vm_compute; discriminate.
Qed.

Module FinalizeFacts.
Import Finalize WrapFacts.

Lemma mod_succ a n :
  0 < n -> (a + 1) mod n = if a mod n =? n - 1 then 0 else a mod n + 1.
Proof.
  intros Hn. pose proof (Z.mod_pos_bound a n Hn) as Hb.
  pose proof (Z.div_mod a n ltac:(lia)) as Ha.
  destruct (Z.eqb_spec (a mod n) (n - 1)) as [E|E].
  - symmetry. apply Z.mod_unique with (a / n + 1); lia.
  - symmetry. apply Z.mod_unique with (a / n); lia.
Qed.

(* closed form of a stage index whose seed is a valid stage *)
Lemma smem_idx_closed_form num_stages init_stage k :
  0 < num_stages < 2 ^ 31 -> 0 <= init_stage < num_stages ->
  phi_value (finalize_smem_idx num_stages init_stage) k
  = (init_stage + Z.of_nat k) mod num_stages.
Proof.
  intros Hs Hi. unfold phi_value.
  induction k as [|k IH].
  - simpl. rewrite wrap_small by lia. rewrite Z.add_0_r, Z.mod_small; lia.
  - rewrite Nat.iter_succ, IH. cbn [latch finalize_smem_idx].
    pose proof (Z.mod_pos_bound (init_stage + Z.of_nat k) num_stages ltac:(lia)).
    rewrite (wrap_small 32 (num_stages - 1)) by lia.
    replace (init_stage + Z.of_nat (S k)) with (init_stage + Z.of_nat k + 1) by lia.
    rewrite mod_succ by lia.
    destruct (Z.eqb_spec ((init_stage + Z.of_nat k) mod num_stages) (num_stages - 1));
      [reflexivity|].
    apply wrap_small. lia.
Qed.

Lemma signed_wrap w y :
  0 < w -> - 2 ^ (w - 1) <= y < 2 ^ (w - 1) -> signed w (wrap w y) = y.
Proof.
  intros Hw Hy. unfold signed, wrap.
  assert (2 ^ w = 2 * 2 ^ (w - 1)) as E.
  { rewrite <- Z.pow_succ_r by lia. f_equal. lia. }
  assert (0 < 2 ^ (w - 1)) by (apply Z.pow_pos_nonneg; lia).
  rewrite Z.mod_mod by lia.
  destruct (Z.le_gt_cases 0 y).
  - rewrite Z.mod_small by lia. destruct (Z.ltb_spec y (2 ^ (w - 1))); lia.
  - replace (y mod 2 ^ w) with (y + 2 ^ w)
      by (apply Z.mod_unique with (-1); lia).
    destruct (Z.ltb_spec (y + 2 ^ w) (2 ^ (w - 1))); lia.
Qed.

Lemma wrap_opp_wrap w y : wrap w (- wrap w y) = wrap w (- y).
Proof.
  unfold wrap. destruct (Z.eq_dec (2 ^ w) 0) as [E|E].
  - rewrite E, !Z.mod_0_r. reflexivity.
  - rewrite <- (Z.sub_0_l (y mod 2 ^ w)), <- (Z.sub_0_l y).
    apply Zminus_mod_idemp_r.
Qed.

Lemma pow_minus_one_succ k : (-1) ^ Z.of_nat (S k) = - (-1) ^ Z.of_nat k.
Proof. rewrite Nat2Z.inj_succ, Z.pow_succ_r by lia. lia. Qed.

Lemma offset_after_wrap v k :
  0 <= v < 2 ^ 32 ->
  offset_after (constant v) k = wrap 32 ((-1) ^ Z.of_nat k * v).
Proof.
  intros Hv. unfold offset_after. induction k as [|k IH].
  - simpl. rewrite wrap_small; lia.
  - rewrite Nat.iter_succ, IH. cbn [take].
    rewrite wrap_opp_wrap, pow_minus_one_succ. f_equal. lia.
Qed.

Lemma pow_minus_one_cases k : (-1) ^ Z.of_nat k = 1 \/ (-1) ^ Z.of_nat k = -1.
Proof.
  induction k as [|k IH]; [left; reflexivity|].
  rewrite pow_minus_one_succ. lia.
Qed.

End FinalizeFacts.

Import WrapFacts Finalize FinalizeFacts.

(** C2, as stated, fails: with 2 stages the read index starts at 2, outside
    [0, stages-1], and moves away from it. *)
Lemma read_smem_idx_two_stages :
  phi_value (read_smem_idx 2) 0 = 2
  /\ phi_value (read_smem_idx 2) 1 = 3
  /\ ~ (0 <= phi_value (read_smem_idx 2) 0 <= 2 - 1).
Proof.
  split; [reflexivity|]. split; [reflexivity|].
  change (phi_value (read_smem_idx 2) 0) with 2. lia.
Qed.

(** C2 (amended): the read and write stage indices are seeded at 2 and at
    stages-1 and advanced by next = (idx == stages-1) ? 0 : idx+1.  With at
    least one stage every value of the write index lies in [0, stages-1], the
    write index is back at stages-1 after stages advances and not before.
    With at least 3 stages every value of the read index lies in
    [0, stages-1]. *)
Theorem smem_idx_cycle (num_stages : Z) :
  Finalize.init (read_smem_idx num_stages) = wrap 32 2
  /\ Finalize.init (write_smem_idx num_stages) = wrap 32 (num_stages - 1)
  /\ (forall idx,
        latch (read_smem_idx num_stages) idx = latch (write_smem_idx num_stages) idx
        /\ latch (write_smem_idx num_stages) idx
           = if idx =? wrap 32 (num_stages - 1) then wrap 32 0 else wrap 32 (idx + 1))
  /\ (1 <= num_stages < 2 ^ 31 ->
      (forall k, 0 <= phi_value (write_smem_idx num_stages) k <= num_stages - 1)
      /\ phi_value (write_smem_idx num_stages) (Z.to_nat num_stages) = num_stages - 1
      /\ (forall k, (0 < k < Z.to_nat num_stages)%nat ->
                    phi_value (write_smem_idx num_stages) k <> num_stages - 1))
  /\ (3 <= num_stages < 2 ^ 31 ->
      forall k, 0 <= phi_value (read_smem_idx num_stages) k <= num_stages - 1).
Proof.
  split; [reflexivity|]. split; [reflexivity|]. split; [intros idx; split; reflexivity|].
  split.
  - intros Hs. unfold write_smem_idx. repeat split.
    + rewrite smem_idx_closed_form by lia.
      pose proof (Z.mod_pos_bound (num_stages - 1 + Z.of_nat k) num_stages). lia.
    + rewrite smem_idx_closed_form by lia.
      pose proof (Z.mod_pos_bound (num_stages - 1 + Z.of_nat k) num_stages). lia.
    + rewrite smem_idx_closed_form by lia. rewrite Z2Nat.id by lia.
      symmetry. apply Z.mod_unique with 1; lia.
    + intros k Hk. rewrite smem_idx_closed_form by lia.
      replace ((num_stages - 1 + Z.of_nat k) mod num_stages) with (Z.of_nat k - 1);
        [lia|].
      apply Z.mod_unique with 1; lia.
  - intros Hs k. unfold read_smem_idx. rewrite smem_idx_closed_form by lia.
    pose proof (Z.mod_pos_bound (2 + Z.of_nat k) num_stages). lia.
Qed.

Lemma smem_idx_cycle_witness :
  phi_value (write_smem_idx 4) 4 = 3
  /\ (forall k, 0 <= phi_value (read_smem_idx 4) k <= 3).
Proof.
  split.
  - apply (proj1 (proj2 (proj1 (proj2 (proj2 (proj2 (smem_idx_cycle 4))))
                    ltac:(lia)))).
  - apply (proj2 (proj2 (proj2 (proj2 (smem_idx_cycle 4)))) ltac:(lia)).
Defined.

(** C3: for a double-buffered shared buffer the offset phi receives the
    per-slot stride, the buffer size in elements divided by 2, on every edge
    that does not come from the latch and the negation of its current value
    on the latch edge; after k loop iterations the offset, read as a signed
    32-bit number, is (-1)^k times the stride. *)
Theorem double_buffer_offset_parity (size prim_bits : Z) (incs : list incoming) (k : nat) :
  0 <= size < 2 ^ 32 -> 8 <= prim_bits < 2 ^ 32 ->
  let stride := size / (prim_bits / 8) / 2 in
  exists edges,
    offset_incomings size prim_bits incs = Ok edges
    /\ Forall2 (fun inc e => e = match inc with
                                 | from_latch => neg_offset
                                 | from_other => constant stride
                                 end) incs edges
    /\ signed 32 (offset_after (constant stride) k) = (-1) ^ Z.of_nat k * stride.
Proof.
  intros Hsize Hbits. cbv zeta.
  assert (1 <= prim_bits / 8) as Hnb.
  { apply Z.div_le_lower_bound; lia. }
  assert (prim_bits / 8 < 2 ^ 29) as Hnb'.
  { apply Z.div_lt_upper_bound; lia. }
  assert (size / (2 * (prim_bits / 8)) = size / (prim_bits / 8) / 2) as Ediv.
  { rewrite Z.div_div by lia. f_equal. lia. }
  assert (0 <= size / (prim_bits / 8) / 2 < 2 ^ 31) as Hstride.
  { split.
    - apply Z.div_pos; [apply Z.div_pos|]; lia.
    - apply Z.div_lt_upper_bound; [lia|].
      apply Z.le_lt_trans with size; [|lia].
      apply Z.div_le_upper_bound; [lia|]. nia. }
  exists (map (fun inc => match inc with
                          | from_latch => neg_offset
                          | from_other => constant (size / (prim_bits / 8) / 2)
                          end) incs).
  split; [|split].
  - unfold offset_incomings. induction incs as [|inc incs IH]; [reflexivity|].
    cbn [mapM map]. rewrite IH. destruct inc; [reflexivity|].
    rewrite (wrap_small 32 (2 * (prim_bits / 8))) by lia.
    destruct (Z.eqb_spec (2 * (prim_bits / 8)) 0); [lia|].
    rewrite Ediv, wrap_small by lia. reflexivity.
  - induction incs as [|inc incs IH]; constructor; auto.
  - rewrite offset_after_wrap by lia. apply signed_wrap; [lia|].
    destruct (pow_minus_one_cases k) as [-> | ->]; lia.
Qed.

Lemma double_buffer_offset_parity_witness :
  exists edges,
    offset_incomings 4096 16 [from_other; from_latch] = Ok edges
    /\ Forall2 (fun inc e => e = match inc with
                                 | from_latch => neg_offset
                                 | from_other => constant 1024
                                 end) [from_other; from_latch] edges
    /\ signed 32 (offset_after (constant 1024) 3) = (-1) ^ 3 * 1024.
Proof.
  apply (double_buffer_offset_parity 4096 16 [from_other; from_latch] 3); lia.
Defined.

Module IndexFacts.
Import Index.

Section Sort.
Variable comp : nat -> nat -> bool.




End Sort.

(* the sort, when the comparator compares keys *)
Section SortKey.
Variable comp : nat -> nat -> bool.
Variable key : nat -> Z.
Variable P : nat -> Prop.
Hypothesis comp_key : forall x y, P x -> P y -> comp x y = (key x <? key y).





End SortKey.









End IndexFacts.

Import Index IndexFacts.








Example init_idx_example :
  init_idx true false [4; 1] (fun d => d) {[ 0%nat := example_axis ]} example_layout
  = Ok ([ [Some (Argument "a"); Some (i32 0)]; [Some (Argument "b"); Some (i32 0)] ],
        Some [0%nat; 1%nat]).
Proof. reflexivity. Qed.


Module LifecycleFacts.
Import Finalize FinalizeFacts Lifecycle WrapFacts.

Lemma n_buffer_indices num_stages ps k :
  read_idx (n_buffer_at num_stages ps k) = phi_value (read_smem_idx num_stages) k
  /\ write_idx (n_buffer_at num_stages ps k) = phi_value (write_smem_idx num_stages) k.
Proof.
  unfold n_buffer_at, phi_value. induction k as [|k [IHr IHw]]; [split; reflexivity|].
  rewrite !Nat.iter_succ. cbn [n_buffer_latch read_idx write_idx].
  rewrite IHr, IHw. split; reflexivity.
Qed.

Lemma gep_stage ps i num_stages :
  0 < ps -> 0 <= i < num_stages -> num_stages * ps < 2 ^ 31 ->
  gep 0 (mul32 i (wrap 32 ps)) = i * ps.
Proof.
  intros Hps Hi Hlt. unfold gep, mul32.
  assert (0 <= i * ps < 2 ^ 31) by nia.
  assert (ps < 2 ^ 31) by nia.
  rewrite (wrap_small 32 ps) by lia. rewrite wrap_small by lia.
  rewrite signed_small by lia. lia.
Qed.

End LifecycleFacts.

Import Lifecycle LifecycleFacts.

(** X1: for an N-stage buffer with at least 3 stages, at the k-th loop
    iteration the current pointer addresses stage k mod stages, the next
    pointer stage (k+1) mod stages, and the pointer given to the latch value
    addresses stage (k-1) mod stages, which is neither of the two. *)
Theorem n_buffer_round_robin (num_stages ps : Z) (k : nat) :
  3 <= num_stages -> 0 < ps -> num_stages * ps < 2 ^ 31 ->
  let p := n_buffer_at num_stages ps k in
  shared_ptr p = (Z.of_nat k mod num_stages) * ps
  /\ shared_next_ptr p = ((Z.of_nat k + 1) mod num_stages) * ps
  /\ n_buffer_latch_ptr ps p = ((Z.of_nat k + num_stages - 1) mod num_stages) * ps
  /\ n_buffer_latch_ptr ps p <> shared_ptr p
  /\ n_buffer_latch_ptr ps p <> shared_next_ptr p.
Proof.
  intros Hs Hps Hlt. cbv zeta.
  assert (num_stages < 2 ^ 31) as Hs' by nia.
  assert (shared_ptr (n_buffer_at num_stages ps k) = (Z.of_nat k mod num_stages) * ps
          /\ shared_next_ptr (n_buffer_at num_stages ps k)
             = ((Z.of_nat k + 1) mod num_stages) * ps) as [Hc Hn].
  { induction k as [|k [IHc IHn]].
    - split; [reflexivity|]. cbn. unfold gep.
      rewrite wrap_small by nia. rewrite signed_small by nia.
      rewrite Z.mod_small by lia. lia.
    - unfold n_buffer_at in *. rewrite !Nat.iter_succ.
      cbn [n_buffer_latch shared_ptr shared_next_ptr]. split.
      + rewrite IHn. f_equal. f_equal. lia.
      + destruct (n_buffer_indices num_stages ps k) as [Er _].
        unfold n_buffer_at in Er. rewrite Er.
        unfold read_smem_idx. rewrite smem_idx_closed_form by lia.
        rewrite (gep_stage ps _ num_stages)
          by first [lia | apply Z.mod_pos_bound; lia].
        f_equal. f_equal. lia. }
  assert (n_buffer_latch_ptr ps (n_buffer_at num_stages ps k)
          = ((Z.of_nat k + num_stages - 1) mod num_stages) * ps) as Hw.
  { unfold n_buffer_latch_ptr.
    destruct (n_buffer_indices num_stages ps k) as [_ Ew]. rewrite Ew.
    unfold write_smem_idx. rewrite smem_idx_closed_form by lia.
    rewrite (gep_stage ps _ num_stages)
      by first [lia | apply Z.mod_pos_bound; lia].
    f_equal. f_equal. lia. }
  rewrite Hc, Hn, Hw. repeat split.
  - set (a := (Z.of_nat k + num_stages - 1) mod num_stages).
    assert (0 <= a < num_stages) by (apply Z.mod_pos_bound; lia).
    replace (Z.of_nat k mod num_stages) with ((Z.of_nat k + num_stages - 1 + 1) mod num_stages).
    + rewrite mod_succ by lia. fold a. destruct (Z.eqb_spec a (num_stages - 1)); nia.
    + replace (Z.of_nat k + num_stages - 1 + 1) with (Z.of_nat k + 1 * num_stages) by lia.
      apply Z.mod_add. lia.
  - set (a := (Z.of_nat k + num_stages - 1) mod num_stages).
    assert (0 <= a < num_stages) by (apply Z.mod_pos_bound; lia).
    replace ((Z.of_nat k + 1) mod num_stages)
      with ((Z.of_nat k + num_stages - 1 + 1 + 1) mod num_stages).
    + rewrite mod_succ by lia. rewrite (mod_succ (Z.of_nat k + num_stages - 1)) by lia.
      fold a.
      destruct (Z.eqb_spec a (num_stages - 1));
        [destruct (Z.eqb_spec 0 (num_stages - 1))
        |destruct (Z.eqb_spec (a + 1) (num_stages - 1))]; nia.
    + replace (Z.of_nat k + num_stages - 1 + 1 + 1)
        with (Z.of_nat k + 1 + 1 * num_stages) by lia.
      apply Z.mod_add. lia.
Qed.

Lemma n_buffer_round_robin_witness :
  let p := n_buffer_at 4 128 5 in
  shared_ptr p = 128 /\ shared_next_ptr p = 256 /\ n_buffer_latch_ptr 128 p = 0.
Proof.
  pose proof (n_buffer_round_robin 4 128 5 ltac:(lia) ltac:(lia) ltac:(lia)) as H.
  cbv zeta in H. destruct H as (Hc & Hn & Hw & _).
  exact (conj Hc (conj Hn Hw)).
Defined.

(** X2: for a double buffer whose per-slot stride fits a signed 32-bit
    integer, at the k-th loop iteration the current pointer is the first slot
    when k is even and the second slot when k is odd, and the next pointer is
    the other slot. *)
Theorem double_buffer_ping_pong (stride : Z) (k : nat) :
  0 <= stride < 2 ^ 31 ->
  let p := double_buffer_at (constant stride) k in
  db_ptr p = (Z.of_nat k mod 2) * stride
  /\ db_next_ptr p = ((Z.of_nat k + 1) mod 2) * stride.
Proof.
  intros Hs. cbv zeta.
  assert (forall k, db_off (double_buffer_at (constant stride) k)
                    = offset_after (constant stride) k) as Hoff.
  { intros n. induction n as [|n IH]; [reflexivity|].
    change (double_buffer_at (constant stride) (S n))
      with (double_buffer_latch (double_buffer_at (constant stride) n)).
    change (offset_after (constant stride) (S n))
      with (take neg_offset (offset_after (constant stride) n)).
    cbn [double_buffer_latch db_off]. rewrite IH. reflexivity. }
  assert (forall n, signed 32 (offset_after (constant stride) n)
                    = (-1) ^ Z.of_nat n * stride) as Hsig.
  { intros n. rewrite offset_after_wrap by lia. apply signed_wrap; [lia|].
    destruct (pow_minus_one_cases n) as [-> | ->]; lia. }
  assert (forall n, (-1) ^ Z.of_nat n = 1 - 2 * (Z.of_nat n mod 2)) as Hpow.
  { intros n. induction n as [|n IH]; [reflexivity|].
    rewrite pow_minus_one_succ, IH.
    replace (Z.of_nat (S n)) with (Z.of_nat n + 1) by lia.
    rewrite (mod_succ (Z.of_nat n) 2) by lia.
    pose proof (Z.mod_pos_bound (Z.of_nat n) 2 ltac:(lia)).
    destruct (Z.eqb_spec (Z.of_nat n mod 2) (2 - 1)); lia. }
  assert (db_ptr (double_buffer_at (constant stride) k) = (Z.of_nat k mod 2) * stride)
    as Hp.
  { induction k as [|k IH]; [reflexivity|].
    change (double_buffer_at (constant stride) (S k))
      with (double_buffer_latch (double_buffer_at (constant stride) k)).
    cbn [double_buffer_latch db_ptr]. unfold db_next_ptr, gep.
    rewrite Hoff, Hsig, Hpow, IH.
    replace (Z.of_nat (S k)) with (Z.of_nat k + 1) by lia.
    rewrite (mod_succ (Z.of_nat k) 2) by lia.
    pose proof (Z.mod_pos_bound (Z.of_nat k) 2 ltac:(lia)).
    destruct (Z.eqb_spec (Z.of_nat k mod 2) (2 - 1)); nia. }
  split; [exact Hp|].
  unfold db_next_ptr, gep. rewrite Hp, Hoff, Hsig, Hpow.
  rewrite (mod_succ (Z.of_nat k) 2) by lia.
  pose proof (Z.mod_pos_bound (Z.of_nat k) 2 ltac:(lia)).
  destruct (Z.eqb_spec (Z.of_nat k mod 2) (2 - 1)); nia.
Qed.

Lemma double_buffer_ping_pong_witness :
  db_ptr (double_buffer_at (constant 1024) 3) = 1024
  /\ db_next_ptr (double_buffer_at (constant 1024) 3) = 0.
Proof.
  pose proof (double_buffer_ping_pong 1024 3 ltac:(lia)) as H.
  cbv zeta in H. exact H.
Defined.

Module SwizzleInjective.
Import Swizzle.

Lemma spec_permute_div_mod g s p :
  0 <= g -> 0 < s -> 0 <= p ->
  spec_permute g s p / s = Z.lxor (g / s) p /\ spec_permute g s p mod s = g mod s.
Proof.
  intros Hg Hs Hp. unfold spec_permute.
  pose proof (Z.mod_pos_bound g s Hs).
  split.
  - symmetry. apply Z.div_unique with (g mod s); lia.
  - symmetry. apply Z.mod_unique with (Z.lxor (g / s) p); lia.
Qed.

Lemma spec_permute_nonneg g s p : 0 <= g -> 0 < s -> 0 <= p -> 0 <= spec_permute g s p.
Proof.
  intros Hg Hs Hp. unfold spec_permute.
  pose proof (Z.mod_pos_bound g s Hs).
  assert (0 <= g / s) by (apply Z.div_pos; lia).
  assert (0 <= Z.lxor (g / s) p) by (apply Z.lxor_nonneg; tauto).
  nia.
Qed.

(* permuting twice with the same phase gives the group back *)
Lemma spec_permute_involutive g s p :
  0 <= g -> 0 < s -> 0 <= p -> spec_permute (spec_permute g s p) s p = g.
Proof.
  intros Hg Hs Hp.
  destruct (spec_permute_div_mod g s p Hg Hs Hp) as [Hd Hm].
  unfold spec_permute at 1. rewrite Hd, Hm.
  rewrite Z.lxor_assoc, Z.lxor_nilpotent, Z.lxor_0_r.
  pose proof (Z.div_mod g s). lia.
Qed.

End SwizzleInjective.

Import SwizzleInjective.

(** X3: within one row of a swizzled shared buffer, two columns that lie in
    different vector groups are given different offsets by the write path, as
    long as the offsets fit 32 bits; the permutation of the group index by
    the phase never makes two groups collide. *)
Theorem swizzle_groups_do_not_collide
        (env : string -> option rval) (t : tile) (idx1 idx2 : list Value)
        (o0 o1 : nat) (order_rest : list nat) (shapes : list Z) (key_second : Z)
        (row col1 col2 : Value) (shape0 r c1 c2 : Z) (off1 off2 : Value) :
  idx1 !! o1 = Some row -> idx1 !! o0 = Some col1 ->
  idx2 !! o1 = Some row -> idx2 !! o0 = Some col2 ->
  shapes !! o0 = Some shape0 ->
  eval env row = Some (RBits 32 r) ->
  eval env col1 = Some (RBits 32 c1) -> eval env col2 = Some (RBits 32 c2) ->
  0 <= r < 2 ^ 32 -> 0 <= c1 -> 0 <= c2 -> 0 <= shape0 ->
  0 <= key_second * out_vec t ->
  0 < per_phase t < 2 ^ 32 -> 0 < max_phase t < 2 ^ 32 ->
  0 < min_vec t < 2 ^ 32 -> 0 < s t < 2 ^ 32 ->
  spec_offset r c1 shape0 key_second t < 2 ^ 32 ->
  spec_offset r c2 shape0 key_second t < 2 ^ 32 ->
  c1 + key_second * out_vec t < 2 ^ 32 -> c2 + key_second * out_vec t < 2 ^ 32 ->
  copy_to_shared_off (BinaryOperator Add) (BinaryOperator Mul) (BinaryOperator UDiv)
    (BinaryOperator URem) (BinaryOperator Xor) t idx1 (o0 :: o1 :: order_rest)
    shapes key_second = Ok off1 ->
  copy_to_shared_off (BinaryOperator Add) (BinaryOperator Mul) (BinaryOperator UDiv)
    (BinaryOperator URem) (BinaryOperator Xor) t idx2 (o0 :: o1 :: order_rest)
    shapes key_second = Ok off2 ->
  (c1 + key_second * out_vec t) / min_vec t <> (c2 + key_second * out_vec t) / min_vec t ->
  eval env off1 <> eval env off2.
Proof.
  intros Hr1 Hc1 Hr2 Hc2 Hsh Er Ec1 Ec2 Hr Hc1' Hc2' Hsh0 Hk Hpp Hmp Hmv Hs
         Hlt1 Hlt2 Hov1 Hov2 E1 E2 Hne Heq. apply Hne.
  destruct (SwizzleFacts.copy_to_shared_off_eval
              (BinaryOperator Add) (BinaryOperator Mul) (BinaryOperator UDiv)
              (BinaryOperator URem) (BinaryOperator Xor) env
              (fun _ _ => eq_refl) (fun _ _ => eq_refl) (fun _ _ => eq_refl)
              (fun _ _ => eq_refl) (fun _ _ => eq_refl)
              t idx1 o0 o1 order_rest shapes key_second row col1 shape0 r c1)
    as (o1' & Eo1 & Ev1); auto.
  destruct (SwizzleFacts.copy_to_shared_off_eval
              (BinaryOperator Add) (BinaryOperator Mul) (BinaryOperator UDiv)
              (BinaryOperator URem) (BinaryOperator Xor) env
              (fun _ _ => eq_refl) (fun _ _ => eq_refl) (fun _ _ => eq_refl)
              (fun _ _ => eq_refl) (fun _ _ => eq_refl)
              t idx2 o0 o1 order_rest shapes key_second row col2 shape0 r c2)
    as (o2' & Eo2 & Ev2); auto.
  rewrite E1 in Eo1. rewrite E2 in Eo2. inversion Eo1; inversion Eo2; subst o1' o2'.
  rewrite Ev1, Ev2 in Heq. inversion Heq as [Hw]. clear Heq.
  set (g1 := (c1 + key_second * out_vec t) / min_vec t) in *.
  set (g2 := (c2 + key_second * out_vec t) / min_vec t) in *.
  set (p := spec_phase r (per_phase t) (max_phase t)) in *.
  assert (0 <= p).
  { unfold p, spec_phase. apply Z.mod_pos_bound. lia. }
  assert (0 <= g1) by (apply Z.div_pos; lia).
  assert (0 <= g2) by (apply Z.div_pos; lia).
  pose proof (spec_permute_nonneg g1 (s t) p ltac:(lia) ltac:(lia) ltac:(lia)).
  pose proof (spec_permute_nonneg g2 (s t) p ltac:(lia) ltac:(lia) ltac:(lia)).
  unfold spec_offset in *. fold g1 g2 p in Hw, Hlt1, Hlt2.
  rewrite !WrapFacts.wrap_small in Hw by nia.
  assert (spec_permute g1 (s t) p = spec_permute g2 (s t) p) as Hp by nia.
  rewrite <- (spec_permute_involutive g1 (s t) p) by lia.
  rewrite <- (spec_permute_involutive g2 (s t) p) by lia.
  rewrite Hp. reflexivity.
Qed.

Lemma swizzle_groups_do_not_collide_witness :
  let t := {| in_vec := 4; out_vec := 8; min_vec := 4; s := 2;
              per_phase := 1; max_phase := 4 |} in
  exists off1 off2,
    copy_to_shared_off (BinaryOperator Add) (BinaryOperator Mul) (BinaryOperator UDiv)
      (BinaryOperator URem) (BinaryOperator Xor) t
      [Argument "row"; Argument "col1"] [1%nat; 0%nat] [64; 32] 0 = Ok off1
    /\ copy_to_shared_off (BinaryOperator Add) (BinaryOperator Mul) (BinaryOperator UDiv)
         (BinaryOperator URem) (BinaryOperator Xor) t
         [Argument "row"; Argument "col2"] [1%nat; 0%nat] [64; 32] 0 = Ok off2
    /\ eval Examples.two_columns_env off1 <> eval Examples.two_columns_env off2.
Proof.
  intros t. eexists. eexists. split; [reflexivity|]. split; [reflexivity|].
  refine (swizzle_groups_do_not_collide Examples.two_columns_env t
            [Argument "row"; Argument "col1"] [Argument "row"; Argument "col2"]
            1%nat 0%nat [] [64; 32] 0 (Argument "row") (Argument "col1") (Argument "col2")
            32 5 12 4 _ _ eq_refl eq_refl eq_refl eq_refl eq_refl eq_refl
            eq_refl eq_refl _ _ _ _ _ _ _ _ _ _ _ _ _ eq_refl eq_refl _);
    cbn; try lia; vm_compute; congruence.
Defined.


Module ScanlineFacts.
Import Scanline WrapFacts SwizzleFacts.

Lemma full_thread_id_eval env tid T :
  eval env tid = Some (RBits 32 T) -> 0 <= T < 2 ^ 32 ->
  eval env (full_thread_id tid) = Some (RBits 32 T).
Proof.
  intros E HT. unfold full_thread_id, add, mul, udiv, urem.
  pose proof (Z.div_mod T 32 ltac:(lia)).
  pose proof (Z.mod_pos_bound T 32 ltac:(lia)).
  assert (0 <= T / 32) by (apply Z.div_pos; lia).
  replace (RBits 32 T) with (RBits 32 (wrap 32 (wrap 32 (T / 32 * 32) + T mod 32))).
  - eapply eval_binary; [|eapply eval_binary; [exact E|apply eval_i32|reflexivity]
                          |reflexivity].
    eapply eval_binary; [|apply eval_i32|reflexivity].
    eapply eval_binary; [exact E|apply eval_i32|reflexivity].
  - f_equal. rewrite wrap_add_l. rewrite wrap_small by lia. lia.
Qed.

Lemma delinearize_eval env ms : forall full T,
  ms <> [] ->
  Forall (fun m => 0 < m < 2 ^ 32) ms ->
  eval env full = Some (RBits 32 T) -> 0 <= T ->
  exists vs ts,
    delinearize full ms = Ok vs
    /\ Forall2 (fun v t => eval env v = Some (RBits 32 t)) vs ts
    /\ length ts = length ms
    /\ linearize ms ts = T
    /\ Forall (fun t => 0 <= t) ts
    /\ Forall2 (fun t m => t < m) (removelast ts) (removelast ms).
Proof.
  induction ms as [|m ms IH]; intros full T Hne HF E HT; [congruence|].
  inversion HF as [|? ? Hm HF']; subst.
  destruct ms as [|m' ms].
  - exists [full], [T]. cbn. repeat split; try (repeat constructor; assumption). lia.
  - destruct (IH (udiv full (i32 m)) (T / m)) as (vs & ts & Ed & Hev & Hlen & Hlin & Hpos & Hlt).
    + discriminate.
    + exact HF'.
    + unfold udiv. eapply eval_binary; [exact E|apply eval_i32|].
      simpl. rewrite wrap_small by lia. destruct (Z.eqb_spec m 0); [lia|reflexivity].
    + apply Z.div_pos; lia.
    + exists (urem full (i32 m) :: vs), (T mod m :: ts).
      pose proof (Z.mod_pos_bound T m ltac:(lia)).
      split; [|split; [|split; [|split; [|split]]]].
      * change (delinearize full (m :: m' :: ms))
          with (ids ← delinearize (udiv full (i32 m)) (m' :: ms);
                Ok (urem full (i32 m) :: ids)).
        rewrite Ed. reflexivity.
      * constructor; [|exact Hev].
        unfold urem. eapply eval_binary; [exact E|apply eval_i32|].
        simpl. rewrite wrap_small by lia. destruct (Z.eqb_spec m 0); [lia|reflexivity].
      * simpl. simpl in Hlen. lia.
      * change (linearize (m :: m' :: ms) (T mod m :: ts))
          with (T mod m + m * linearize (m' :: ms) ts).
        rewrite Hlin. pose proof (Z.div_mod T m ltac:(lia)). lia.
      * constructor; [lia|exact Hpos].
      * destruct ts as [|t0 ts]; [simpl in Hlen; lia|].
        change (removelast (T mod m :: t0 :: ts)) with (T mod m :: removelast (t0 :: ts)).
        change (removelast (m :: m' :: ms)) with (m :: removelast (m' :: ms)).
        constructor; [lia|exact Hlt].
Qed.

End ScanlineFacts.

Module ScanlineAxis.
Import Scanline WrapFacts SwizzleFacts.

Lemma lookup_map {A B} (f : A -> B) l n : map f l !! n = f <$> (l !! n).
Proof.
  revert n. induction l as [|x l IH]; intros [|n]; simpl; try reflexivity. apply IH.
Qed.

Lemma per_thread_exact nts mts reps :
  0 < nts -> 0 < mts -> 0 < reps -> nts * (nts * mts * reps) < 2 ^ 32 ->
  per_thread nts (nts * mts) (nts * mts * reps) = nts * reps.
Proof.
  intros Hn Hm Hr Hlt. unfold per_thread.
  assert (0 < nts * mts) by nia. assert (0 < nts * mts * reps) by nia.
  rewrite wrap_small by nia.
  replace (nts * (nts * mts * reps)) with (nts * reps * (nts * mts)) by lia.
  apply Z.div_mul. lia.
Qed.

Lemma idx_offset_exact nts mts reps n :
  0 < nts -> 0 < mts -> 0 < reps -> nts * mts * reps < 2 ^ 32 ->
  0 <= n < nts * reps ->
  idx_offset nts (nts * mts) n = n / nts * (nts * mts) + n mod nts
  /\ 0 <= n / nts * (nts * mts) + n mod nts
  /\ n / nts * (nts * mts) + n mod nts + (mts - 1) * nts < nts * mts * reps.
Proof.
  intros Hn Hm Hr Hlt Hrange. unfold idx_offset.
  pose proof (Z.mod_pos_bound n nts Hn) as Hmod.
  assert (0 <= n / nts < reps) as Hq.
  { split; [apply Z.div_pos; lia|]. apply Z.div_lt_upper_bound; lia. }
  assert (n / nts * (nts * mts) + n mod nts + (mts - 1) * nts < nts * mts * reps) by nia.
  assert (0 <= n / nts * (nts * mts)) by nia.
  rewrite (wrap_small 32 (n / nts * (nts * mts))) by nia.
  rewrite wrap_small by nia. lia.
Qed.

(* every coordinate of the dimension has exactly one owner *)
Lemma coordinate_owner nts mts reps c :
  0 < nts -> 0 < mts -> 0 < reps -> 0 <= c < nts * mts * reps ->
  exists t n,
    (0 <= t < mts /\ 0 <= n < nts * reps
     /\ t * nts + (n / nts * (nts * mts) + n mod nts) = c)
    /\ forall t' n',
         0 <= t' < mts -> 0 <= n' < nts * reps ->
         t' * nts + (n' / nts * (nts * mts) + n' mod nts) = c ->
         t' = t /\ n' = n.
Proof.
  intros Hn Hm Hr Hc.
  remember (nts * mts) as P eqn:EP. assert (0 < P) by nia.
  pose proof (Z.div_mod c P ltac:(lia)) as Ec.
  pose proof (Z.mod_pos_bound c P ltac:(lia)) as Hr0.
  pose proof (Z.div_mod (c mod P) nts ltac:(lia)) as Er.
  pose proof (Z.mod_pos_bound (c mod P) nts ltac:(lia)) as Hj.
  assert (0 <= c / P < reps) as Hq.
  { split; [apply Z.div_pos; lia|]. apply Z.div_lt_upper_bound; lia. }
  assert (0 <= c mod P / nts < mts) as Ht.
  { split; [apply Z.div_pos; lia|]. apply Z.div_lt_upper_bound; lia. }
  exists (c mod P / nts), (c / P * nts + (c mod P) mod nts).
  assert ((c / P * nts + (c mod P) mod nts) / nts = c / P) as Ediv.
  { symmetry. apply Z.div_unique with ((c mod P) mod nts); lia. }
  assert ((c / P * nts + (c mod P) mod nts) mod nts = (c mod P) mod nts) as Emod.
  { symmetry. apply Z.mod_unique with (c / P); lia. }
  split.
  - split; [exact Ht|]. split; [nia|]. rewrite Ediv, Emod. lia.
  - intros t' n' Ht' Hn' E.
    pose proof (Z.mod_pos_bound n' nts Hn) as Hj'.
    pose proof (Z.div_mod n' nts ltac:(lia)) as En'.
    assert (0 <= n' / nts) by (apply Z.div_pos; lia).
    assert (0 <= t' * nts + n' mod nts < P) as Hr' by nia.
    assert (c / P = n' / nts) as Eq.
    { symmetry. apply Z.div_unique with (t' * nts + n' mod nts); lia. }
    assert (c mod P = t' * nts + n' mod nts) as Erm.
    { symmetry. apply Z.mod_unique with (n' / nts); lia. }
    assert (c mod P / nts = t') as Et.
    { symmetry. apply Z.div_unique with (n' mod nts); lia. }
    assert ((c mod P) mod nts = n' mod nts) as Ej.
    { symmetry. apply Z.mod_unique with t'; lia. }
    split; [lia|]. rewrite Eq, Ej. lia.
Qed.

End ScanlineAxis.

Import Scanline ScanlineFacts ScanlineAxis.

(** X4: the per-dimension thread ids that visit_layout_scanline computes from
    a lane's local id recombine to that id: id = t_0 + m_0 * (t_1 + m_1 *
    (...)), with every t_k but the last below its thread count m_k; two lanes
    with the same per-dimension ids are the same lane. *)
Theorem thread_id_round_trip (env : string -> option rval) (tid : Value) (T : Z)
        (mts_in_order : list Z) :
  mts_in_order <> [] ->
  Forall (fun m => 0 < m < 2 ^ 32) mts_in_order ->
  eval env tid = Some (RBits 32 T) -> 0 <= T < 2 ^ 32 ->
  exists vs ts,
    delinearize (full_thread_id tid) mts_in_order = Ok vs
    /\ Forall2 (fun v t => eval env v = Some (RBits 32 t)) vs ts
    /\ length ts = length mts_in_order
    /\ linearize mts_in_order ts = T
    /\ Forall (fun t => 0 <= t) ts
    /\ Forall2 (fun t m => t < m) (removelast ts) (removelast mts_in_order).
Proof.
  intros Hne HF E HT.
  apply delinearize_eval; [exact Hne|exact HF| |lia].
  apply full_thread_id_eval; assumption.
Qed.

Lemma thread_id_round_trip_witness :
  exists vs ts,
    delinearize (full_thread_id (Argument "tid")) [4; 8; 2] = Ok vs
    /\ Forall2 (fun v t => eval (fun _ => Some (RBits 32 45)) v = Some (RBits 32 t)) vs ts
    /\ length ts = 3%nat
    /\ linearize [4; 8; 2] ts = 45
    /\ Forall (fun t => 0 <= t) ts
    /\ Forall2 (fun t m => t < m) (removelast ts) [4; 8].
Proof.
  apply (thread_id_round_trip (fun _ => Some (RBits 32 45)) (Argument "tid") 45 [4; 8; 2]).
  - discriminate.
  - repeat constructor.
  - reflexivity.
  - lia.
Defined.

(** X5: along a dimension of a scanline layout whose extent is a multiple of
    nts * mts, a lane with thread id t gets nts * extent / (nts * mts)
    coordinates, the n-th being t * nts + (n / nts) * nts * mts + n mod nts,
    all inside the extent; over the mts thread ids these coordinates cover
    every position of the dimension exactly once. *)
Theorem scanline_axis_partition (env : string -> option rval) (thread_id_k : Value)
        (nts mts reps t : Z) :
  0 < nts -> 0 < mts -> 0 < reps -> nts * (nts * mts * reps) < 2 ^ 32 ->
  eval env thread_id_k = Some (RBits 32 t) -> 0 <= t < mts ->
  let per_cta := nts * mts in
  let shape := per_cta * reps in
  exists vals,
    idx_list thread_id_k nts per_cta shape = Ok vals
    /\ length vals = Z.to_nat (nts * reps)
    /\ (forall n v, vals !! n = Some v ->
          let c := t * nts + (Z.of_nat n / nts * per_cta + Z.of_nat n mod nts) in
          eval env v = Some (RBits 32 c) /\ 0 <= c < shape)
    /\ (forall c, 0 <= c < shape ->
          exists t0 n0,
            (0 <= t0 < mts /\ 0 <= n0 < nts * reps
             /\ t0 * nts + (n0 / nts * per_cta + n0 mod nts) = c)
            /\ forall t1 n1,
                 0 <= t1 < mts -> 0 <= n1 < nts * reps ->
                 t1 * nts + (n1 / nts * per_cta + n1 mod nts) = c ->
                 t1 = t0 /\ n1 = n0).
Proof.
  intros Hn Hm Hr Hlt E Ht. cbv zeta.
  assert (nts * mts * reps < 2 ^ 32) as Hshape by nia.
  unfold idx_list.
  destruct (Z.eqb_spec nts 0) as [?|Hn0]; [lia|].
  destruct (Z.eqb_spec (nts * mts) 0) as [?|Hp0]; [nia|].
  cbn [orb]. eexists. split; [reflexivity|].
  rewrite per_thread_exact by assumption.
  split; [rewrite length_map, length_seq; reflexivity|]. split.
  - intros n v Hv. rewrite lookup_map in Hv.
    destruct (seq 0 (Z.to_nat (nts * reps)) !! n) as [n'|] eqn:En; [|discriminate].
    apply lookup_seq in En as [-> Hlt']. simpl in Hv. inversion Hv; subst v. clear Hv.
    destruct (idx_offset_exact nts mts reps (Z.of_nat n) Hn Hm Hr Hshape ltac:(lia))
      as (Eo & Ho & Hb).
    split; [|nia].
    replace (RBits 32 (t * nts + (Z.of_nat n / nts * (nts * mts) + Z.of_nat n mod nts)))
      with (RBits 32 (wrap 32 (wrap 32 (t * nts)
                               + wrap 32 (idx_offset nts (nts * mts) (Z.of_nat n))))).
    + unfold add, mul. eapply eval_binary; [|apply eval_i32|reflexivity].
      eapply eval_binary; [exact E|apply eval_i32|].
      simpl. rewrite (wrap_small 32 nts) by nia. reflexivity.
    + f_equal. rewrite Eo.
      rewrite (wrap_small 32 (t * nts)) by nia.
      rewrite (wrap_small 32 (Z.of_nat n / nts * (nts * mts) + _)) by nia.
      apply wrap_small. nia.
  - intros c Hc. apply coordinate_owner; assumption.
Qed.

Lemma scanline_axis_partition_witness :
  exists vals,
    idx_list (Argument "tid") 2 (2 * 4) (2 * 4 * 2) = Ok vals
    /\ length vals = 4%nat
    /\ (forall n v, vals !! n = Some v ->
          let c := 3 * 2 + (Z.of_nat n / 2 * (2 * 4) + Z.of_nat n mod 2) in
          eval (fun _ => Some (RBits 32 3)) v = Some (RBits 32 c) /\ 0 <= c < 2 * 4 * 2)
    /\ (forall c, 0 <= c < 2 * 4 * 2 ->
          exists t0 n0,
            (0 <= t0 < 4 /\ 0 <= n0 < 2 * 2
             /\ t0 * 2 + (n0 / 2 * (2 * 4) + n0 mod 2) = c)
            /\ forall t1 n1,
                 0 <= t1 < 4 -> 0 <= n1 < 2 * 2 ->
                 t1 * 2 + (n1 / 2 * (2 * 4) + n1 mod 2) = c ->
                 t1 = t0 /\ n1 = n0).
Proof.
  apply (scanline_axis_partition (fun _ => Some (RBits 32 3)) (Argument "tid") 2 4 2 3);
    first [lia | reflexivity].
Defined.


Module BFloatFacts.
Import BFloat WrapFacts.

Lemma bf16_to_fp32_eval env x h :
  eval env x = Some (RBits 16 h) -> 0 <= h < 2 ^ 16 ->
  eval env (bf16_to_fp32 x) = Some (RBits 32 (h * 2 ^ 16)).
Proof.
  intros E Hh. unfold bf16_to_fp32. cbn [eval]. rewrite E. cbn.
  rewrite decide_True by lia. rewrite decide_True by (cbn; lia). cbn.
  rewrite (wrap_small 16 h) by lia.
  rewrite Z.lor_0_r, Z.shiftl_mul_pow2 by lia. reflexivity.
Qed.

Lemma fp32_to_bf16_eval env sm cvt f b :
  sm < 80 -> eval env f = Some (RBits 32 b) ->
  eval env (fp32_to_bf16 sm cvt f) = Some (RBits 16 (wrap 16 (Z.shiftr b 16))).
Proof.
  intros Hsm E. unfold fp32_to_bf16.
  destruct (Z.leb_spec 80 sm); [lia|].
  cbn [eval]. rewrite E. reflexivity.
Qed.

End BFloatFacts.

Import BFloat BFloatFacts.

(** X6: on a target below compute capability 80, widening a truncated-16-bit
    value to 32 bits and narrowing it again gives the value back; narrowing a
    32-bit value and widening it again clears its low 16 bits and keeps the
    high 16. *)
Theorem bf16_round_trip (env : string -> option rval) (sm : Z)
        (cvt : Value -> Value) (x f : Value) (h b : Z) :
  sm < 80 ->
  eval env x = Some (RBits 16 h) -> 0 <= h < 2 ^ 16 ->
  eval env f = Some (RBits 32 b) -> 0 <= b < 2 ^ 32 ->
  eval env (fp32_to_bf16 sm cvt (bf16_to_fp32 x)) = Some (RBits 16 h)
  /\ eval env (bf16_to_fp32 (fp32_to_bf16 sm cvt f)) = Some (RBits 32 (b - b mod 2 ^ 16)).
Proof.
  intros Hsm Ex Hh Ef Hb. split.
  - rewrite (fp32_to_bf16_eval env sm cvt _ (h * 2 ^ 16) Hsm (bf16_to_fp32_eval env x h Ex Hh)).
    rewrite Z.shiftr_div_pow2, Z.div_mul by lia. rewrite wrap_small by lia. reflexivity.
  - assert (0 <= b / 2 ^ 16 < 2 ^ 16) as Hq.
    { split; [apply Z.div_pos; lia|]. apply Z.div_lt_upper_bound; lia. }
    rewrite (bf16_to_fp32_eval env _ (b / 2 ^ 16)).
    + f_equal. f_equal. pose proof (Z.div_mod b (2 ^ 16) ltac:(lia)). lia.
    + rewrite (fp32_to_bf16_eval env sm cvt f b Hsm Ef).
      rewrite Z.shiftr_div_pow2 by lia. rewrite wrap_small by lia. reflexivity.
    + exact Hq.
Qed.

Lemma bf16_round_trip_witness :
  eval (fun _ => None)
       (fp32_to_bf16 75 (fun v => v) (bf16_to_fp32 (ConstantInt 16 0x3f80)))
  = Some (RBits 16 0x3f80)
  /\ eval (fun _ => None)
          (bf16_to_fp32 (fp32_to_bf16 75 (fun v => v) (ConstantFP FloatTy 0x3f8ccccd)))
     = Some (RBits 32 0x3f8c0000).
Proof.
  apply (bf16_round_trip (fun _ => None) 75 (fun v => v)
           (ConstantInt 16 0x3f80) (ConstantFP FloatTy 0x3f8ccccd) 0x3f80 0x3f8ccccd);
    first [lia | reflexivity].
Defined.


Module WarpFacts.
Import Warp.

Section Lanes.
Context {V : Type}.
Variable do_acc : V -> V -> V.
Hypothesis do_acc_assoc : forall x y z, do_acc x (do_acc y z) = do_acc (do_acc x y) z.
Hypothesis do_acc_comm : forall x y, do_acc x y = do_acc y x.

Lemma big_cons d x l : l <> [] -> big do_acc d (x :: l) = do_acc x (big do_acc d l).
Proof. destruct l; [congruence|reflexivity]. Qed.

Lemma big_app d l1 l2 :
  l1 <> [] -> l2 <> [] ->
  big do_acc d (l1 ++ l2) = do_acc (big do_acc d l1) (big do_acc d l2).
Proof.
  induction l1 as [|x l1 IH]; intros H1 H2; [congruence|].
  destruct l1 as [|y l1].
  - simpl app. apply big_cons. exact H2.
  - change ((x :: y :: l1) ++ l2) with (x :: ((y :: l1) ++ l2)).
    rewrite big_cons by discriminate. rewrite IH by (discriminate || assumption).
    rewrite (big_cons d x (y :: l1)) by discriminate. apply do_acc_assoc.
Qed.

Lemma big_perm d l1 l2 : Permutation l1 l2 -> big do_acc d l1 = big do_acc d l2.
Proof.
  induction 1 as [|x l l' HP IH|x y l|l l' l'' _ IH1 _ IH2].
  - reflexivity.
  - destruct l as [|a l].
    + apply Permutation_nil in HP. subst. reflexivity.
    + destruct l' as [|b l']; [symmetry in HP; apply Permutation_nil in HP; discriminate|].
      rewrite !big_cons by discriminate. rewrite IH. reflexivity.
  - destruct l as [|a l].
    + simpl. apply do_acc_comm.
    + rewrite !(big_cons d _ (_ :: _)) by discriminate.
      rewrite !do_acc_assoc. f_equal. apply do_acc_comm.
  - congruence.
Qed.

Lemma fold_left_big d l : forall v, fold_left do_acc l v = big do_acc d (v :: l).
Proof.
  induction l as [|x l IH]; intros v; [reflexivity|].
  simpl fold_left. rewrite IH. rewrite (big_cons d v) by discriminate.
  destruct l as [|y l]; [reflexivity|].
  rewrite !(big_cons d _ (_ :: _)) by discriminate. symmetry. apply do_acc_assoc.
Qed.

Lemma leaves_nonempty t : leaves t <> [].
Proof.
  induction t as [l|a IHa b IHb]; simpl; [discriminate|].
  destruct (leaves a); [congruence|discriminate].
Qed.

Lemma interp_big d vals t :
  interp do_acc d vals t
  = big do_acc d ((fun l => default d (vals !! l)) <$> leaves t).
Proof.
  induction t as [l|a IHa b IHb]; [reflexivity|].
  simpl. rewrite fmap_app, big_app, IHa, IHb; [reflexivity| |].
  - intros E. apply fmap_nil_inv in E. exact (leaves_nonempty a E).
  - intros E. apply fmap_nil_inv in E. exact (leaves_nonempty b E).
Qed.

Lemma butterfly_step_natural (h : tree -> V) ts i :
  (forall a b, h (Node a b) = do_acc (h a) (h b)) ->
  h <$> butterfly_step Node ts i = butterfly_step do_acc (h <$> ts) i.
Proof.
  intros Hh. apply list_eq. intros j. unfold butterfly_step, shfl_sync.
  rewrite list_lookup_fmap, !lookup_zip_with, !list_lookup_imap, !list_lookup_fmap.
  destruct (ts !! j) as [t|]; [|reflexivity]. simpl.
  destruct (ts !! Nat.lxor j i) as [t'|]; simpl; rewrite Hh; reflexivity.
Qed.

Lemma butterfly_natural (h : tree -> V) fuel : forall i ts,
  (forall a b, h (Node a b) = do_acc (h a) (h b)) ->
  h <$> butterfly Node fuel i ts = butterfly do_acc fuel i (h <$> ts).
Proof.
  induction fuel as [|fuel IH]; intros i ts Hh; [reflexivity|].
  simpl. destruct (0 <? i)%nat; [|reflexivity].
  rewrite IH by exact Hh. rewrite butterfly_step_natural by exact Hh. reflexivity.
Qed.

(* the loop on values is the loop on shapes, read back on the values *)
Lemma lanes_as_symbolic (v : V) (vals : list V) (start : nat) :
  length vals = 32%nat ->
  butterfly do_acc 6 start vals = interp do_acc v vals <$> symbolic_lanes start.
Proof.
  intros Hlen.
  assert (interp do_acc v vals <$> (Leaf <$> seq 0 32) = vals) as Hinit.
  { apply list_eq. intros j. rewrite !list_lookup_fmap.
    destruct (decide (j < 32)%nat) as [Hj|Hj].
    - rewrite lookup_seq_lt by exact Hj. simpl.
      destruct (vals !! j) as [x|] eqn:E; [reflexivity|].
      apply lookup_ge_None in E. lia.
    - rewrite lookup_seq_ge by lia. simpl. symmetry. apply lookup_ge_None. lia. }
  unfold symbolic_lanes.
  rewrite (butterfly_natural (interp do_acc v vals)) by reflexivity.
  rewrite Hinit. reflexivity.
Qed.

(* a lane whose shape combines exactly the lanes 0 .. n-1 holds the left fold
   of the first n values *)
Lemma lane_value (v : V) (vs : list V) (start l n : nat) (t : tree) :
  length (v :: vs) = 32%nat ->
  symbolic_lanes start !! l = Some t ->
  Permutation (leaves t) (seq 0 (S n)) -> (n < 32)%nat ->
  butterfly do_acc 6 start (v :: vs) !! l = Some (fold_left do_acc (firstn n vs) v).
Proof.
  intros Hlen Et HP Hn.
  rewrite (lanes_as_symbolic v (v :: vs) start Hlen).
  rewrite list_lookup_fmap, Et. cbn [fmap option_fmap option_map]. f_equal.
  rewrite interp_big.
  rewrite (big_perm v _ _ (Permutation_map _ HP)).
  rewrite (fold_left_big v). f_equal.
  apply list_eq. intros j. rewrite list_lookup_fmap.
  destruct (decide (j < S n)%nat) as [Hj|Hj].
  - rewrite lookup_seq_lt by exact Hj. simpl.
    destruct j as [|j]; [reflexivity|].
    change ((v :: vs) !! S j) with (vs !! j).
    change ((v :: firstn n vs) !! S j) with (firstn n vs !! j).
    rewrite lookup_take_lt by lia.
    destruct (vs !! j) as [x|] eqn:E; [reflexivity|].
    apply lookup_ge_None in E. simpl in Hlen. lia.
  - rewrite lookup_seq_ge by lia. simpl. symmetry. apply lookup_ge_None.
    simpl. rewrite length_take. lia.
Qed.

End Lanes.

Lemma within_warp_shapes :
  forallb (fun t => bool_decide (Permutation (leaves t) (seq 0 32))) (symbolic_lanes 16)
  = true
  /\ length (symbolic_lanes 16) = 32%nat.
Proof. split; vm_compute; reflexivity. Qed.

Lemma across_warps_shapes :
  forallb (fun start =>
             match symbolic_lanes start !! 0%nat with
             | Some t =>
                 bool_decide (Permutation (leaves t) (seq 0 (2 ^ (Nat.log2 start + 1))))
             | None => false
             end) (seq 1 16) = true.
Proof. vm_compute. reflexivity. Qed.

Section Block.
Context {V : Type}.
Variable do_acc : V -> V -> V.
Hypothesis do_acc_assoc : forall x y z, do_acc x (do_acc y z) = do_acc (do_acc x y) z.
Hypothesis do_acc_comm : forall x y, do_acc x y = do_acc y x.

Lemma within_warp_value (v : V) (vs : list V) (l : nat) :
  length (v :: vs) = 32%nat -> (l < 32)%nat ->
  reduce_within_warp do_acc (v :: vs) !! l = Some (fold_left do_acc vs v).
Proof.
  intros Hlen Hl.
  destruct within_warp_shapes as [Hall Hlen'].
  destruct (lookup_lt_is_Some_2 (symbolic_lanes 16) l ltac:(lia)) as [t Et].
  rewrite forallb_forall in Hall.
  assert (Permutation (leaves t) (seq 0 32)) as HP.
  { eapply bool_decide_eq_true_1, Hall. apply list_elem_of_In.
    eapply list_elem_of_lookup_2, Et. }
  unfold reduce_within_warp.
  rewrite (lane_value do_acc do_acc_assoc do_acc_comm v vs 16 l 31 t Hlen Et HP ltac:(lia)).
  rewrite firstn_all2; [reflexivity|]. simpl in Hlen. lia.
Qed.

Lemma start_bounds (num_warps : nat) :
  (1 <= num_warps <= 32)%nat ->
  (1 <= (num_warps + 1) / 2 <= 16)%nat
  /\ (2 <= 2 ^ (Nat.log2 ((num_warps + 1) / 2) + 1) <= 32)%nat.
Proof.
  intros Hnw.
  assert (1 <= (num_warps + 1) / 2 <= 16)%nat as Hstart.
  { split.
    - apply Nat.div_le_lower_bound; lia.
    - enough ((num_warps + 1) / 2 < 17)%nat by lia.
      apply Nat.Div0.div_lt_upper_bound. lia. }
  split; [exact Hstart|].
  rewrite Nat.add_1_r, Nat.pow_succ_r'.
  pose proof (Nat.log2_spec ((num_warps + 1) / 2) ltac:(lia)) as [Hlo _].
  assert (1 <= 2 ^ Nat.log2 ((num_warps + 1) / 2))%nat.
  { apply Nat.neq_0_lt_0. apply Nat.pow_nonzero. lia. }
  lia.
Qed.

Lemma across_warps_value (num_warps : nat) (v : V) (vs : list V) :
  length (v :: vs) = 32%nat -> (1 <= num_warps <= 32)%nat ->
  reduce_across_warps do_acc num_warps (v :: vs) !! 0%nat
  = Some (fold_left do_acc
            (firstn (2 ^ (Nat.log2 ((num_warps + 1) / 2) + 1) - 1) vs) v).
Proof.
  intros Hlen Hnw.
  destruct (start_bounds num_warps Hnw) as [Hstart Hcov].
  pose proof across_warps_shapes as Hall. rewrite forallb_forall in Hall.
  specialize (Hall ((num_warps + 1) / 2)%nat).
  destruct (symbolic_lanes ((num_warps + 1) / 2) !! 0%nat) as [t|] eqn:Et.
  - assert (Permutation (leaves t) (seq 0 (2 ^ (Nat.log2 ((num_warps + 1) / 2) + 1))))
      as HP.
    { eapply bool_decide_eq_true_1, Hall, in_seq. lia. }
    unfold reduce_across_warps.
    destruct (2 ^ (Nat.log2 ((num_warps + 1) / 2) + 1))%nat as [|n] eqn:En; [lia|].
    rewrite (lane_value do_acc do_acc_assoc do_acc_comm v vs _ 0 n t Hlen Et HP ltac:(lia)).
    replace (S n - 1)%nat with n by lia. reflexivity.
  - assert (false = true) as Habs; [|discriminate Habs].
    apply Hall, in_seq. lia.
Qed.

(* the shared buffer after the two rounds of stores *)
Lemma shared_after_stores_lookup (winner : nat -> nat) (neutral : V)
      (accs : list (list V)) (f : nat -> V) (j : nat) :
  (length accs <= 32)%nat ->
  (forall w, (w < length accs)%nat -> accs !! w ≫= (.!! winner w) = Some (f w)) ->
  shared_after_stores winner neutral accs !! j
  = if decide (j < length accs)%nat then Some (f j)
    else if decide (j < 32)%nat then Some neutral else None.
Proof.
  intros Hle Hf. unfold shared_after_stores.
  assert (forall n, (n <= length accs)%nat ->
            let mem := fold_left (fun mem warp =>
                         match accs !! warp ≫= (.!! winner warp) with
                         | Some acc => <[warp := acc]> mem
                         | None => mem
                         end) (seq 0 n) (replicate 32 neutral) in
            length mem = 32%nat
            /\ mem !! j = if decide (j < n)%nat then Some (f j)
                          else if decide (j < 32)%nat then Some neutral else None) as H.
  { induction n as [|n IH]; intros Hn; cbv zeta.
    - cbn [seq fold_left]. rewrite length_replicate. split; [reflexivity|].
      rewrite decide_False by lia.
      destruct (decide (j < 32)%nat) as [Hj|Hj].
      + apply lookup_replicate_2. exact Hj.
      + apply lookup_ge_None. rewrite length_replicate. lia.
    - rewrite seq_S, fold_left_app. cbn [fold_left Nat.add].
      destruct (IH ltac:(lia)) as [Hlen Hlook].
      rewrite (Hf n) by lia. rewrite length_insert. split; [exact Hlen|].
      destruct (decide (j = n)) as [->|Hjn].
      + rewrite list_lookup_insert_eq by lia. rewrite decide_True by lia. reflexivity.
      + rewrite list_lookup_insert_ne by congruence. rewrite Hlook.
        destruct (decide (j < n)%nat), (decide (j < S n)%nat); try lia; reflexivity. }
  exact (proj2 (H (length accs) ltac:(lia))).
Qed.

Lemma big_neutral_tail (neutral : V) (l : list V) (k : nat) :
  (forall x, do_acc x neutral = x) -> l <> [] ->
  big do_acc neutral (l ++ replicate k neutral) = big do_acc neutral l.
Proof.
  intros Hid Hl. induction k as [|k IH]; [rewrite app_nil_r; reflexivity|].
  replace (replicate (S k) neutral) with (replicate k neutral ++ [neutral]).
  - rewrite app_assoc, (big_app do_acc do_acc_assoc);
      [|destruct l; [congruence|discriminate]|discriminate].
    rewrite IH. simpl. apply Hid.
  - change [neutral] with (replicate 1 neutral). rewrite <- replicate_add.
    f_equal. lia.
Qed.

Lemma big_concat (d : V) (ls : list (list V)) :
  ls <> [] -> Forall (fun l => l <> []) ls ->
  big do_acc d (big do_acc d <$> ls) = big do_acc d (concat ls).
Proof.
  induction ls as [|l ls IH]; intros Hne Hall; [congruence|].
  inversion Hall as [|? ? Hl Hls]; subst.
  destruct ls as [|l' ls].
  - simpl. rewrite app_nil_r. reflexivity.
  - change (big do_acc d <$> l :: l' :: ls)
      with (big do_acc d l :: (big do_acc d <$> (l' :: ls))).
    rewrite (big_cons do_acc) by discriminate.
    rewrite IH by (discriminate || assumption).
    change (concat (l :: l' :: ls)) with (l ++ concat (l' :: ls)).
    rewrite (big_app do_acc do_acc_assoc); [reflexivity|exact Hl|].
    inversion Hls; subst. simpl. destruct l'; [congruence|discriminate].
Qed.

Lemma visit_reduce1d_inst_value (winner : nat -> nat) (neutral : V) (num_warps : nat)
      (accs : list (list V)) :
  (forall x, do_acc x neutral = x) ->
  length accs = num_warps -> (1 <= num_warps <= 32)%nat ->
  (num_warps <= 2 ^ (Nat.log2 ((num_warps + 1) / 2) + 1))%nat ->
  Forall (fun warp => length warp = 32%nat) accs ->
  (forall w, (winner w < 32)%nat) ->
  visit_reduce1d_inst do_acc winner neutral num_warps accs
  = Some (big do_acc neutral (concat accs)).
Proof.
  intros Hid Hlen Hnw Hpow Hall Hwin.
  destruct (start_bounds num_warps Hnw) as [_ Hcov].
  unfold visit_reduce1d_inst. cbv zeta.
  set (mem := shared_after_stores winner neutral (reduce_within_warp do_acc <$> accs)).
  assert (forall j, mem !! j
            = if decide (j < length (reduce_within_warp do_acc <$> accs))%nat
              then Some (default neutral (big do_acc neutral <$> accs !! j))
              else if decide (j < 32)%nat then Some neutral else None) as Hmem.
  { intros j. subst mem.
    apply (shared_after_stores_lookup winner neutral _
             (fun w => default neutral (big do_acc neutral <$> accs !! w))).
    - rewrite length_fmap. lia.
    - intros w Hw. rewrite length_fmap in Hw.
      rewrite list_lookup_fmap.
      destruct (lookup_lt_is_Some_2 accs w Hw) as [warp Ew]. rewrite Ew. simpl.
      pose proof (Forall_lookup_1 _ _ _ _ Hall Ew) as Hw32. simpl in Hw32.
      destruct warp as [|v vs]; [discriminate Hw32|].
      rewrite (within_warp_value v vs (winner w) Hw32 (Hwin w)).
      rewrite (fold_left_big do_acc do_acc_assoc neutral). reflexivity. }
  assert (mem = (big do_acc neutral <$> accs) ++ replicate (32 - num_warps) neutral)
    as Emem.
  { apply list_eq. intros j. rewrite Hmem, length_fmap, Hlen.
    destruct (decide (j < num_warps)%nat) as [Hj|Hj].
    - rewrite lookup_app_l by (rewrite length_fmap; lia).
      rewrite list_lookup_fmap.
      destruct (lookup_lt_is_Some_2 accs j ltac:(lia)) as [warp Ew]. rewrite Ew.
      reflexivity.
    - rewrite lookup_app_r by (rewrite length_fmap; lia).
      rewrite length_fmap, Hlen.
      destruct (decide (j < 32)%nat) as [Hj'|Hj'].
      + symmetry. apply lookup_replicate_2. lia.
      + symmetry. apply lookup_ge_None. rewrite length_replicate. lia. }
  assert (length mem = 32%nat) as Hmlen.
  { rewrite Emem, length_app, length_fmap, length_replicate. lia. }
  destruct mem as [|m0 ms] eqn:Em; [discriminate Hmlen|].
  rewrite (across_warps_value num_warps m0 ms Hmlen Hnw). f_equal.
  rewrite (fold_left_big do_acc do_acc_assoc neutral).
  set (covered := (2 ^ (Nat.log2 ((num_warps + 1) / 2) + 1))%nat) in *.
  replace (m0 :: firstn (covered - 1) ms) with (firstn covered (m0 :: ms))
    by (destruct covered as [|c]; [lia|]; simpl; do 2 f_equal; lia).
  rewrite Emem.
  rewrite firstn_app, length_fmap, Hlen.
  rewrite firstn_all2 by (rewrite length_fmap; lia).
  rewrite take_replicate.
  assert (accs <> []) as Hne by (destruct accs; [simpl in Hlen; lia|discriminate]).
  rewrite big_neutral_tail;
    [|exact Hid|destruct accs; [congruence|discriminate]].
  apply big_concat; [exact Hne|].
  eapply Forall_impl; [exact Hall|]. intros warp Hw. simpl in Hw.
  destruct warp; [discriminate Hw|discriminate].
Qed.

End Block.

End WarpFacts.

Import Warp WarpFacts.

(** X7: after the intra-warp shuffle loop of the 1-D reduction (distances 16,
    8, 4, 2, 1), every one of the 32 lanes holds the combination of all 32
    lanes' values, for any associative and commutative accumulate function. *)
Theorem warp_reduce_all_lanes {V : Type} (do_acc : V -> V -> V) (v : V) (vs : list V)
        (l : nat) :
  (forall x y z, do_acc x (do_acc y z) = do_acc (do_acc x y) z) ->
  (forall x y, do_acc x y = do_acc y x) ->
  length (v :: vs) = 32%nat -> (l < 32)%nat ->
  reduce_within_warp do_acc (v :: vs) !! l = Some (fold_left do_acc vs v).
Proof.
  intros Ha Hc Hlen Hl. apply within_warp_value; assumption.
Qed.

Lemma warp_reduce_all_lanes_witness :
  reduce_within_warp Z.add (1 :: repeat 1 31) !! 5%nat
  = Some (fold_left Z.add (repeat 1 31) 1).
Proof.
  apply (warp_reduce_all_lanes Z.add 1 (repeat 1 31) 5).
  - intros x y z. apply Z.add_assoc.
  - intros x y. apply Z.add_comm.
  - reflexivity.
  - lia.
Defined.

(** X8: in the cross-warp shuffle loop of the 1-D reduction, which starts at
    distance (num_warps+1)/2, lane 0 ends with the combination of exactly the
    first 2^(floor(log2((num_warps+1)/2))+1) shared slots, for any associative
    and commutative accumulate function: 2 slots for 1 or 2 warps, 4 slots
    for 3 to 6 warps (so the slots of warps 4 and 5 are left out), 8 slots for
    7 to 14 warps, and so on. *)
Theorem across_warps_lane_zero {V : Type} (do_acc : V -> V -> V) (num_warps : nat)
        (v : V) (vs : list V) :
  (forall x y z, do_acc x (do_acc y z) = do_acc (do_acc x y) z) ->
  (forall x y, do_acc x y = do_acc y x) ->
  length (v :: vs) = 32%nat -> (1 <= num_warps <= 32)%nat ->
  let start := ((num_warps + 1) / 2)%nat in
  let covered := (2 ^ (Nat.log2 start + 1))%nat in
  reduce_across_warps do_acc num_warps (v :: vs) !! 0%nat
  = Some (fold_left do_acc (firstn (covered - 1) vs) v).
Proof.
  intros Ha Hc Hlen Hnw. cbv zeta. apply across_warps_value; assumption.
Qed.

Lemma across_warps_lane_zero_witness :
  reduce_across_warps Z.add 5 (10 :: 20 :: 30 :: 40 :: 50 :: repeat 0 27) !! 0%nat
  = Some (fold_left Z.add (firstn 3 (20 :: 30 :: 40 :: 50 :: repeat 0 27)) 10).
Proof.
  apply (across_warps_lane_zero Z.add 5 10 (20 :: 30 :: 40 :: 50 :: repeat 0 27)).
  - intros x y z. apply Z.add_assoc.
  - intros x y. apply Z.add_comm.
  - reflexivity.
  - lia.
Defined.

(** X9: the 1-D reduction of a block of 1, 2, 4, 8, 16 or 32 warps (more
    generally, of num_warps <= 2^(floor(log2((num_warps+1)/2))+1) warps)
    returns the combination of the accumulators of all the threads of the
    block, whichever lane's store to the warp's shared slot lands last, when
    the accumulate function is associative and commutative and the neutral
    value is a right identity for it. *)
Theorem visit_reduce1d_inst_combines_block {V : Type} (do_acc : V -> V -> V)
        (winner : nat -> nat) (neutral : V) (num_warps : nat)
        (accs : list (list V)) (v : V) (vs : list V) :
  (forall x y z, do_acc x (do_acc y z) = do_acc (do_acc x y) z) ->
  (forall x y, do_acc x y = do_acc y x) ->
  (forall x, do_acc x neutral = x) ->
  length accs = num_warps -> (1 <= num_warps <= 32)%nat ->
  (num_warps <= 2 ^ (Nat.log2 ((num_warps + 1) / 2) + 1))%nat ->
  Forall (fun warp => length warp = 32%nat) accs ->
  (forall w, (winner w < 32)%nat) ->
  concat accs = v :: vs ->
  visit_reduce1d_inst do_acc winner neutral num_warps accs
  = Some (fold_left do_acc vs v).
Proof.
  intros Ha Hc Hid Hlen Hnw Hpow Hall Hwin Hcat.
  rewrite (visit_reduce1d_inst_value do_acc Ha Hc winner neutral num_warps accs)
    by assumption.
  rewrite Hcat, (fold_left_big do_acc Ha neutral). reflexivity.
Qed.

Lemma visit_reduce1d_inst_combines_block_witness :
  visit_reduce1d_inst Z.add (fun w => (7 * w mod 32)%nat) 0 2
                      [repeat 1 32; repeat 2 32]
  = Some (fold_left Z.add (repeat 1 31 ++ repeat 2 32) 1).
Proof.
  apply (visit_reduce1d_inst_combines_block Z.add (fun w => (7 * w mod 32)%nat) 0 2
           [repeat 1 32; repeat 2 32] 1 (repeat 1 31 ++ repeat 2 32)).
  - intros x y z. apply Z.add_assoc.
  - intros x y. apply Z.add_comm.
  - intros x. apply Z.add_0_r.
  - reflexivity.
  - lia.
  - vm_compute. lia.
  - repeat constructor.
  - intros w. apply Nat.mod_upper_bound. lia.
  - reflexivity.
Defined.

Module isaacFacts.
Import isaac.
Local Open Scope nat_scope.

Section Expression.
Context `{header}.

Lemma ordered_spec array : ordered array = true <-> ordered_at array.
Proof.
  unfold ordered, ordered_at. rewrite forallb_forall. split.
  - intros Hall i n Ei.
    apply andb_prop. apply (Hall (below i (lhs n) && below i (rhs n))).
    apply list_elem_of_In. apply (list_elem_of_lookup_2 _ i).
    rewrite list_lookup_imap, Ei. reflexivity.
  - intros Hall b Hb. apply list_elem_of_In, list_elem_of_lookup_1 in Hb.
    destruct Hb as [i Ei]. rewrite list_lookup_imap in Ei.
    destruct (array !! i) as [n|] eqn:En; [|discriminate].
    injection Ei as <-. destruct (Hall i n En) as [-> ->]. reflexivity.
Qed.

Lemma well_formed_spec t :
  well_formed t = true
  <-> tree_ t <> [] /\ root_ t = length (tree_ t) - 1 /\ ordered_at (tree_ t).
Proof.
  unfold well_formed. rewrite !andb_true_iff, negb_true_iff, Nat.eqb_neq, Nat.eqb_eq.
  rewrite ordered_spec. split.
  - intros [[Hl Hr] Ho]. split; [|split; assumption].
    intros E. apply Hl. rewrite E. reflexivity.
  - intros (Hl & Hr & Ho). split; [split|]; try assumption.
    intros E. apply Hl. destruct (tree_ t); [reflexivity|discriminate].
Qed.

Lemma below_lt i j : below i (COMPOSITE_OPERATOR_TYPE j) = true <-> j < i.
Proof. apply Nat.ltb_lt. Qed.

Lemma expression_at_step fuel array i :
  expression_at (S fuel) array i
  = n ← array !! i;
    l ← child_expression fuel array (lhs n);
    r ← child_expression fuel array (rhs n);
    Some (E_op l (op n) r).
Proof.
  simpl. destruct (array !! i) as [n|]; [|reflexivity]. simpl.
  destruct (lhs n), (rhs n); reflexivity.
Qed.

Lemma expression_at_fuel array :
  ordered_at array ->
  forall fuel fuel' i, i < fuel -> i < fuel' ->
    expression_at fuel array i = expression_at fuel' array i.
Proof.
  intros Ho fuel. induction fuel as [|fuel IH]; intros fuel' i Hi Hi'; [lia|].
  destruct fuel' as [|fuel']; [lia|].
  rewrite !expression_at_step.
  destruct (array !! i) as [n|] eqn:En; [|reflexivity]. simpl.
  destruct (Ho i n En) as [Hl Hr].
  assert (forall x, below i x = true ->
            child_expression fuel array x = child_expression fuel' array x) as Hc.
  { intros [|j| | |] Hx; try reflexivity. apply below_lt in Hx.
    simpl. apply IH; lia. }
  rewrite (Hc _ Hl), (Hc _ Hr). reflexivity.
Qed.

Lemma expression_at_total array :
  ordered_at array ->
  forall fuel i, i < fuel -> i < length array ->
    is_Some (expression_at fuel array i).
Proof.
  intros Ho fuel. induction fuel as [|fuel IH]; intros i Hi Hlen; [lia|].
  rewrite expression_at_step.
  destruct (lookup_lt_is_Some_2 array i Hlen) as [n En]. rewrite En. simpl.
  destruct (Ho i n En) as [Hl Hr].
  assert (forall x, below i x = true -> is_Some (child_expression fuel array x)) as Hc.
  { intros [|j| | |] Hx; try (eexists; reflexivity). apply below_lt in Hx.
    simpl. apply IH; lia. }
  destruct (Hc _ Hl) as [l ->], (Hc _ Hr) as [r ->]. simpl. eexists; reflexivity.
Qed.

(* nodes appended behind an ordered array do not change what it stands for *)
Lemma expression_at_prefix array ext :
  ordered_at array ->
  forall fuel i, i < length array ->
    expression_at fuel (array ++ ext) i = expression_at fuel array i.
Proof.
  intros Ho fuel. induction fuel as [|fuel IH]; intros i Hi; [reflexivity|].
  rewrite !expression_at_step. rewrite lookup_app_l by exact Hi.
  destruct (array !! i) as [n|] eqn:En; [|reflexivity]. simpl.
  destruct (Ho i n En) as [Hl Hr].
  assert (forall x, below i x = true ->
            child_expression fuel (array ++ ext) x = child_expression fuel array x) as Hc.
  { intros [|j| | |] Hx; try reflexivity. apply below_lt in Hx.
    simpl. apply IH; lia. }
  rewrite (Hc _ Hl), (Hc _ Hr). reflexivity.
Qed.

(* nor does moving it behind other nodes, with its indices shifted *)
Lemma expression_at_shift pre array post :
  ordered_at array ->
  forall fuel i, i < length array ->
    expression_at fuel (pre ++ (shift_node (length pre) <$> array) ++ post)
                  (length pre + i)
    = expression_at fuel array i.
Proof.
  intros Ho fuel. induction fuel as [|fuel IH]; intros i Hi; [reflexivity|].
  rewrite !expression_at_step.
  rewrite lookup_app_r by lia.
  replace (length pre + i - length pre) with i by lia.
  rewrite lookup_app_l by (rewrite length_fmap; exact Hi).
  rewrite list_lookup_fmap.
  destruct (array !! i) as [n|] eqn:En; [|reflexivity]. simpl.
  destruct (Ho i n En) as [Hl Hr].
  assert (forall x, below i x = true ->
            child_expression fuel (pre ++ (shift_node (length pre) <$> array) ++ post)
                             (shift_index (length pre) x)
            = child_expression fuel array x) as Hc.
  { intros [|j| | |] Hx; try reflexivity. apply below_lt in Hx.
    simpl. rewrite (Nat.add_comm j). apply IH; lia. }
  rewrite (Hc _ Hl), (Hc _ Hr). reflexivity.
Qed.

(* the constructor of two trees, with the loop carried out *)
Lemma expression_tree_both_tree lhs rhs o context dtype shape :
  tree_ (expression_tree_both lhs rhs o context dtype shape)
  = tree_ lhs ++ (shift_node (length (tree_ lhs)) <$> tree_ rhs)
    ++ [ {| isaac.lhs := fill_node_index (root_ lhs); op := o;
            isaac.rhs := fill_node_index (length (tree_ lhs) + root_ rhs) |} ].
Proof.
  unfold expression_tree_both. cbn [tree_].
  apply list_eq. intros i. rewrite list_lookup_imap.
  destruct (decide (i < length (tree_ lhs))) as [Hi|Hi].
  - rewrite !lookup_app_l by exact Hi.
    destruct (tree_ lhs !! i) as [n|]; [|reflexivity]. simpl.
    rewrite decide_False by lia. reflexivity.
  - rewrite !(lookup_app_r (tree_ lhs)) by lia.
    destruct (decide (i - length (tree_ lhs) < length (tree_ rhs))) as [Hj|Hj].
    + rewrite lookup_app_l by exact Hj.
      rewrite lookup_app_l by (rewrite length_fmap; exact Hj).
      rewrite list_lookup_fmap.
      destruct (tree_ rhs !! (i - length (tree_ lhs))) as [n|]; [|reflexivity]. simpl.
      rewrite decide_True by lia. reflexivity.
    + rewrite lookup_app_r by lia.
      rewrite lookup_app_r by (rewrite length_fmap; lia). rewrite length_fmap.
      destruct ([ _ ] !! (i - length (tree_ lhs) - length (tree_ rhs))) as [n|];
        [|reflexivity].
      simpl. rewrite decide_False by lia. reflexivity.
Qed.

Lemma ordered_at_snoc array n :
  ordered_at array ->
  below (length array) (lhs n) = true -> below (length array) (rhs n) = true ->
  ordered_at (array ++ [n]).
Proof.
  intros Ho Hl Hr i m Ei.
  destruct (decide (i < length array)) as [Hi|Hi].
  - rewrite lookup_app_l in Ei by exact Hi. exact (Ho i m Ei).
  - rewrite lookup_app_r in Ei by lia.
    destruct (i - length array) as [|k] eqn:Ek; [|discriminate].
    injection Ei as <-. replace i with (length array) by lia. split; assumption.
Qed.

Lemma below_shift k i x : below i x = true -> below (k + i) (shift_index k x) = true.
Proof.
  destruct x as [|j| | |]; try reflexivity. simpl.
  rewrite !Nat.ltb_lt. lia.
Qed.

Lemma ordered_at_app_shift pre array :
  ordered_at pre -> ordered_at array ->
  ordered_at (pre ++ (shift_node (length pre) <$> array)).
Proof.
  intros Hp Ha i m Ei.
  destruct (decide (i < length pre)) as [Hi|Hi].
  - rewrite lookup_app_l in Ei by exact Hi. exact (Hp i m Ei).
  - rewrite lookup_app_r in Ei by lia. rewrite list_lookup_fmap in Ei.
    destruct (array !! (i - length pre)) as [n|] eqn:En; [|discriminate].
    injection Ei as <-. destruct (Ha _ n En) as [Hl Hr]. simpl.
    remember (i - length pre) as k eqn:Ek.
    replace i with (length pre + k) by lia.
    split; apply below_shift; assumption.
Qed.

(* one node more, its children below it *)
Lemma expression_snoc array n l r :
  child_expression (length array) (array ++ [n]) (lhs n) = Some l ->
  child_expression (length array) (array ++ [n]) (rhs n) = Some r ->
  expression_at (length (array ++ [n])) (array ++ [n]) (length (array ++ [n]) - 1)
  = Some (E_op l (op n) r).
Proof.
  intros Hl Hr. rewrite length_app. simpl length.
  replace (length array + 1) with (S (length array)) by lia.
  replace (S (length array) - 1) with (length array) by lia.
  rewrite expression_at_step.
  rewrite lookup_app_r by lia. rewrite Nat.sub_diag. simpl.
  rewrite Hl, Hr. reflexivity.
Qed.

Lemma nonempty_length {A} (l : list A) : l <> [] -> 0 < length l.
Proof. destruct l; [congruence|simpl; lia]. Qed.

Lemma expression_tree_both_value lhs rhs o context dtype shape el er :
  well_formed lhs = true -> well_formed rhs = true ->
  expression lhs = Some el -> expression rhs = Some er ->
  well_formed (expression_tree_both lhs rhs o context dtype shape) = true
  /\ expression (expression_tree_both lhs rhs o context dtype shape)
     = Some (E_op el o er).
Proof.
  rewrite !well_formed_spec. intros (Hln & Hlr & Hlo) (Hrn & Hrr & Hro) El Er.
  unfold expression in *. rewrite expression_tree_both_tree.
  pose proof (nonempty_length _ Hln) as Hl0.
  pose proof (nonempty_length _ Hrn) as Hr0.
  set (root := {| isaac.lhs := fill_node_index (root_ lhs); op := o;
                  isaac.rhs := fill_node_index (length (tree_ lhs) + root_ rhs) |}).
  set (shifted := shift_node (length (tree_ lhs)) <$> tree_ rhs).
  assert (length (tree_ lhs ++ shifted) = length (tree_ lhs) + length (tree_ rhs)) as Hlen.
  { subst shifted. rewrite length_app, length_fmap. reflexivity. }
  split.
  - split; [|split].
    + destruct (tree_ lhs); [congruence|discriminate].
    + cbn [root_ expression_tree_both]. rewrite !length_app. subst shifted.
      rewrite length_fmap. simpl. lia.
    + rewrite app_assoc. apply ordered_at_snoc.
      * apply ordered_at_app_shift; assumption.
      * rewrite Hlen. apply below_lt. lia.
      * rewrite Hlen. apply below_lt. lia.
  - cbn [root_ expression_tree_both].
    rewrite (app_assoc (tree_ lhs) shifted [root]).
    replace (length (tree_ lhs) + length (tree_ rhs) + 1 - 1)
      with (length ((tree_ lhs ++ shifted) ++ [root]) - 1)
      by (rewrite length_app, Hlen; simpl; lia).
    apply expression_snoc.
    + cbn [root isaac.lhs fill_node_index child_expression].
      rewrite <- (app_assoc (tree_ lhs) shifted [root]).
      rewrite expression_at_prefix by (assumption || lia).
      rewrite Hlen, <- El.
      apply expression_at_fuel; [assumption|lia|lia].
    + cbn [root isaac.rhs fill_node_index child_expression].
      rewrite <- (app_assoc (tree_ lhs) shifted [root]). subst shifted.
      rewrite expression_at_shift by (assumption || lia).
      rewrite length_app, length_fmap, <- Er.
      apply expression_at_fuel; [assumption|lia|lia].
Qed.

Lemma well_formed_expression t : well_formed t = true -> is_Some (expression t).
Proof.
  rewrite well_formed_spec. intros (Hn & Hr & Ho).
  pose proof (nonempty_length _ Hn) as H0.
  unfold expression. apply expression_at_total; [exact Ho|lia|lia].
Qed.

Lemma expression_tree_lhs_value t rhs o context dtype shape e :
  well_formed t = true -> expression t = Some e ->
  well_formed (expression_tree_lhs t rhs o context dtype shape) = true
  /\ expression (expression_tree_lhs t rhs o context dtype shape)
     = Some (E_op e o (E_leaf (fill rhs))).
Proof.
  rewrite !well_formed_spec. intros (Hn & Hr & Ho) E.
  pose proof (nonempty_length _ Hn) as H0.
  unfold expression in *. unfold expression_tree_lhs. cbn [tree_ root_].
  split.
  - split; [|split].
    + destruct (tree_ t); discriminate.
    + rewrite length_app. simpl. lia.
    + apply ordered_at_snoc; [exact Ho| |].
      * apply below_lt. lia.
      * destruct rhs; reflexivity.
  - replace (length (tree_ t) + 1 - 1)
      with (length (tree_ t ++ [ {| lhs := fill_node_index (root_ t); op := o;
                                    rhs := fill rhs |} ]) - 1)
      by (rewrite length_app; simpl; lia).
    apply expression_snoc.
    + cbn [isaac.lhs fill_node_index child_expression].
      rewrite expression_at_prefix by (assumption || lia). exact E.
    + cbn [isaac.rhs]. destruct rhs; reflexivity.
Qed.

Lemma expression_tree_rhs_value lhs t o context dtype shape e :
  well_formed t = true -> expression t = Some e ->
  well_formed (expression_tree_rhs lhs t o context dtype shape) = true
  /\ expression (expression_tree_rhs lhs t o context dtype shape)
     = Some (E_op (E_leaf (fill lhs)) o e).
Proof.
  rewrite !well_formed_spec. intros (Hn & Hr & Ho) E.
  pose proof (nonempty_length _ Hn) as H0.
  unfold expression in *. unfold expression_tree_rhs. cbn [tree_ root_].
  split.
  - split; [|split].
    + destruct (tree_ t); discriminate.
    + rewrite length_app. simpl. lia.
    + apply ordered_at_snoc; [exact Ho| |].
      * destruct lhs; reflexivity.
      * apply below_lt. lia.
  - replace (length (tree_ t) + 1 - 1)
      with (length (tree_ t ++ [ {| isaac.lhs := fill lhs; op := o;
                                    rhs := fill_node_index (root_ t) |} ]) - 1)
      by (rewrite length_app; simpl; lia).
    apply expression_snoc.
    + cbn [isaac.lhs]. destruct lhs; reflexivity.
    + cbn [isaac.rhs fill_node_index child_expression].
      rewrite expression_at_prefix by (assumption || lia). exact E.
Qed.

(* the loop of lhs_most walks down the left spine *)
Lemma lhs_most_spine array :
  ordered_at array ->
  forall fuel i n e,
    array !! i = Some n -> i <= fuel -> expression_at (S i) array i = Some e ->
    exists m r, lhs_most fuel array n = Some (Ok m)
                /\ is_composite (lhs m) = false
                /\ leftmost e = E_op (E_leaf (lhs m)) (op m) r.
Proof.
  intros Ho fuel. induction fuel as [|fuel IH]; intros i n e En Hi E.
  - assert (i = 0) as -> by lia.
    rewrite expression_at_step, En in E. simpl in E.
    destruct (Ho 0 n En) as [Hl _].
    destruct (lhs n) as [|j| | |] eqn:El;
      try (destruct (child_expression 0 array (rhs n)) as [r|]; [|discriminate];
           injection E as <-; exists n, r; simpl; rewrite El; repeat split; reflexivity).
    apply below_lt in Hl. lia.
  - rewrite expression_at_step, En in E. simpl in E.
    destruct (Ho i n En) as [Hl _].
    destruct (lhs n) as [|j| | |] eqn:El;
      try (destruct (child_expression i array (rhs n)) as [r|]; [|discriminate];
           injection E as <-; exists n, r; simpl; rewrite El; repeat split; reflexivity).
    apply below_lt in Hl. simpl in E.
    destruct (expression_at i array j) as [l|] eqn:Ej; [|discriminate]. simpl in E.
    destruct (child_expression i array (rhs n)) as [r|]; [|discriminate].
    injection E as <-.
    rewrite (expression_at_fuel array Ho i (S j) j) in Ej by lia.
    pose proof Ej as Ej'. rewrite expression_at_step in Ej'.
    destruct (array !! j) as [nj|] eqn:Enj; [|discriminate]. simpl in Ej'.
    destruct (IH j nj l Enj ltac:(lia) Ej) as (m & r' & Hm & Hc & Hlm).
    exists m, r'. simpl. rewrite El, Enj. split; [exact Hm|]. split; [exact Hc|].
    destruct (child_expression j array (lhs nj)) as [a|]; [|discriminate].
    destruct (child_expression j array (rhs nj)) as [b|]; [|discriminate].
    simpl in Ej'. injection Ej' as <-. exact Hlm.
Qed.

Lemma lhs_most_root_value t e :
  well_formed t = true -> expression t = Some e ->
  exists m r, lhs_most_root (length (tree_ t)) (tree_ t) (root_ t) = Some (Ok m)
              /\ is_composite (lhs m) = false
              /\ leftmost e = E_op (E_leaf (lhs m)) (op m) r.
Proof.
  rewrite well_formed_spec. intros (Hn & Hr & Ho) E.
  pose proof (nonempty_length _ Hn) as H0.
  unfold expression in E. unfold lhs_most_root.
  destruct (lookup_lt_is_Some_2 (tree_ t) (root_ t) ltac:(lia)) as [n En].
  rewrite En.
  apply (lhs_most_spine (tree_ t) Ho (length (tree_ t)) (root_ t) n e En); [lia|].
  rewrite <- E. apply expression_at_fuel; [exact Ho|lia|lia].
Qed.

End Expression.

End isaacFacts.

Import isaac isaacFacts.

(** X10: the expression tree built from two well-formed trees is well formed,
    and the expression it stands for is the operator applied to the
    expressions of the two operands: copying the right operand behind the
    left one with shifted indices changes neither. *)
Theorem expression_tree_both_keeps_operands `{header} (lhs rhs : expression_tree)
        (o : op_element) (context : driver_Context) (dtype : numeric_type)
        (shape : shape_t) :
  well_formed lhs = true -> well_formed rhs = true ->
  well_formed (expression_tree_both lhs rhs o context dtype shape) = true
  /\ exists el er,
       expression lhs = Some el /\ expression rhs = Some er
       /\ expression (expression_tree_both lhs rhs o context dtype shape)
          = Some (E_op el o er).
Proof.
  intros Hl Hr.
  destruct (well_formed_expression lhs Hl) as [el El].
  destruct (well_formed_expression rhs Hr) as [er Er].
  destruct (expression_tree_both_value lhs rhs o context dtype shape el er Hl Hr El Er)
    as [Hw He].
  split; [exact Hw|]. exists el, er. repeat split; assumption.
Qed.

Lemma expression_tree_both_keeps_operands_witness :
  well_formed (expression_tree_both example_difference example_sum
                 (example_op "div") tt 2%nat [4%nat]) = true
  /\ exists el er,
       expression example_difference = Some el /\ expression example_sum = Some er
       /\ expression (expression_tree_both example_difference example_sum
                        (example_op "div") tt 2%nat [4%nat])
          = Some (E_op el (example_op "div") er).
Proof.
  apply (@expression_tree_both_keeps_operands example_header
           example_difference example_sum (example_op "div") tt 2%nat [4%nat]);
    reflexivity.
Defined.

(** X11: extending a well-formed expression tree by one operator with a plain
    operand, on either side, gives a well-formed tree that stands for the
    operator applied to the old expression and the operand. *)
Theorem expression_tree_one_side_keeps_operand `{header} (t : expression_tree)
        (x : operand) (o : op_element) (context : driver_Context)
        (dtype : numeric_type) (shape : shape_t) :
  well_formed t = true ->
  exists e,
    expression t = Some e
    /\ well_formed (expression_tree_lhs t x o context dtype shape) = true
    /\ expression (expression_tree_lhs t x o context dtype shape)
       = Some (E_op e o (E_leaf (fill x)))
    /\ well_formed (expression_tree_rhs x t o context dtype shape) = true
    /\ expression (expression_tree_rhs x t o context dtype shape)
       = Some (E_op (E_leaf (fill x)) o e).
Proof.
  intros Hw. destruct (well_formed_expression t Hw) as [e E]. exists e.
  destruct (expression_tree_lhs_value t x o context dtype shape e Hw E) as [Hl El].
  destruct (expression_tree_rhs_value x t o context dtype shape e Hw E) as [Hr Er].
  repeat split; assumption.
Qed.

Lemma expression_tree_one_side_keeps_operand_witness :
  exists e,
    expression example_difference = Some e
    /\ well_formed (expression_tree_lhs example_difference example_scalar
                      (example_op "pow") tt 2%nat [4%nat]) = true
    /\ expression (expression_tree_lhs example_difference example_scalar
                     (example_op "pow") tt 2%nat [4%nat])
       = Some (E_op e (example_op "pow") (E_leaf (fill example_scalar)))
    /\ well_formed (expression_tree_rhs example_scalar example_difference
                      (example_op "pow") tt 2%nat [4%nat]) = true
    /\ expression (expression_tree_rhs example_scalar example_difference
                     (example_op "pow") tt 2%nat [4%nat])
       = Some (E_op (E_leaf (fill example_scalar)) (example_op "pow") e).
Proof.
  apply (@expression_tree_one_side_keeps_operand example_header
           example_difference example_scalar (example_op "pow") tt 2%nat [4%nat]).
  reflexivity.
Defined.

(** X12: on a well-formed expression tree, the loop of lhs_most stops within
    as many steps as the tree has nodes and returns the operator node at the
    bottom of the left spine of the expression: the node whose left operand
    is not an operator. *)
Theorem lhs_most_bottom_of_left_spine `{header} (t : expression_tree) :
  well_formed t = true ->
  exists e m r,
    expression t = Some e
    /\ lhs_most_root (length (tree_ t)) (tree_ t) (root_ t) = Some (Ok m)
    /\ is_composite (lhs m) = false
    /\ leftmost e = E_op (E_leaf (lhs m)) (op m) r.
Proof.
  intros Hw. destruct (well_formed_expression t Hw) as [e E].
  destruct (lhs_most_root_value t e Hw E) as (m & r & Hm & Hc & Hl).
  exists e, m, r. repeat split; assumption.
Qed.

Lemma lhs_most_bottom_of_left_spine_witness :
  exists e m r,
    expression example_difference = Some e
    /\ lhs_most_root (length (tree_ example_difference)) (tree_ example_difference)
                     (root_ example_difference) = Some (Ok m)
    /\ is_composite (lhs m) = false
    /\ leftmost e = E_op (E_leaf (lhs m)) (op m) r.
Proof.
  apply (@lhs_most_bottom_of_left_spine example_header example_difference).
  reflexivity.
Defined.

Module ExtractFacts.
Import Load LoadFacts Extract WrapFacts.

Lemma extract_elt_of_rets_cases w prim_bits ii :
  0 < prim_bits < 2 ^ 31 -> prim_bits mod 8 = 0 ->
  prim_bits <= width w < 2 ^ 31 -> 0 <= n_words w < 2 ^ 31 ->
  extract_elt_of_rets w prim_bits ii
  = if ii / (width w / prim_bits) <? n_words w
    then Ok (ii / (width w / prim_bits), ii mod (width w / prim_bits))
    else Undefined.
Proof.
  intros Hp H8 Hw Hn. unfold extract_elt_of_rets.
  assert (prim_bits / 8 * 8 = prim_bits) as E.
  { pose proof (Z.div_mod prim_bits 8). lia. }
  rewrite (size_t_mul_small (prim_bits / 8) 8) by lia. rewrite E.
  destruct (Z.eqb_spec prim_bits 0) as [E0|_]; [lia|].
  unfold to_uint64. rewrite (wrap_small 64 (width w)) by lia.
  assert (1 <= width w / prim_bits <= width w) as Ht.
  { split.
    - apply Z.div_le_lower_bound; lia.
    - apply Z.div_le_upper_bound; nia. }
  rewrite to_int_small by lia.
  rewrite (wrap_small 64 (width w / prim_bits)) by lia.
  destruct (Z.eqb_spec (width w / prim_bits) 0) as [E0|_]; [lia|].
  rewrite (wrap_small 32 (n_words w)) by lia. reflexivity.
Qed.

Lemma word_split_shape prim_bits vec :
  In prim_bits [8; 16; 32; 64] -> 0 < vec -> prim_bits * vec < 2 ^ 31 ->
  exists w,
    word_split prim_bits vec = Ok w
    /\ width w = Z.min (Z.max 32 prim_bits) (prim_bits * vec)
    /\ n_words w = Z.max 1 (prim_bits * vec / width w)
    /\ 0 < prim_bits < 2 ^ 31 /\ prim_bits mod 8 = 0
    /\ prim_bits <= width w < 2 ^ 31 /\ 0 <= n_words w < 2 ^ 31.
Proof.
  intros Hin Hv Hlt.
  assert (0 < prim_bits < 2 ^ 31 /\ prim_bits mod 8 = 0) as [Hp H8].
  { simpl in Hin. destruct Hin as [<-|[<-|[<-|[<-|[]]]]]; split; (lia || reflexivity). }
  eexists. split; [apply word_split_bytes; lia|]. cbn [width n_words].
  assert (prim_bits <= prim_bits * vec) by nia.
  assert (prim_bits <= Z.min (Z.max 32 prim_bits) (prim_bits * vec) <= prim_bits * vec)
    as Hw by lia.
  assert (0 <= prim_bits * vec / Z.min (Z.max 32 prim_bits) (prim_bits * vec)
          <= prim_bits * vec) as Hq.
  { split.
    - apply Z.div_pos; lia.
    - apply Z.div_le_upper_bound; nia. }
  repeat split; lia.
Qed.

End ExtractFacts.

Import Extract ExtractFacts.

(** X13: for 8-, 16-, 32- and 64-bit elements, when the word width divides
    the total width of a vector access, the extraction loop of visit_load_inst
    reads every element from a word that the load returned, and the words
    hold exactly the elements of the access (n_words * tmp = vec). *)
Theorem load_extraction_covers_words (prim_bits vec : Z) :
  In prim_bits [8; 16; 32; 64] -> 0 < vec -> prim_bits * vec < 2 ^ 31 ->
  (prim_bits * vec) mod Z.min (Z.max 32 prim_bits) (prim_bits * vec) = 0 ->
  exists w,
    word_split prim_bits vec = Ok w
    /\ n_words w * (width w / prim_bits) = vec
    /\ forall ii, 0 <= ii < vec ->
         extract_elt_of_rets w prim_bits ii
         = Ok (ii / (width w / prim_bits), ii mod (width w / prim_bits))
         /\ 0 <= ii / (width w / prim_bits) < n_words w.
Proof.
  intros Hin Hv Hlt Hdiv.
  destruct (word_split_shape prim_bits vec Hin Hv Hlt)
    as (w & Hw & Ewidth & Ewords & Hp & H8 & Hwr & Hnr).
  exists w. split; [exact Hw|].
  rewrite <- Ewidth in Hdiv.
  assert (width w mod prim_bits = 0) as Hpw.
  { rewrite Ewidth. simpl in Hin.
    destruct Hin as [<-|[<-|[<-|[<-|[]]]]];
      match goal with
      | |- Z.min ?a ?b mod _ = 0 =>
          destruct (Z.min_spec a b) as [[_ E]|[_ E]]; rewrite E;
          [reflexivity|rewrite Z.mul_comm; apply Z.mod_mul; lia]
      end. }
  set (tmp := width w / prim_bits) in *.
  assert (width w = prim_bits * tmp) as Etmp.
  { subst tmp. pose proof (Z.div_mod (width w) prim_bits). lia. }
  assert (0 < tmp) as Htmp by nia.
  assert (prim_bits * vec = width w * (prim_bits * vec / width w)) as Etot.
  { pose proof (Z.div_mod (prim_bits * vec) (width w)). lia. }
  assert (1 <= prim_bits * vec / width w) as Hq.
  { apply Z.div_le_lower_bound; lia. }
  assert (n_words w * tmp = vec) as Ecover.
  { rewrite Ewords, Z.max_r by lia. nia. }
  split; [exact Ecover|].
  intros ii Hii.
  assert (0 <= ii / tmp < n_words w) as Hword.
  { split; [apply Z.div_pos; lia|]. apply Z.div_lt_upper_bound; nia. }
  split; [|exact Hword].
  rewrite extract_elt_of_rets_cases by assumption. fold tmp.
  destruct (Z.ltb_spec (ii / tmp) (n_words w)); [reflexivity|lia].
Qed.

Lemma load_extraction_covers_words_witness :
  exists w,
    word_split 16 8 = Ok w
    /\ n_words w * (width w / 16) = 8
    /\ forall ii, 0 <= ii < 8 ->
         extract_elt_of_rets w 16 ii
         = Ok (ii / (width w / 16), ii mod (width w / 16))
         /\ 0 <= ii / (width w / 16) < n_words w.
Proof.
  apply (load_extraction_covers_words 16 8).
  - simpl. tauto.
  - lia.
  - reflexivity.
  - reflexivity.
Defined.

(** X14: for 8- and 16-bit elements, when the access is wider than 32 bits
    and 32 does not divide its total width, the extraction loop of
    visit_load_inst indexes a word that the load did not return. *)
Theorem load_extraction_out_of_range (prim_bits vec : Z) :
  In prim_bits [8; 16] -> 32 < prim_bits * vec < 2 ^ 31 ->
  (prim_bits * vec) mod 32 <> 0 ->
  exists w ii,
    word_split prim_bits vec = Ok w
    /\ 0 <= ii < vec
    /\ extract_elt_of_rets w prim_bits ii = Undefined.
Proof.
  intros Hin Hlt Hdiv.
  assert (0 < vec) as Hv by (simpl in Hin; destruct Hin as [<-|[<-|[]]]; lia).
  assert (In prim_bits [8; 16; 32; 64]) as Hin'.
  { simpl in *. tauto. }
  destruct (word_split_shape prim_bits vec Hin' Hv ltac:(lia))
    as (w & Hw & Ewidth & Ewords & Hp & H8 & Hwr & Hnr).
  assert (width w = 32) as E32.
  { rewrite Ewidth. simpl in Hin. destruct Hin as [<-|[<-|[]]]; lia. }
  rewrite E32 in Ewords.
  assert (1 <= prim_bits * vec / 32) as Hq by (apply Z.div_le_lower_bound; lia).
  rewrite Z.max_r in Ewords by lia.
  pose proof (Z.div_mod (prim_bits * vec) 32 ltac:(lia)) as Edm.
  pose proof (Z.mod_pos_bound (prim_bits * vec) 32 ltac:(lia)) as Hmod.
  exists w, (n_words w * (32 / prim_bits)). split; [exact Hw|].
  assert (32 = prim_bits * (32 / prim_bits) /\ 0 < 32 / prim_bits) as [E Hpos].
  { simpl in Hin. destruct Hin as [<-|[<-|[]]]; split; reflexivity. }
  split; [nia|].
  rewrite extract_elt_of_rets_cases by assumption. rewrite E32.
  rewrite Z.div_mul by lia.
  destruct (Z.ltb_spec (n_words w) (n_words w)); [lia|reflexivity].
Qed.

Lemma load_extraction_out_of_range_witness :
  exists w ii,
    word_split 16 3 = Ok w
    /\ 0 <= ii < 3
    /\ extract_elt_of_rets w 16 ii = Undefined.
Proof.
  apply (load_extraction_out_of_range 16 3).
  - simpl. tauto.
  - lia.
  - discriminate.
Defined.

Module SharedOffFacts.
Import SharedOff Scanline WrapFacts SwizzleFacts.

Lemma eval_CreateMul env l r :
  eval env (CreateMul l r) = eval env (BinaryOperator Mul l r).
Proof.
  destruct l as [w a| | | | | | | | | |], r as [w' b| | | | | | | | | |];
    try reflexivity.
  unfold CreateMul. destruct (Z.eqb_spec w w') as [<-|Hne]; [|reflexivity].
  cbn [eval]. rewrite Z.eqb_refl. reflexivity.
Qed.

Lemma eval_CreateAdd env l r :
  eval env (CreateAdd l r) = eval env (BinaryOperator Add l r).
Proof.
  destruct l as [w a| | | | | | | | | |], r as [w' b| | | | | | | | | |];
    try reflexivity.
  unfold CreateAdd. destruct (Z.eqb_spec w w') as [<-|Hne]; [|reflexivity].
  cbn [eval]. rewrite Z.eqb_refl. reflexivity.
Qed.

(** sums, products and Horner's rule *)

Lemma Zsum_perm l l' : Permutation l l' -> Zsum l = Zsum l'.
Proof.
  induction 1 as [|x l l' _ IH|x y l|l l' l'' _ IH1 _ IH2];
    unfold Zsum in *; simpl; lia.
Qed.

Lemma Zprod_pos l : Forall (fun s => 0 < s) l -> 0 < Zprod l.
Proof. induction 1 as [|s l Hs _ IH]; simpl; [lia|]. unfold Zprod in *. simpl. nia. Qed.

Lemma Zprod_perm l l' : Permutation l l' -> Zprod l = Zprod l'.
Proof.
  induction 1 as [|x l l' _ IH|x y l|l l' l'' _ IH1 _ IH2]; unfold Zprod in *; simpl;
    first [lia | rewrite IH; reflexivity].
Qed.

Lemma Zprod_take_le l k :
  Forall (fun s => 0 < s) l -> 0 < Zprod (firstn k l) <= Zprod l.
Proof.
  intros HF. revert k. induction HF as [|s l Hs HF IH]; intros k.
  - rewrite take_nil. unfold Zprod. simpl. lia.
  - destruct k as [|k]; unfold Zprod in *; simpl.
    + pose proof (Zprod_pos l HF). unfold Zprod in *. nia.
    + specialize (IH k). nia.
Qed.

Lemma Zprod_take_S l k s :
  l !! k = Some s -> Zprod (firstn (S k) l) = Zprod (firstn k l) * s.
Proof.
  revert k. induction l as [|a l IH]; intros k E; [discriminate|].
  destruct k as [|k]; unfold Zprod in *; simpl in *.
  - injection E as ->. lia.
  - rewrite (IH k E). lia.
Qed.

(* the weighted sum with the products of the leading bases as weights is
   Horner's rule *)
Lemma Zsum_linearize (bases digits : list Z) : forall c k0 (f : nat -> Z),
  length digits = length bases ->
  (forall k, (k < length bases)%nat -> f (k0 + k)%nat = c * Zprod (firstn k bases)) ->
  Zsum (imap (fun k d => d * f (k0 + k)%nat) digits) = c * linearize bases digits.
Proof.
  revert digits. induction bases as [|b bases IH]; intros digits c k0 f Hlen Hf.
  - destruct digits; [|discriminate]. simpl. lia.
  - destruct digits as [|d digits]; [discriminate|].
    cbn [imap linearize]. unfold Zsum in *. cbn [foldr].
    rewrite (imap_ext _ (fun k d => d * f (S k0 + k)%nat)).
    + rewrite (IH digits (c * b) (S k0) f).
      * rewrite (Hf 0%nat) by (simpl; lia). rewrite take_0. unfold Zprod. simpl. lia.
      * simpl in Hlen. lia.
      * intros k Hk. replace (S k0 + k)%nat with (k0 + S k)%nat by lia.
        rewrite Hf by (simpl; lia). unfold Zprod. simpl. lia.
    + intros k x _. simpl. f_equal. f_equal. lia.
Qed.

Lemma linearize_bound bases digits :
  Forall2 (fun d b => 0 <= d < b) digits bases ->
  0 <= linearize bases digits < Zprod bases.
Proof.
  induction 1 as [|d b digits bases Hd _ IH]; unfold Zprod in *; simpl; [lia|].
  nia.
Qed.

Lemma linearize_inj bases digits digits' :
  Forall2 (fun d b => 0 <= d < b) digits bases ->
  Forall2 (fun d b => 0 <= d < b) digits' bases ->
  linearize bases digits = linearize bases digits' ->
  digits = digits'.
Proof.
  intros HF. revert digits'.
  induction HF as [|d b digits bases Hd _ IH]; intros digits' HF' E.
  - inversion HF'. reflexivity.
  - inversion HF' as [|d' ? digits'' ? Hd' HF'']; subst. simpl in E.
    assert (d = d' /\ linearize bases digits = linearize bases digits'') as [-> E'].
    { assert (linearize bases digits = linearize bases digits'') by nia.
      split; [nia|assumption]. }
    f_equal. apply IH; assumption.
Qed.

(** the sum *)

Lemma result_loop_eval env (idx strides : list Value) (xs ws : list Z) count :
  forall i res acc,
  (i + count <= length idx)%nat ->
  Forall2 (fun v x => eval env v = Some (RBits 32 x)) idx xs ->
  strides = ConstantInt 32 <$> ws -> length ws = length idx ->
  eval env res = Some (RBits 32 (wrap 32 acc)) ->
  exists off,
    result_loop idx strides count i res = Ok off
    /\ eval env off
       = Some (RBits 32 (wrap 32 (acc + Zsum (firstn count (skipn i (zip_with Z.mul xs ws)))))).
Proof.
  induction count as [|count IH]; intros i res acc Hi HF -> Hlen Hres.
  - exists res. split; [reflexivity|]. rewrite take_0. unfold Zsum. simpl.
    rewrite Z.add_0_r. exact Hres.
  - cbn [result_loop]. unfold vector_at.
    destruct (lookup_lt_is_Some_2 idx i ltac:(lia)) as [v Ev].
    destruct (lookup_lt_is_Some_2 ws i ltac:(lia)) as [w Ew].
    destruct (Forall2_lookup_l _ _ _ _ _ HF Ev) as (x & Ex & Hx).
    rewrite Ev. cbn [mbind result_bind].
    rewrite list_lookup_fmap, Ew. cbn [fmap option_fmap option_map mbind result_bind].
    destruct (IH (S i) (CreateAdd res (CreateMul v (ConstantInt 32 w))) (acc + x * w))
      as (off & Hoff & Eoff); [lia|exact HF|reflexivity|exact Hlen| |].
    + rewrite eval_CreateAdd. cbn [eval]. rewrite Hres, eval_CreateMul. cbn [eval].
      rewrite Hx. cbn. f_equal. f_equal.
      rewrite wrap_add_l, wrap_add_r. reflexivity.
    + exists off. split; [exact Hoff|]. rewrite Eoff. do 3 f_equal.
      assert (zip_with Z.mul xs ws !! i = Some (x * w)) as Ez.
      { rewrite lookup_zip_with, Ex. simpl. rewrite Ew. reflexivity. }
      rewrite (drop_S _ _ _ Ez). cbn [firstn]. unfold Zsum. simpl. lia.
Qed.

(** the strides *)

Section Strides.
Variables (shapes : list Z) (order : list nat).
Hypothesis order_perm : Permutation order (seq 0 (length shapes)).
Hypothesis shapes_pos : Forall (fun s => 0 < s) shapes.
Hypothesis shapes_fit : Zprod shapes < 2 ^ 32.

Lemma order_length : length order = length shapes.
Proof. rewrite (Permutation_length order_perm). apply length_seq. Qed.

Lemma order_range k o : order !! k = Some o -> (o < length shapes)%nat.
Proof.
  intros E. apply list_elem_of_lookup_2 in E. rewrite order_perm in E.
  apply elem_of_seq in E. lia.
Qed.

Lemma order_NoDup : NoDup order.
Proof. rewrite order_perm. apply NoDup_seq. Qed.

Lemma order_surjective o : (o < length shapes)%nat -> exists k, order !! k = Some o.
Proof.
  intros Ho. apply list_elem_of_lookup_1. rewrite order_perm. apply elem_of_seq. lia.
Qed.

Lemma bases_perm : Permutation (in_order order shapes) shapes.
Proof.
  assert ((fun o => default 0 (shapes !! o)) <$> seq 0 (length shapes) = shapes) as E.
  { apply list_eq. intros i. rewrite list_lookup_fmap.
    destruct (decide (i < length shapes)%nat) as [Hi|Hi].
    - rewrite lookup_seq_lt by exact Hi. simpl.
      destruct (lookup_lt_is_Some_2 shapes i Hi) as [s Es]. rewrite Es. reflexivity.
    - rewrite lookup_seq_ge by lia. simpl. symmetry. apply lookup_ge_None. lia. }
  unfold in_order. rewrite order_perm, E. reflexivity.
Qed.

Lemma bases_pos : Forall (fun s => 0 < s) (in_order order shapes).
Proof. rewrite bases_perm. exact shapes_pos. Qed.

Lemma bases_prefix_fit k : 0 < Zprod (firstn k (in_order order shapes)) < 2 ^ 32.
Proof.
  pose proof (Zprod_take_le (in_order order shapes) k bases_pos) as Hk.
  rewrite (Zprod_perm _ _ bases_perm) in Hk. lia.
Qed.

Lemma bases_lookup k o s :
  order !! k = Some o -> shapes !! o = Some s -> (in_order order shapes) !! k = Some s.
Proof.
  intros Eo Es. unfold in_order. rewrite list_lookup_fmap, Eo. simpl.
  rewrite Es. reflexivity.
Qed.

Lemma shape_fit o s : shapes !! o = Some s -> 0 < s < 2 ^ 32.
Proof.
  intros Es.
  assert (0 < s) as Hs.
  { rewrite Forall_forall in shapes_pos. apply shapes_pos.
    eapply list_elem_of_lookup_2, Es. }
  split; [exact Hs|].
  destruct (order_surjective o (lookup_lt_Some _ _ _ Es)) as [k Ek].
  pose proof (bases_prefix_fit (S k)) as HS.
  pose proof (bases_prefix_fit k) as Hk.
  rewrite (Zprod_take_S (in_order order shapes) k s (bases_lookup k o s Ek Es)) in HS. nia.
Qed.

Lemma strides_loop_upto count : forall i strides,
  (1 <= i)%nat -> (i + count <= length shapes)%nat ->
  strides_upto shapes order i strides ->
  exists strides',
    strides_loop shapes order count i strides = Ok strides'
    /\ strides_upto shapes order (i + count) strides'.
Proof.
  induction count as [|count IH]; intros i strides Hi Hn [Hlen Hinv].
  - exists strides. split; [reflexivity|]. rewrite Nat.add_0_r. split; assumption.
  - cbn [strides_loop]. unfold vector_at, vector_set.
    destruct (lookup_lt_is_Some_2 order i ltac:(rewrite order_length; lia)) as [o Eo].
    destruct (lookup_lt_is_Some_2 order (i - 1) ltac:(rewrite order_length; lia))
      as [o_prev Ep].
    rewrite Eo. cbn [mbind result_bind]. rewrite Ep. cbn [mbind result_bind].
    rewrite (Hinv (i - 1)%nat o_prev ltac:(lia) Ep). cbn [mbind result_bind].
    destruct (lookup_lt_is_Some_2 shapes o_prev (order_range _ _ Ep)) as [s Es].
    rewrite Es. cbn [mbind result_bind].
    rewrite decide_True by (rewrite Hlen; exact (order_range _ _ Eo)).
    cbn [mbind result_bind].
    replace (i + S count)%nat with (S i + count)%nat by lia.
    apply IH; [lia|lia|]. split; [rewrite length_insert; exact Hlen|].
    intros k o' Hk Ek.
    destruct (decide (k = i)) as [->|Hki].
    + assert (o' = o) as -> by congruence.
      rewrite list_lookup_insert_eq by (rewrite Hlen; exact (order_range _ _ Eo)).
      f_equal. unfold CreateMul, getInt32, ConstantInt_get. rewrite Z.eqb_refl.
      f_equal.
      pose proof (shape_fit o_prev s Es) as Hs.
      rewrite (wrap_small 32 s) by lia.
      replace i with (S (i - 1)) at 2 by lia.
      rewrite (Zprod_take_S (in_order order shapes) (i - 1) s (bases_lookup _ _ _ Ep Es)).
      apply wrap_small.
      pose proof (bases_prefix_fit (S (i - 1))) as HS.
      rewrite (Zprod_take_S (in_order order shapes) (i - 1) s (bases_lookup _ _ _ Ep Es)) in HS. lia.
    + assert (o' <> o) as Hne.
      { intros ->. apply Hki. exact (NoDup_lookup _ _ _ _ order_NoDup Ek Eo). }
      rewrite list_lookup_insert_ne by congruence.
      apply Hinv; [lia|exact Ek].
Qed.

Lemma strides_of_shared_off (n : nat) :
  (1 <= n <= length shapes)%nat ->
  exists o strides0 strides,
    vector_at order 0 = Ok o
    /\ vector_set (replicate (length shapes) (getInt32 0)) o (getInt32 1) = Ok strides0
    /\ strides_loop shapes order (n - 1) 1 strides0 = Ok strides
    /\ strides_upto shapes order n strides.
Proof.
  intros Hn.
  destruct (lookup_lt_is_Some_2 order 0 ltac:(rewrite order_length; lia)) as [o Eo].
  exists o, (<[o := getInt32 1]> (replicate (length shapes) (getInt32 0))).
  assert (strides_upto shapes order 1 (<[o := getInt32 1]> (replicate (length shapes) (getInt32 0))))
    as H1.
  { split; [rewrite length_insert, length_replicate; reflexivity|].
    intros k o' Hk Ek. assert (k = 0)%nat as -> by lia.
    assert (o' = o) as -> by congruence.
    rewrite list_lookup_insert_eq
      by (rewrite length_replicate; exact (order_range _ _ Eo)).
    rewrite take_0. reflexivity. }
  destruct (strides_loop_upto (n - 1) 1 _ ltac:(lia) ltac:(lia) H1) as (strides & Hs & Hinv).
  exists strides. unfold vector_at, vector_set. rewrite Eo.
  rewrite decide_True by (rewrite length_replicate; exact (order_range _ _ Eo)).
  split; [reflexivity|]. split; [reflexivity|]. split; [exact Hs|].
  replace (1 + (n - 1))%nat with n in Hinv by lia. exact Hinv.
Qed.

(* the strides, as the list of their values *)
Lemma strides_values (strides : list Value) :
  strides_upto shapes order (length shapes) strides ->
  exists ws,
    strides = ConstantInt 32 <$> ws /\ length ws = length shapes
    /\ forall k o, order !! k = Some o ->
         ws !! o = Some (Zprod (firstn k (in_order order shapes))).
Proof.
  intros [Hlen Hinv].
  exists ((fun v => match v with ConstantInt _ z => z | _ => 0 end) <$> strides).
  split; [|split].
  - apply list_eq. intros i. rewrite !list_lookup_fmap.
    destruct (decide (i < length shapes)%nat) as [Hi|Hi].
    + destruct (order_surjective i Hi) as [k Ek].
      rewrite (Hinv k i (eq_ind _ (fun n => (k < n)%nat) (lookup_lt_Some _ _ _ Ek) _
                           order_length) Ek).
      reflexivity.
    + rewrite (proj2 (lookup_ge_None strides i)) by lia. reflexivity.
  - rewrite length_fmap. exact Hlen.
  - intros k o Ek. rewrite list_lookup_fmap.
    rewrite (Hinv k o (eq_ind _ (fun n => (k < n)%nat) (lookup_lt_Some _ _ _ Ek) _
                         order_length) Ek).
    reflexivity.
Qed.

Lemma in_order_range (xs : list Z) :
  Forall2 (fun x s => 0 <= x < s) xs shapes ->
  Forall2 (fun d b => 0 <= d < b) (in_order order xs) (in_order order shapes).
Proof.
  intros HF. unfold in_order. apply Forall2_fmap, Forall2_same_length_lookup.
  split; [reflexivity|]. intros k o o' Ek Ek'. assert (o' = o) as -> by congruence.
  destruct (lookup_lt_is_Some_2 shapes o (order_range _ _ Ek)) as [s Es].
  destruct (Forall2_lookup_r _ _ _ _ _ HF Es) as (x & Ex & Hx).
  rewrite Ex, Es. exact Hx.
Qed.

Lemma shared_off_eval env (idx : list Value) (xs : list Z) :
  (1 <= length shapes)%nat -> length idx = length shapes ->
  Forall2 (fun v x => eval env v = Some (RBits 32 x)) idx xs ->
  Forall2 (fun x s => 0 <= x < s) xs shapes ->
  exists off,
    shared_off shapes order idx = Ok off
    /\ eval env off
       = Some (RBits 32 (linearize (in_order order shapes) (in_order order xs)))
    /\ 0 <= linearize (in_order order shapes) (in_order order xs) < Zprod shapes.
Proof.
  intros Hn Hlen Hev Hrange.
  pose proof (Forall2_length _ _ _ Hev) as Hxs.
  destruct (strides_of_shared_off (length idx) ltac:(lia))
    as (o & strides0 & strides & Ho & H0 & Hs & Hinv).
  rewrite Hlen in Hinv.
  destruct (strides_values strides Hinv) as (ws & -> & Hws & Hw).
  destruct (result_loop_eval env idx (ConstantInt 32 <$> ws) xs ws (length idx)
              0%nat (getInt32 0) 0 ltac:(lia) Hev eq_refl ltac:(lia) eq_refl)
    as (off & Hoff & Eoff).
  pose proof (linearize_bound _ _ (in_order_range xs Hrange)) as Hb.
  rewrite (Zprod_perm _ _ bases_perm) in Hb.
  exists off. split; [|split; [|exact Hb]].
  - unfold shared_off. rewrite Ho. cbn [mbind result_bind]. rewrite H0.
    cbn [mbind result_bind]. rewrite Hs. cbn [mbind result_bind]. exact Hoff.
  - rewrite Eoff. do 2 f_equal. rewrite Z.add_0_l.
    rewrite skipn_O, firstn_all2 by (rewrite length_zip_with; lia).
    assert (zip_with Z.mul xs ws
            = (fun i => default 0 (xs !! i) * default 0 (ws !! i))
                <$> seq 0 (length shapes)) as Ez.
    { apply list_eq. intros i. rewrite lookup_zip_with, list_lookup_fmap.
      destruct (decide (i < length shapes)%nat) as [Hi|Hi].
      - rewrite lookup_seq_lt by exact Hi.
        destruct (lookup_lt_is_Some_2 xs i ltac:(lia)) as [x Ex].
        destruct (lookup_lt_is_Some_2 ws i ltac:(lia)) as [w Ew].
        rewrite Ex, Ew. simpl. rewrite Ex, Ew. reflexivity.
      - rewrite lookup_seq_ge by lia.
        rewrite (proj2 (lookup_ge_None xs i)) by lia. reflexivity. }
    rewrite Ez.
    rewrite <- (Zsum_perm _ _ (fmap_Permutation _ _ _ order_perm)).
    assert ((fun i => default 0 (xs !! i) * default 0 (ws !! i)) <$> order
            = imap (fun k d => d * Zprod (firstn (0 + k) (in_order order shapes)))
                   (in_order order xs)) as Ei.
    { apply list_eq. intros k. unfold in_order.
      rewrite list_lookup_imap, !list_lookup_fmap.
      destruct (order !! k) as [o'|] eqn:Ek; [|reflexivity]. simpl.
      rewrite (Hw k o' Ek). reflexivity. }
    rewrite Ei.
    rewrite (Zsum_linearize (in_order order shapes) (in_order order xs) 1 0
               (fun k => Zprod (firstn k (in_order order shapes)))).
    + rewrite Z.mul_1_l. apply wrap_small. lia.
    + unfold in_order. rewrite !length_fmap. reflexivity.
    + intros k _. simpl. lia.
Qed.

Lemma in_order_inj (xs xs' : list Z) :
  length xs = length shapes -> length xs' = length shapes ->
  in_order order xs = in_order order xs' -> xs = xs'.
Proof.
  intros Hl Hl' E. apply list_eq. intros i.
  destruct (decide (i < length shapes)%nat) as [Hi|Hi].
  - destruct (order_surjective i Hi) as [k Ek].
    assert (in_order order xs !! k = in_order order xs' !! k) as Ek' by (rewrite E; reflexivity).
    unfold in_order in Ek'. rewrite !list_lookup_fmap, Ek in Ek'. simpl in Ek'.
    destruct (lookup_lt_is_Some_2 xs i ltac:(lia)) as [x Ex].
    destruct (lookup_lt_is_Some_2 xs' i ltac:(lia)) as [x' Ex'].
    rewrite Ex, Ex' in *. simpl in Ek'. exact Ek'.
  - rewrite (proj2 (lookup_ge_None xs i)), (proj2 (lookup_ge_None xs' i)) by lia.
    reflexivity.
Qed.

End Strides.

End SharedOffFacts.

Import SharedOff SharedOffFacts.

(** X15: for an order that is a permutation of the dimensions, indices within
    the shape and a shape of fewer than 2^32 elements, shared_off returns the
    position of the index in the buffer laid out with dimension order[0]
    fastest: idx[order[0]] + shape[order[0]] * (idx[order[1]] + ...), without
    wrap-around and below the number of elements. *)
Theorem shared_off_linearizes (env : string -> option rval) (shapes : list Z)
        (order : list nat) (idx : list Value) (xs : list Z) :
  Permutation order (seq 0 (length shapes)) ->
  Zprod shapes < 2 ^ 32 ->
  (1 <= length shapes)%nat -> length idx = length shapes ->
  Forall2 (fun v x => eval env v = Some (RBits 32 x)) idx xs ->
  Forall2 (fun x s => 0 <= x < s) xs shapes ->
  exists off,
    shared_off shapes order idx = Ok off
    /\ eval env off
       = Some (RBits 32 (linearize (in_order order shapes) (in_order order xs)))
    /\ 0 <= linearize (in_order order shapes) (in_order order xs) < Zprod shapes.
Proof.
  intros Hperm Hfit Hn Hlen Hev Hrange.
  apply shared_off_eval; try assumption.
  clear -Hrange. induction Hrange as [|x s xs shapes Hx _ IH]; constructor; [lia|exact IH].
Qed.

Lemma shared_off_linearizes_witness :
  exists off,
    shared_off [4; 8] [1; 0]%nat [Argument "i"; Argument "j"] = Ok off
    /\ eval Examples.index_env off
       = Some (RBits 32 (linearize (in_order [1; 0]%nat [4; 8])
                                   (in_order [1; 0]%nat [3; 5])))
    /\ 0 <= linearize (in_order [1; 0]%nat [4; 8]) (in_order [1; 0]%nat [3; 5])
       < Zprod [4; 8].
Proof.
  apply (shared_off_linearizes Examples.index_env [4; 8] [1; 0]%nat
           [Argument "i"; Argument "j"] [3; 5]).
  - apply Permutation_swap.
  - reflexivity.
  - simpl. lia.
  - reflexivity.
  - repeat constructor.
  - repeat constructor; lia.
Defined.

(** X16: under the same conditions, shared_off gives different offsets to
    different indices: no two elements of the shape share a place in the
    buffer. *)
Theorem shared_off_injective (env : string -> option rval) (shapes : list Z)
        (order : list nat) (idx idx' : list Value) (xs xs' : list Z) :
  Permutation order (seq 0 (length shapes)) ->
  Zprod shapes < 2 ^ 32 ->
  (1 <= length shapes)%nat ->
  length idx = length shapes -> length idx' = length shapes ->
  Forall2 (fun v x => eval env v = Some (RBits 32 x)) idx xs ->
  Forall2 (fun v x => eval env v = Some (RBits 32 x)) idx' xs' ->
  Forall2 (fun x s => 0 <= x < s) xs shapes ->
  Forall2 (fun x s => 0 <= x < s) xs' shapes ->
  xs <> xs' ->
  exists off off',
    shared_off shapes order idx = Ok off
    /\ shared_off shapes order idx' = Ok off'
    /\ eval env off <> eval env off'.
Proof.
  intros Hperm Hfit Hn Hlen Hlen' Hev Hev' Hrange Hrange' Hne.
  assert (Forall (fun s => 0 < s) shapes) as Hpos.
  { clear -Hrange. induction Hrange as [|x s xs shapes Hx _ IH]; constructor;
      [lia|exact IH]. }
  destruct (shared_off_eval shapes order Hperm Hpos Hfit env idx xs Hn Hlen Hev Hrange)
    as (off & Hoff & Eoff & _).
  destruct (shared_off_eval shapes order Hperm Hpos Hfit env idx' xs' Hn Hlen' Hev' Hrange')
    as (off' & Hoff' & Eoff' & _).
  exists off, off'. split; [exact Hoff|]. split; [exact Hoff'|].
  rewrite Eoff, Eoff'. intros E. apply Hne.
  injection E as E.
  apply (in_order_inj shapes order Hperm).
  - rewrite <- (Forall2_length _ _ _ Hev). exact Hlen.
  - rewrite <- (Forall2_length _ _ _ Hev'). exact Hlen'.
  - eapply linearize_inj; [| |exact E];
      apply (in_order_range shapes order Hperm); assumption.
Qed.

Lemma shared_off_injective_witness :
  exists off off',
    shared_off [4; 8] [1; 0]%nat [Argument "i"; Argument "j"] = Ok off
    /\ shared_off [4; 8] [1; 0]%nat [Argument "i"; Argument "i"] = Ok off'
    /\ eval Examples.index_env off <> eval Examples.index_env off'.
Proof.
  apply (shared_off_injective Examples.index_env [4; 8] [1; 0]%nat
           [Argument "i"; Argument "j"] [Argument "i"; Argument "i"] [3; 5] [3; 3]).
  - apply Permutation_swap.
  - reflexivity.
  - simpl. lia.
  - reflexivity.
  - reflexivity.
  - repeat constructor.
  - repeat constructor.
  - repeat constructor; lia.
  - repeat constructor; lia.
  - discriminate.
Defined.
